(** * Calculator with secret vault: the PIN-protected vault core

    A shallow embedding of the vault's TypeScript sources:
    - [lib/encryption.ts]: [EncryptionManager] and [PinValidator];
    - [lib/storage.ts]: [VaultStorage] over IndexedDB;
    - [components/SecretVault.tsx]: the unlock form and its lockout logic;
    - [components/FileManager.tsx]: upload, download and delete;
    - [components/PinSetup.tsx]: the form that sets the PIN;
    - [lib/calculator.ts]: [CalculatorEngine];
    - [lib/gesture.ts]: [VGestureDetector].

    Conventions.  A byte is a [Z] in [0, 256); a typed array is a list of
    them.  A JavaScript string is a [string] of code units below 256.  A
    [Date] is its number of milliseconds since the epoch.  The platform
    (Web Crypto, [btoa]/[atob], IndexedDB) is modelled from its standards
    and checked against their published test vectors.  Definitions come
    first, the theorems about them follow. *)

From Stdlib Require Import ZArith String Ascii List Bool Lia DecimalString
  Sorted.
From stdpp Require Import gmap strings list.

Open Scope string_scope.
Open Scope list_scope.

(** ** Bytes and the random source *)

(** Storing a number into a [Uint8Array] keeps its low eight bits. *)
Definition u8 (x : Z) : Z := x mod 256.

(** [crypto.getRandomValues] reads the system's entropy.  The entropy is
    an unbounded tape of numbers and the generator is a cursor on it. *)
Record Rng := mkRng { tape : nat -> Z; cursor : nat }.

Definition getRandomValues (n : nat) (g : Rng) : list Z * Rng :=
  (map (fun i => u8 (tape g (cursor g + i))) (seq 0 n),
   mkRng (tape g) (cursor g + n)).

(** A value of a [Uint8Array]. *)
Definition is_byte (b : Z) : Prop := (0 <= b < 256)%Z.

(** [P] holds of every number from 0 up to [n], by enumeration. *)
Definition in_range (n : Z) (P : Z -> bool) : bool :=
  forallb P (map Z.of_nat (seq 0 (Z.to_nat n))).

(** ** Bytes, words and big-endian numbers *)

Definition xor_bytes (xs ys : list Z) : list Z := zip_with Z.lxor xs ys.

(** The [n] bytes of [x], most significant first. *)
Definition be_bytes (n : nat) (x : Z) : list Z :=
  map (fun i => Z.land (Z.shiftr x (8 * Z.of_nat (n - 1 - i))) 255) (seq 0 n).

(** The number a byte string writes, most significant byte first. *)
Definition be_number (bs : list Z) : Z :=
  fold_left (fun acc b => Z.lor (Z.shiftl acc 8) b) bs 0%Z.

(** Cut a list into [n] pieces of [size] elements. *)
Fixpoint chunks {A} (size n : nat) (l : list A) : list (list A) :=
  match n with
  | O => []
  | S n' => firstn size l :: chunks size n' (skipn size l)
  end.

(** ** SHA-256 (FIPS 180-4) *)

Module Sha256.

Definition w32 (x : Z) : Z := x mod 2 ^ 32.
Definition add32 (x y : Z) : Z := w32 (x + y).
Definition rotr (n x : Z) : Z :=
  w32 (Z.lor (Z.shiftr x n) (Z.shiftl x (32 - n))).
Definition not32 (x : Z) : Z := Z.lxor x 0xffffffff.

Definition Ch (x y z : Z) : Z :=
  Z.lxor (Z.land x y) (Z.land (not32 x) z).
Definition Maj (x y z : Z) : Z :=
  Z.lxor (Z.lxor (Z.land x y) (Z.land x z)) (Z.land y z).
Definition Sigma0 (x : Z) : Z :=
  Z.lxor (Z.lxor (rotr 2 x) (rotr 13 x)) (rotr 22 x).
Definition Sigma1 (x : Z) : Z :=
  Z.lxor (Z.lxor (rotr 6 x) (rotr 11 x)) (rotr 25 x).
Definition sigma0 (x : Z) : Z :=
  Z.lxor (Z.lxor (rotr 7 x) (rotr 18 x)) (Z.shiftr x 3).
Definition sigma1 (x : Z) : Z :=
  Z.lxor (Z.lxor (rotr 17 x) (rotr 19 x)) (Z.shiftr x 10).

(** The constants are the first 32 bits of the fractional parts of the
    cube roots (for [K]) and of the square roots (for [H0]) of the first
    primes. *)
Definition is_prime (n : nat) : bool :=
  forallb (fun d => negb (n mod d =? 0)%nat) (seq 2 (n - 2)).

Definition primes : list Z := map Z.of_nat (filter is_prime (seq 2 310)).

Fixpoint cube_root_between (fuel : nat) (lo hi n : Z) : Z :=
  match fuel with
  | O => lo
  | S fuel' =>
      let mid := ((lo + hi) / 2)%Z in
      if (mid * mid * mid <=? n)%Z then cube_root_between fuel' mid hi n
      else cube_root_between fuel' lo mid n
  end.

Definition cube_root (n : Z) : Z := cube_root_between 40 0 (2 ^ 36) n.

Definition K : list Z :=
  Eval vm_compute in
    map (fun p => cube_root (p * 2 ^ 96) mod 2 ^ 32)%Z primes.

Definition H0 : list Z :=
  Eval vm_compute in
    map (fun p => Z.sqrt (p * 2 ^ 64) mod 2 ^ 32)%Z (firstn 8 primes).

(** The message, a one bit, zeros up to 56 modulo 64 bytes, and the
    length in bits on eight bytes. *)
Definition pad (msg : list Z) : list Z :=
  let len := length msg in
  let zeros := ((64 - (len + 9) mod 64) mod 64)%nat in
  msg ++ [0x80%Z] ++ repeat 0%Z zeros ++ be_bytes 8 (8 * Z.of_nat len).

(** The message schedule: sixteen words of the block, then 48 derived. *)
Definition extend (w : list Z) (t : nat) : list Z :=
  let at_ i := nth (t - i) w 0%Z in
  w ++ [add32 (add32 (sigma1 (at_ 2%nat)) (at_ 7%nat))
              (add32 (sigma0 (at_ 15%nat)) (at_ 16%nat))].

Definition schedule (block : list Z) : list Z :=
  fold_left extend (seq 16 48) (map be_number (chunks 4 16 block)).

Definition round (s : list Z) (kw : Z * Z) : list Z :=
  match s with
  | [a; b; c; d; e; f; g; h] =>
      let t1 := add32 (add32 (add32 h (Sigma1 e)) (add32 (Ch e f g) kw.1))
                      kw.2 in
      let t2 := add32 (Sigma0 a) (Maj a b c) in
      [add32 t1 t2; a; b; c; add32 d t1; e; f; g]
  | _ => s
  end.

Definition compress (h : list Z) (block : list Z) : list Z :=
  zip_with add32 h (fold_left round (zip K (schedule block)) h).

Definition sha256 (msg : list Z) : list Z :=
  let padded := pad msg in
  let h := fold_left compress (chunks 64 (length padded / 64) padded) H0 in
  concat (map (be_bytes 4) h).

End Sha256.

(** ** HMAC-SHA-256 (RFC 2104) and PBKDF2 (RFC 8018) *)

Module Pbkdf2.

(** The key on one 64-byte block: hashed first when longer than a block,
    then filled with zeros. *)
Definition hmac_key_block (key : list Z) : list Z :=
  let k := if (64 <? length key)%nat then Sha256.sha256 key else key in
  k ++ repeat 0%Z (64 - length k).

Definition hmac_block (k0 : list Z) (msg : list Z) : list Z :=
  Sha256.sha256 (map (Z.lxor 0x5c) k0
                 ++ Sha256.sha256 (map (Z.lxor 0x36) k0 ++ msg)).

Definition hmac (key msg : list Z) : list Z :=
  hmac_block (hmac_key_block key) msg.

(** [F]: the exclusive or of [c] chained applications of the PRF. *)
Definition F (k0 salt : list Z) (c : N) (i : Z) : list Z :=
  let u1 := hmac_block k0 (salt ++ be_bytes 4 i) in
  snd (N.iter (c - 1)
         (fun ut : list Z * list Z =>
            let u := hmac_block k0 ut.1 in (u, xor_bytes ut.2 u))
         (u1, u1)).

Definition pbkdf2 (password salt : list Z) (c : N) (dkLen : nat) : list Z :=
  let k0 := hmac_key_block password in
  let l := ((dkLen + 31) / 32)%nat in
  firstn dkLen
    (concat (map (fun i => F k0 salt c (Z.of_nat (S i))) (seq 0 l))).

End Pbkdf2.

(** ** AES-256 (FIPS 197) *)

Module Aes.

Definition sbox : list Z :=
  [ 0x63; 0x7c; 0x77; 0x7b; 0xf2; 0x6b; 0x6f; 0xc5; 0x30; 0x01; 0x67; 0x2b;
    0xfe; 0xd7; 0xab; 0x76; 0xca; 0x82; 0xc9; 0x7d; 0xfa; 0x59; 0x47; 0xf0;
    0xad; 0xd4; 0xa2; 0xaf; 0x9c; 0xa4; 0x72; 0xc0; 0xb7; 0xfd; 0x93; 0x26;
    0x36; 0x3f; 0xf7; 0xcc; 0x34; 0xa5; 0xe5; 0xf1; 0x71; 0xd8; 0x31; 0x15;
    0x04; 0xc7; 0x23; 0xc3; 0x18; 0x96; 0x05; 0x9a; 0x07; 0x12; 0x80; 0xe2;
    0xeb; 0x27; 0xb2; 0x75; 0x09; 0x83; 0x2c; 0x1a; 0x1b; 0x6e; 0x5a; 0xa0;
    0x52; 0x3b; 0xd6; 0xb3; 0x29; 0xe3; 0x2f; 0x84; 0x53; 0xd1; 0x00; 0xed;
    0x20; 0xfc; 0xb1; 0x5b; 0x6a; 0xcb; 0xbe; 0x39; 0x4a; 0x4c; 0x58; 0xcf;
    0xd0; 0xef; 0xaa; 0xfb; 0x43; 0x4d; 0x33; 0x85; 0x45; 0xf9; 0x02; 0x7f;
    0x50; 0x3c; 0x9f; 0xa8; 0x51; 0xa3; 0x40; 0x8f; 0x92; 0x9d; 0x38; 0xf5;
    0xbc; 0xb6; 0xda; 0x21; 0x10; 0xff; 0xf3; 0xd2; 0xcd; 0x0c; 0x13; 0xec;
    0x5f; 0x97; 0x44; 0x17; 0xc4; 0xa7; 0x7e; 0x3d; 0x64; 0x5d; 0x19; 0x73;
    0x60; 0x81; 0x4f; 0xdc; 0x22; 0x2a; 0x90; 0x88; 0x46; 0xee; 0xb8; 0x14;
    0xde; 0x5e; 0x0b; 0xdb; 0xe0; 0x32; 0x3a; 0x0a; 0x49; 0x06; 0x24; 0x5c;
    0xc2; 0xd3; 0xac; 0x62; 0x91; 0x95; 0xe4; 0x79; 0xe7; 0xc8; 0x37; 0x6d;
    0x8d; 0xd5; 0x4e; 0xa9; 0x6c; 0x56; 0xf4; 0xea; 0x65; 0x7a; 0xae; 0x08;
    0xba; 0x78; 0x25; 0x2e; 0x1c; 0xa6; 0xb4; 0xc6; 0xe8; 0xdd; 0x74; 0x1f;
    0x4b; 0xbd; 0x8b; 0x8a; 0x70; 0x3e; 0xb5; 0x66; 0x48; 0x03; 0xf6; 0x0e;
    0x61; 0x35; 0x57; 0xb9; 0x86; 0xc1; 0x1d; 0x9e; 0xe1; 0xf8; 0x98; 0x11;
    0x69; 0xd9; 0x8e; 0x94; 0x9b; 0x1e; 0x87; 0xe9; 0xce; 0x55; 0x28; 0xdf;
    0x8c; 0xa1; 0x89; 0x0d; 0xbf; 0xe6; 0x42; 0x68; 0x41; 0x99; 0x2d; 0x0f;
    0xb0; 0x54; 0xbb; 0x16 ]%Z.

Definition sub_byte (b : Z) : Z := nth (Z.to_nat b) sbox 0%Z.

(** Multiplication by [x] in GF(2^8) modulo x^8 + x^4 + x^3 + x + 1. *)
Definition xtime (b : Z) : Z :=
  let s := Z.shiftl b 1 in
  if Z.testbit b 7 then Z.lxor (Z.land s 255) 0x1b else s.

(** A word is its four bytes. *)
Definition sub_word (w : list Z) : list Z := map sub_byte w.
Definition rot_word (w : list Z) : list Z := skipn 1 w ++ firstn 1 w.

(** Round constant [x^(i-1)] of the key expansion. *)
Definition rcon (i : nat) : list Z := [Nat.iter (i - 1) xtime 1%Z; 0; 0; 0]%Z.

(** Key expansion for Nk = 8: word [i] from words [i-1] and [i-8]. *)
Definition expand_word (w : list (list Z)) (i : nat) : list (list Z) :=
  let prev := nth (i - 1) w [] in
  let temp :=
    if (i mod 8 =? 0)%nat then
      xor_bytes (sub_word (rot_word prev)) (rcon (i / 8))
    else if (i mod 8 =? 4)%nat then sub_word prev
    else prev in
  w ++ [xor_bytes (nth (i - 8) w []) temp].

Definition key_expansion (key : list Z) : list (list Z) :=
  fold_left expand_word (seq 8 52) (chunks 4 8 key).

(** The state is sixteen bytes, column after column. *)
Definition sub_bytes (s : list Z) : list Z := map sub_byte s.

Definition shift_rows (s : list Z) : list Z :=
  map (fun i => nth (4 * ((i / 4 + i mod 4) mod 4) + i mod 4) s 0%Z)
      (seq 0 16).

Definition mix_column (col : list Z) : list Z :=
  match col with
  | [a0; a1; a2; a3] =>
      [ Z.lxor (Z.lxor (xtime a0) (Z.lxor (xtime a1) a1)) (Z.lxor a2 a3);
        Z.lxor (Z.lxor a0 (xtime a1)) (Z.lxor (Z.lxor (xtime a2) a2) a3);
        Z.lxor (Z.lxor a0 a1) (Z.lxor (xtime a2) (Z.lxor (xtime a3) a3));
        Z.lxor (Z.lxor (Z.lxor (xtime a0) a0) a1) (Z.lxor a2 (xtime a3)) ]
  | _ => col
  end.

Definition mix_columns (s : list Z) : list Z :=
  concat (map mix_column (chunks 4 4 s)).

Definition round_key (w : list (list Z)) (r : nat) : list Z :=
  concat (firstn 4 (skipn (4 * r) w)).

Definition add_round_key (w : list (list Z)) (r : nat) (s : list Z) :=
  xor_bytes s (round_key w r).

(** The cipher with Nr = 14 rounds. *)
Definition cipher (key block : list Z) : list Z :=
  let w := key_expansion key in
  let s := add_round_key w 0 block in
  let s := fold_left
             (fun s r => add_round_key w r
                           (mix_columns (shift_rows (sub_bytes s))))
             (seq 1 13) s in
  add_round_key w 14 (shift_rows (sub_bytes s)).

(** The cipher on blocks read as 128-bit numbers. *)
Definition encrypt_block (key : list Z) (x : Z) : Z :=
  be_number (cipher key (be_bytes 16 x)).

End Aes.

(** ** Galois/Counter Mode (NIST SP 800-38D) over a block cipher [E] *)

Module Gcm.
Section Mode.
Variable E : Z -> Z.

(** One step of the multiplication in GF(2^128): bit [i] of [x], counted
    from the left, adds [v]; then [v] is multiplied by the variable. *)
Definition gf_step (x : Z) (zv : Z * Z) (i : nat) : Z * Z :=
  let '(z, v) := zv in
  let z' := if Z.testbit x (127 - Z.of_nat i) then Z.lxor z v else z in
  let v' := if Z.testbit v 0
            then Z.lxor (Z.shiftr v 1) (Z.shiftl 0xe1 120)
            else Z.shiftr v 1 in
  (z', v').

Definition gf_mul (x y : Z) : Z :=
  fst (fold_left (gf_step x) (seq 0 128) (0%Z, y)).

(** Fill with zeros to whole 16-byte blocks. *)
Definition pad16 (bs : list Z) : list Z :=
  bs ++ repeat 0%Z ((16 - length bs mod 16) mod 16).

Definition blocks16 (bs : list Z) : list Z :=
  map be_number (chunks 16 (length bs / 16) bs).

Definition ghash (h : Z) (bs : list Z) : Z :=
  fold_left (fun y x => gf_mul (Z.lxor y x) h) (blocks16 bs) 0%Z.

(** Increment the last 32 bits of a counter block. *)
Definition inc32 (cb : Z) : Z :=
  Z.lor (Z.shiftl (Z.shiftr cb 32) 32) ((Z.land cb 0xffffffff + 1) mod 2 ^ 32).

(** [n] bytes of key stream from the counter block [icb] on. *)
Definition keystream (icb : Z) (n : nat) : list Z :=
  firstn n
    (concat (map (fun i => be_bytes 16 (E (Nat.iter i inc32 icb)))
                 (seq 0 ((n + 15) / 16)))).

Definition gctr (icb : Z) (xs : list Z) : list Z :=
  xor_bytes xs (keystream icb (length xs)).

Definition hash_subkey : Z := E 0.

Definition j0 (iv : list Z) : Z :=
  if (length iv =? 12)%nat then Z.lor (Z.shiftl (be_number iv) 32) 1
  else ghash hash_subkey
         (pad16 iv ++ repeat 0%Z 8 ++ be_bytes 8 (8 * Z.of_nat (length iv))).

Definition tag (iv aad ct : list Z) : list Z :=
  let s := ghash hash_subkey
             (pad16 aad ++ pad16 ct
              ++ be_bytes 8 (8 * Z.of_nat (length aad))
              ++ be_bytes 8 (8 * Z.of_nat (length ct))) in
  gctr (j0 iv) (be_bytes 16 s).

(** Authenticated encryption: the ciphertext followed by the 128-bit tag. *)
Definition encrypt (iv aad pt : list Z) : list Z :=
  let ct := gctr (inc32 (j0 iv)) pt in
  ct ++ tag iv aad ct.

Definition bytes_eqb (xs ys : list Z) : bool :=
  (length xs =? length ys)%nat && forallb (fun p => (p.1 =? p.2)%Z) (zip xs ys).

(** Authenticated decryption: [None] when the input is shorter than a tag
    or the tag does not verify. *)
Definition decrypt (iv aad data : list Z) : option (list Z) :=
  if (length data <? 16)%nat then None
  else
    let ct := firstn (length data - 16) data in
    let t := skipn (length data - 16) data in
    if bytes_eqb t (tag iv aad ct) then Some (gctr (inc32 (j0 iv)) ct)
    else None.

End Mode.
End Gcm.

(** ** Exceptions and state *)

Inductive Exn :=
| DOMException (name : string)   (* thrown by the platform *)
| JsError (message : string)     (* [new Error(message)] *)
| RequestError.                  (* an IndexedDB request's [error] *)

Inductive Result (A : Type) :=
| Ok (a : A)
| Throw (e : Exn).
Arguments Ok {A} a.
Arguments Throw {A} e.

(** A computation over a state [S] that returns or throws. *)
Definition SE (S A : Type) : Type := S -> Result A * S.

Definition ret {S A} (a : A) : SE S A := fun s => (Ok a, s).
Definition throw {S A} (e : Exn) : SE S A := fun s => (Throw e, s).
Definition bind {S A B} (m : SE S A) (k : A -> SE S B) : SE S B :=
  fun s => match m s with
           | (Ok a, s') => k a s'
           | (Throw e, s') => (Throw e, s')
           end.
(** [try { body } catch (e) { handler }]: what the body did to the state
    before it threw stays done. *)
Definition try_catch {S A} (body : SE S A) (handler : Exn -> SE S A)
  : SE S A :=
  fun s => match body s with
           | (Ok a, s') => (Ok a, s')
           | (Throw e, s') => handler e s'
           end.
Definition get_state {S} : SE S S := fun s => (Ok s, s).
Definition modify {S} (f : S -> S) : SE S unit := fun s => (Ok tt, f s).
(** Run a computation on a component of the state. *)
Definition zoom {S T A} (get : S -> T) (set : T -> S -> S) (m : SE T A)
  : SE S A :=
  fun s => let '(r, t) := m (get s) in (r, set t s).

Notation "'let*' x := m 'in' k" := (bind m (fun x => k))
  (at level 10, x name, m at level 100, k at level 200).
Notation "'let*' ' pat := m 'in' k" :=
  (bind m (fun x => match x with pat => k end))
  (at level 10, pat pattern, m at level 100, k at level 200).
Notation "m ;;; k" := (bind m (fun _ => k))
  (at level 100, k at level 200, right associativity).

(** ** Text and base64 *)

Definition code (c : ascii) : Z := Z.of_nat (nat_of_ascii c).
Definition fromCharCode (b : Z) : ascii := ascii_of_nat (Z.to_nat (u8 b)).

(** The bytes of a string of ASCII characters. *)
Definition ascii_bytes (s : string) : list Z :=
  map code (list_ascii_of_string s).

(** [new TextEncoder().encode(s)]: UTF-8, one byte below 128 and two
    bytes from 128 to 255. *)
Definition utf8_char (c : ascii) : list Z :=
  if (code c <? 128)%Z then [code c]
  else [Z.lor 0xC0 (Z.shiftr (code c) 6); Z.lor 0x80 (Z.land (code c) 0x3F)].

Definition TextEncoder_encode (s : string) : list Z :=
  concat (map utf8_char (list_ascii_of_string s)).

(** The code units of a string. *)
Definition code_units (s : string) : list Z :=
  map code (list_ascii_of_string s).

(** [new TextDecoder().decode(bytes)]: the UTF-8 decoder of the Encoding
    standard.  Its state is the code point read so far, the number of
    bytes that are still needed and the bounds of the next byte. *)
Record Utf8 := mkUtf8 {
  code_point : Z; needed : nat; lower_bound : Z; upper_bound : Z }.

Definition utf8_start : Utf8 := mkUtf8 0 0 0x80 0xBF.

(** The first byte of a sequence. *)
Definition utf8_lead (b : Z) : list Z * Utf8 :=
  if (b <=? 0x7F)%Z then ([b], utf8_start)
  else if ((0xC2 <=? b) && (b <=? 0xDF))%Z
  then ([], mkUtf8 (Z.land b 0x1F) 1 0x80 0xBF)
  else if ((0xE0 <=? b) && (b <=? 0xEF))%Z
  then ([], mkUtf8 (Z.land b 0xF) 2
                   (if (b =? 0xE0)%Z then 0xA0 else 0x80)
                   (if (b =? 0xED)%Z then 0x9F else 0xBF))
  else if ((0xF0 <=? b) && (b <=? 0xF4))%Z
  then ([], mkUtf8 (Z.land b 0x7) 3
                   (if (b =? 0xF0)%Z then 0x90 else 0x80)
                   (if (b =? 0xF4)%Z then 0x8F else 0xBF))
  else ([0xFFFD%Z], utf8_start).

(** A byte out of its bounds ends the sequence with U+FFFD and is read
    again as a first byte. *)
Definition utf8_step (st : Utf8) (b : Z) : list Z * Utf8 :=
  match needed st with
  | O => utf8_lead b
  | S n =>
      if ((lower_bound st <=? b) && (b <=? upper_bound st))%Z then
        let cp := Z.lor (Z.shiftl (code_point st) 6) (Z.land b 0x3F) in
        match n with
        | O => ([cp], utf8_start)
        | S _ => ([], mkUtf8 cp n 0x80 0xBF)
        end
      else
        let '(out, st') := utf8_lead b in (0xFFFD%Z :: out, st')
  end.

(** The code points of a byte string; a sequence that the end cuts
    short gives U+FFFD. *)
Fixpoint utf8_decode (st : Utf8) (bs : list Z) : list Z :=
  match bs with
  | [] => match needed st with O => [] | S _ => [0xFFFD%Z] end
  | b :: rest =>
      let '(out, st') := utf8_step st b in out ++ utf8_decode st' rest
  end.

(** The UTF-16 code units of a code point. *)
Definition utf16 (cp : Z) : list Z :=
  if (cp <? 0x10000)%Z then [cp]
  else [(0xD800 + Z.shiftr (cp - 0x10000) 10)%Z;
        (0xDC00 + Z.land (cp - 0x10000) 0x3FF)%Z].

(** The decoded string is the list of its code units, which can be
    above 255; a byte order mark at its start is dropped. *)
Definition TextDecoder_decode (bs : list Z) : list Z :=
  let cps := utf8_decode utf8_start bs in
  let cps := match cps with
             | cp :: rest => if (cp =? 0xFEFF)%Z then rest else cps
             | [] => []
             end in
  concat (map utf16 cps).

Module Base64.

Definition alphabet : string :=
  "ABCDEFGHIJKLMNOPQRSTUVWXYZabcdefghijklmnopqrstuvwxyz0123456789+/".

Definition char_of (n : Z) : ascii :=
  match String.get (Z.to_nat n) alphabet with
  | Some c => c
  | None => "="%char
  end.

Fixpoint index_from (i : Z) (c : ascii) (s : string) : option Z :=
  match s with
  | EmptyString => None
  | String d rest => if Ascii.eqb c d then Some i
                     else index_from (i + 1) c rest
  end.
Definition value_of (c : ascii) : option Z := index_from 0 c alphabet.

Fixpoint encode (bs : list Z) : list ascii :=
  match bs with
  | [] => []
  | [a] =>
      [char_of (Z.shiftr a 2); char_of (Z.shiftl (Z.land a 3) 4);
       "="%char; "="%char]
  | [a; b] =>
      [char_of (Z.shiftr a 2);
       char_of (Z.lor (Z.shiftl (Z.land a 3) 4) (Z.shiftr b 4));
       char_of (Z.shiftl (Z.land b 15) 2); "="%char]
  | a :: b :: c :: rest =>
      char_of (Z.shiftr a 2)
      :: char_of (Z.lor (Z.shiftl (Z.land a 3) 4) (Z.shiftr b 4))
      :: char_of (Z.lor (Z.shiftl (Z.land b 15) 2) (Z.shiftr c 6))
      :: char_of (Z.land c 63) :: encode rest
  end.

(** [btoa]: the input is a string of code units below 256 by type. *)
Definition btoa (binary : string) : string :=
  string_of_list_ascii (encode (map code (list_ascii_of_string binary))).

Definition is_whitespace (c : ascii) : bool :=
  existsb (Z.eqb (code c)) [9; 10; 12; 13; 32]%Z.

(** Drop one or two [=] at the end of a string whose length divides by 4. *)
Definition strip_padding (cs : list ascii) : list ascii :=
  if (length cs mod 4 =? 0)%nat then
    match rev cs with
    | "="%char :: "="%char :: r => rev r
    | "="%char :: r => rev r
    | _ => cs
    end
  else cs.

Fixpoint values (cs : list ascii) : option (list Z) :=
  match cs with
  | [] => Some []
  | c :: rest =>
      match value_of c, values rest with
      | Some v, Some vs => Some (v :: vs)
      | _, _ => None
      end
  end.

(** Four sextets give three bytes; a rest of two or three sextets gives
    one or two bytes and drops the spare bits. *)
Fixpoint decode (vs : list Z) : list Z :=
  match vs with
  | a :: b :: c :: d :: rest =>
      Z.lor (Z.shiftl a 2) (Z.shiftr b 4)
      :: Z.lor (Z.shiftl (Z.land b 15) 4) (Z.shiftr c 2)
      :: Z.lor (Z.shiftl (Z.land c 3) 6) d :: decode rest
  | [a; b; c] =>
      [Z.lor (Z.shiftl a 2) (Z.shiftr b 4);
       Z.lor (Z.shiftl (Z.land b 15) 4) (Z.shiftr c 2)]
  | [a; b] => [Z.lor (Z.shiftl a 2) (Z.shiftr b 4)]
  | _ => []
  end.

(** [atob]: the forgiving base64 decoding of the HTML standard. *)
Definition atob (data : string) : Result string :=
  let cs := filter (fun c => negb (is_whitespace c))
                   (list_ascii_of_string data) in
  let cs := strip_padding cs in
  if (length cs mod 4 =? 1)%nat
  then Throw (DOMException "InvalidCharacterError")
  else match values cs with
       | Some vs =>
           Ok (string_of_list_ascii (map fromCharCode (decode vs)))
       | None => Throw (DOMException "InvalidCharacterError")
       end.

(** The sextets that [encode] writes as characters, and the padding it
    adds to them. *)
Fixpoint sextets (bs : list Z) : list Z :=
  match bs with
  | [] => []
  | [a] => [Z.shiftr a 2; Z.shiftl (Z.land a 3) 4]
  | [a; b] =>
      [Z.shiftr a 2; Z.lor (Z.shiftl (Z.land a 3) 4) (Z.shiftr b 4);
       Z.shiftl (Z.land b 15) 2]
  | a :: b :: c :: rest =>
      Z.shiftr a 2
      :: Z.lor (Z.shiftl (Z.land a 3) 4) (Z.shiftr b 4)
      :: Z.lor (Z.shiftl (Z.land b 15) 2) (Z.shiftr c 6)
      :: Z.land c 63 :: sextets rest
  end.

Fixpoint padding (bs : list Z) : list ascii :=
  match bs with
  | [] => []
  | [_] => ["="%char; "="%char]
  | [_; _] => ["="%char]
  | _ :: _ :: _ :: rest => padding rest
  end.

Definition is_sextet (v : Z) : bool := (0 <=? v)%Z && (v <? 64)%Z.

End Base64.

(** ** Web Crypto ([crypto.subtle]) *)

Module Subtle.

Inductive KeyAlgorithm := PBKDF2 | AES_GCM (bits : nat).
Inductive KeyUsage := encrypt_usage | decrypt_usage | deriveBits_usage
                    | deriveKey_usage.

#[export] Instance KeyUsage_eq_dec : EqDecision KeyUsage.
Proof. solve_decision. Defined.

Record CryptoKey := mkCryptoKey {
  algorithm : KeyAlgorithm;
  extractable : bool;
  usages : list KeyUsage;
  handle : list Z           (* the key material, never visible to scripts *)
}.

Definition has_usage (u : KeyUsage) (k : CryptoKey) : bool :=
  bool_decide (u ∈ usages k).

(** [importKey('raw', data, 'PBKDF2', extractable, usages)]: a PBKDF2 key
    cannot be extractable and only derives. *)
Definition importKey_raw_PBKDF2 (data : list Z) (ext : bool)
    (us : list KeyUsage) : Result CryptoKey :=
  if negb (forallb (fun u => bool_decide (u ∈ [deriveBits_usage;
                                                deriveKey_usage])) us)
  then Throw (DOMException "SyntaxError")
  else if ext then Throw (DOMException "SyntaxError")
  else Ok (mkCryptoKey PBKDF2 false us data).

(** [deriveKey({name: 'PBKDF2', salt, iterations, hash: 'SHA-256'},
    baseKey, {name: 'AES-GCM', length}, extractable, usages)] *)
Definition deriveKey_PBKDF2_AES_GCM (salt : list Z) (iterations : N)
    (baseKey : CryptoKey) (bits : nat) (ext : bool) (us : list KeyUsage)
  : Result CryptoKey :=
  match algorithm baseKey with
  | PBKDF2 =>
      if negb (has_usage deriveKey_usage baseKey)
      then Throw (DOMException "InvalidAccessError")
      else if (iterations =? 0)%N then Throw (DOMException "OperationError")
      else if negb (bool_decide (bits ∈ [128; 192; 256]%nat))
      then Throw (DOMException "OperationError")
      else if negb (forallb (fun u => bool_decide (u ∈ [encrypt_usage;
                                                       decrypt_usage])) us)
      then Throw (DOMException "SyntaxError")
      else if (length us =? 0)%nat then Throw (DOMException "SyntaxError")
      else Ok (mkCryptoKey (AES_GCM bits) ext us
                 (Pbkdf2.pbkdf2 (handle baseKey) salt iterations (bits / 8)))
  | _ => Throw (DOMException "InvalidAccessError")
  end.

(** [exportKey('raw', key)] refuses a key that is not extractable. *)
Definition exportKey_raw (key : CryptoKey) : Result (list Z) :=
  if extractable key then Ok (handle key)
  else Throw (DOMException "InvalidAccessError").

(** [encrypt({name: 'AES-GCM', iv}, key, data)]: no additional data, a
    128-bit tag after the ciphertext. *)
Definition encrypt_AES_GCM (iv : list Z) (key : CryptoKey) (data : list Z)
  : Result (list Z) :=
  match algorithm key with
  | AES_GCM _ =>
      if has_usage encrypt_usage key
      then Ok (Gcm.encrypt (Aes.encrypt_block (handle key)) iv [] data)
      else Throw (DOMException "InvalidAccessError")
  | _ => Throw (DOMException "InvalidAccessError")
  end.

Definition decrypt_AES_GCM (iv : list Z) (key : CryptoKey) (data : list Z)
  : Result (list Z) :=
  match algorithm key with
  | AES_GCM _ =>
      if has_usage decrypt_usage key
      then match Gcm.decrypt (Aes.encrypt_block (handle key)) iv [] data with
           | Some pt => Ok pt
           | None => Throw (DOMException "OperationError")
           end
      else Throw (DOMException "InvalidAccessError")
  | _ => Throw (DOMException "InvalidAccessError")
  end.

End Subtle.

(** ** [EncryptionManager] (lib/encryption.ts) *)

Module EncryptionManager.
Import Subtle.

(** The methods draw from the random source and may throw. *)
Abbreviation Crypto := (SE Rng).

Definition random_bytes (n : nat) : Crypto (list Z) :=
  fun g => let '(bs, g') := getRandomValues n g in (Ok bs, g').

Definition lift {A} (r : Result A) : Crypto A := fun g => (r, g).

(** [salt || crypto.getRandomValues(new Uint8Array(16))]: a typed array
    is truthy, also an empty one. *)
Definition generateKeyFromPin (pin : string) (salt : option (list Z))
  : Crypto (CryptoKey * list Z) :=
  let pinData := TextEncoder_encode pin in
  let* keySalt := match salt with
             | Some s => ret s
             | None => random_bytes 16
             end in
  let* keyMaterial := lift (importKey_raw_PBKDF2 pinData false
                         [deriveBits_usage; deriveKey_usage]) in
  let* key := lift (deriveKey_PBKDF2_AES_GCM keySalt 100000 keyMaterial 256
                 false [encrypt_usage; decrypt_usage]) in
  ret (key, keySalt).

Record Encrypted := mkEncrypted {
  encryptedData : list Z; salt : list Z; iv : list Z }.

Definition encryptFile (fileData : list Z) (pin : string)
  : Crypto Encrypted :=
  let* '(key, salt) := generateKeyFromPin pin None in
  let* iv := random_bytes 12 in
  let* encryptedData := lift (encrypt_AES_GCM iv key fileData) in
  ret (mkEncrypted encryptedData salt iv).

Definition DECRYPTION_FAILED : string :=
  "Decryption failed - invalid PIN or corrupted data".

Definition decryptFile (encryptedData : list Z) (pin : string)
    (salt iv : list Z) : Crypto (list Z) :=
  let* '(key, _) := generateKeyFromPin pin (Some salt) in
  try_catch
    (let* decryptedData := lift (decrypt_AES_GCM iv key encryptedData) in
     ret decryptedData)
    (fun error => throw (JsError DECRYPTION_FAILED)).

Definition arrayBufferToBase64 (buffer : list Z) : string :=
  let binary :=
    fold_left (fun binary b => binary +:+ String (fromCharCode b) "")
              buffer "" in
  Base64.btoa binary.

Definition base64ToArrayBuffer (base64 : string) : Result (list Z) :=
  match Base64.atob base64 with
  | Ok binaryString => Ok (map code (list_ascii_of_string binaryString))
  | Throw e => Throw e
  end.

Definition hashPin (pin : string) : Crypto string :=
  let* salt := random_bytes 16 in
  let* '(key, _) := generateKeyFromPin pin (Some salt) in
  let* keyData := lift (exportKey_raw key) in
  let hashArray := keyData in
  let combined := salt ++ hashArray in
  ret (arrayBufferToBase64 combined).

(** The comparison loop: the exclusive or of each pair of bytes, or-ed
    into [result]. *)
Definition compare_loop (newKeyArray storedKeyArray : list Z) : Z :=
  fold_left (fun result i =>
               Z.lor result (Z.lxor (nth i newKeyArray 0%Z)
                                    (nth i storedKeyArray 0%Z)))
            (seq 0 (length newKeyArray)) 0%Z.

Definition verifyPin (pin storedHash : string) : Crypto bool :=
  try_catch
    (let* combined := lift (base64ToArrayBuffer storedHash) in
     let salt := firstn 16 combined in
     let storedKeyData := skipn 16 combined in
     let* '(key, _) := generateKeyFromPin pin (Some salt) in
     let* keyData := lift (exportKey_raw key) in
     let newKeyArray := keyData in
     let storedKeyArray := storedKeyData in
     if negb (length newKeyArray =? length storedKeyArray)%nat
     then ret false
     else ret (compare_loop newKeyArray storedKeyArray =? 0)%Z)
    (fun error => ret false).

(** The strings of [encryptText]. *)
Record EncryptedText := mkEncryptedText {
  encryptedText : string; text_salt : string; text_iv : string }.

Definition encryptText (text pin : string) : Crypto EncryptedText :=
  let textData := TextEncoder_encode text in
  let* enc := encryptFile textData pin in
  ret (mkEncryptedText (arrayBufferToBase64 (encryptedData enc))
                       (arrayBufferToBase64 (salt enc))
                       (arrayBufferToBase64 (iv enc))).

Definition decryptText (encryptedText pin salt iv : string)
  : Crypto (list Z) :=
  let* encryptedData := lift (base64ToArrayBuffer encryptedText) in
  let* saltArray := lift (base64ToArrayBuffer salt) in
  let* ivArray := lift (base64ToArrayBuffer iv) in
  let* decryptedData := decryptFile encryptedData pin saltArray ivArray in
  ret (TextDecoder_decode decryptedData).

Definition hex_byte (b : Z) : string :=
  let digit n := match String.get (Z.to_nat n) "0123456789abcdef" with
                 | Some c => c
                 | None => "?"%char
                 end in
  String (digit (b / 16)%Z) (String (digit (b mod 16)%Z) "").

Definition generateSecureId : Crypto string :=
  let* array := random_bytes 16 in
  ret (String.concat "" (map hex_byte array)).

(** The key the manager derives from a PIN and a salt. *)
Definition derived_key (pin : string) (salt : list Z) : CryptoKey :=
  mkCryptoKey (AES_GCM 256) false [encrypt_usage; decrypt_usage]
    (Pbkdf2.pbkdf2 (TextEncoder_encode pin) salt 100000 32).

(** The string of one NUL character. *)
Definition NUL : string := String "000"%char "".

(** A lowercase hexadecimal digit. *)
Definition is_hex (c : ascii) : bool :=
  let n := nat_of_ascii c in
  ((48 <=? n) && (n <=? 57) || (97 <=? n) && (n <=? 102))%nat.

End EncryptionManager.
(** ** PIN policy ([PinValidator]) *)

Module PinValidator.

(** The regular expressions the class tests a PIN against. *)
Inductive RegExp :=
| ReDigits                      (* /^[0-9]+$/ *)
| ReSameChar                    (* /^(.)\1+$/ *)
| ReStartsWith (lit : string).  (* /^lit/ for a literal [lit] *)

Definition is_digit (c : ascii) : bool :=
  (48 <=? nat_of_ascii c)%nat && (nat_of_ascii c <=? 57)%nat.

(** [.] matches every code unit but the line terminators. *)
Definition is_line_terminator (c : ascii) : bool :=
  (nat_of_ascii c =? 10)%nat || (nat_of_ascii c =? 13)%nat.

Fixpoint all_chars (p : ascii -> bool) (s : string) : bool :=
  match s with
  | EmptyString => true
  | String c rest => p c && all_chars p rest
  end.

(** [re.test(s)] *)
Definition test (re : RegExp) (s : string) : bool :=
  match re with
  | ReDigits =>
      match s with
      | EmptyString => false
      | String _ _ => all_chars is_digit s
      end
  | ReSameChar =>
      match s with
      | String c (String _ _ as rest) =>
          negb (is_line_terminator c) && all_chars (Ascii.eqb c) rest
      | _ => false
      end
  | ReStartsWith lit => String.prefix lit s
  end.

Definition weakPatterns : list RegExp :=
  [ ReSameChar;
    ReStartsWith "0123"; ReStartsWith "1234"; ReStartsWith "2345";
    ReStartsWith "3456"; ReStartsWith "4567"; ReStartsWith "5678";
    ReStartsWith "6789";
    ReStartsWith "9876"; ReStartsWith "8765"; ReStartsWith "7654";
    ReStartsWith "6543"; ReStartsWith "5432"; ReStartsWith "4321";
    ReStartsWith "3210" ].

Definition isWeakPin (pin : string) : bool :=
  existsb (fun pattern => test pattern pin) weakPatterns.

Definition ERR_SHORT := "PIN must be at least 4 characters long".
Definition ERR_LONG := "PIN must be no more than 20 characters long".
Definition ERR_DIGITS := "PIN must contain only numbers".
Definition ERR_WEAK :=
  "PIN is too weak - avoid simple patterns like 1234 or 0000".

Record Validation := mkValidation { isValid : bool; errors : list string }.

(** [errors.push(e)] when [cond] holds. *)
Definition push_if (cond : bool) (e : string) (errs : list string) :=
  if cond then errs ++ [e] else errs.

(** The empty string is the only falsy string. *)
Definition falsy (s : string) : bool :=
  match s with EmptyString => true | _ => false end.

Definition validatePin (pin : string) : Validation :=
  let errs := [] in
  let errs := push_if (falsy pin || (String.length pin <? 4)%nat)
                      ERR_SHORT errs in
  let errs := push_if (20 <? String.length pin)%nat ERR_LONG errs in
  let errs := push_if (negb (test ReDigits pin)) ERR_DIGITS errs in
  let errs := push_if (isWeakPin pin) ERR_WEAK errs in
  mkValidation (length errs =? 0)%nat errs.

Definition digits := "0123456789".

(** One pass of the loop body: a fresh random byte, reduced modulo the
    number of digits, indexes [digits]; out of range the index would
    read [undefined]. *)
Definition draw_digit (st : string * Rng) : string * Rng :=
  let '(pin, g) := st in
  let '(arr, g') := getRandomValues 1 g in
  let randomIndex := (nth 0 arr 0 mod Z.of_nat (String.length digits))%Z in
  match String.get (Z.to_nat randomIndex) digits with
  | Some d => (pin +:+ String d "", g')
  | None => (pin +:+ "undefined", g')
  end.

(** [for (let i = 0; i < 6; i++)] *)
Definition draw_pin (g : Rng) : string * Rng :=
  Nat.iter 6 draw_digit ("", g).

(** The method calls itself again on a weak draw; [fuel] bounds the
    depth of that recursion, as the call stack does. *)
Fixpoint generateSecurePin (fuel : nat) (g : Rng) : option (string * Rng) :=
  match fuel with
  | O => None
  | S fuel' =>
      let '(pin, g') := draw_pin g in
      if isWeakPin pin then generateSecurePin fuel' g' else Some (pin, g')
  end.

(** *** The policy in the specification's words *)

Definition asc_runs : list string :=
  ["0123"; "1234"; "2345"; "3456"; "4567"; "5678"; "6789"].
Definition desc_runs : list string :=
  ["9876"; "8765"; "7654"; "6543"; "5432"; "4321"; "3210"].

(** [s] is [c] written [n] times. *)
Fixpoint repeat_char (c : ascii) (n : nat) : string :=
  match n with O => "" | S n' => String c (repeat_char c n') end.

(** All characters identical (at least two of them, and not a line
    break), or one of the runs at the start. *)
Definition weak_spec (pin : string) : Prop :=
  (exists c n, (2 <= n)%nat /\ is_line_terminator c = false /\
               pin = repeat_char c n)
  \/ exists run, In run (asc_runs ++ desc_runs) /\
                 exists rest, pin = run +:+ rest.

Definition digits_only (pin : string) : Prop :=
  pin <> "" /\ forall c, In c (list_ascii_of_string pin) -> is_digit c = true.

(** The digit a random byte selects, and the PIN six bytes select. *)
Definition digit_char (b : Z) : ascii :=
  ascii_of_nat (48 + Z.to_nat (b mod 10)).

Definition pin_of_bytes (bs : list Z) : string :=
  string_of_list_ascii (map digit_char bs).

(** The generator after one more six-digit draw. *)
Definition skip_draw (g : Rng) : Rng := snd (draw_pin g).

(** How many of the 256 byte values select digit [d]. *)
Definition byte_preimages (d : Z) : nat :=
  length (filter (fun b => (b mod 10 =? d)%Z)
                 (map Z.of_nat (seq 0 256))).

(** Every digit is selected by equally many byte values. *)
Definition uniform_digits : Prop :=
  forall d1 d2 : Z, (0 <= d1 < 10)%Z -> (0 <= d2 < 10)%Z ->
    byte_preimages d1 = byte_preimages d2.

End PinValidator.

(** ** The records of types/index.ts *)

Record PinConfig := mkPinConfig {
  hash : string;
  attempts : Z;
  lockoutUntil : option Z;       (* [Date | null] *)
  isFirstTime : bool
}.

Record VaultSession := mkVaultSession {
  session_id : string;
  startTime : Z;
  lastActivity : Z;
  isActive : bool
}.

Record VaultFile := mkVaultFile {
  file_id : string;
  file_name : string;
  file_size : Z;
  file_type : string;
  uploadDate : Z;
  file_encryptedData : list Z;
  preview : option string;
  category : option string
}.

(** What the vault keeps in the metadata store: the base64 salt and IV
    of a file, or [null]. *)
Inductive MetaValue :=
| MetaNull
| MetaKeys (salt iv : string).

(** ** The world a handler runs in *)

(** The four object stores of [SecretVaultDB].  Stores with key path
    [id] file a record under its own [id]; the PIN configuration sits
    under the key ["main"]; a metadata record [{key, value}] is its
    value under its key. *)
Record Database := mkDatabase {
  files : gmap string VaultFile;
  pinConfig : gmap string PinConfig;
  sessions : gmap string VaultSession;
  metadata : gmap string MetaValue
}.

(** A call into the encryption manager that the vault made. *)
Inductive Call :=
| CallHashPin (pin : string)
| CallVerifyPin (pin storedHash : string).

Record Env := mkEnv {
  db : Database;
  clock : Z;                      (* [Date.now()] *)
  rng : Rng;
  faults : list bool;             (* whether the next requests fail *)
  console : list (string * Exn);  (* [console.error] *)
  calls : list Call
}.

Definition set_db (f : Database -> Database) (e : Env) : Env :=
  mkEnv (f (db e)) (clock e) (rng e) (faults e) (console e) (calls e).
Definition set_clock (t : Z) (e : Env) : Env :=
  mkEnv (db e) t (rng e) (faults e) (console e) (calls e).
Definition set_rng (g : Rng) (e : Env) : Env :=
  mkEnv (db e) (clock e) g (faults e) (console e) (calls e).
Definition set_faults (fs : list bool) (e : Env) : Env :=
  mkEnv (db e) (clock e) (rng e) fs (console e) (calls e).
Definition log_error (msg : string) (err : Exn) (e : Env) : Env :=
  mkEnv (db e) (clock e) (rng e) (faults e) (console e ++ [(msg, err)])
        (calls e).
Definition log_call (c : Call) (e : Env) : Env :=
  mkEnv (db e) (clock e) (rng e) (faults e) (console e) (calls e ++ [c]).

Definition set_files (f : gmap string VaultFile -> gmap string VaultFile)
    (d : Database) : Database :=
  mkDatabase (f (files d)) (pinConfig d) (sessions d) (metadata d).
Definition set_pinConfig (f : gmap string PinConfig -> gmap string PinConfig)
    (d : Database) : Database :=
  mkDatabase (files d) (f (pinConfig d)) (sessions d) (metadata d).
Definition set_sessions
    (f : gmap string VaultSession -> gmap string VaultSession)
    (d : Database) : Database :=
  mkDatabase (files d) (pinConfig d) (f (sessions d)) (metadata d).
Definition set_metadata (f : gmap string MetaValue -> gmap string MetaValue)
    (d : Database) : Database :=
  mkDatabase (files d) (pinConfig d) (sessions d) (f (metadata d)).

(** The next [n] requests succeed. *)
Definition reliable (n : nat) (e : Env) : Prop :=
  Forall (fun b => b = false) (take n (faults e)).


(** Every session is filed under its own id, as a store with key path
    [id] files it. *)
Definition keyed (m : gmap string VaultSession) : Prop :=
  forall k s, m !! k = Some s -> session_id s = k.

(** Run an encryption-manager method on the world's random source. *)
Definition crypto {A} (m : SE Rng A) : SE Env A := zoom rng set_rng m.

Definition Date_now : SE Env Z := fun e => (Ok (clock e), e).

(** ** [VaultStorage] (lib/storage.ts) *)

Module VaultStorage.

(** One request on an object store.  It succeeds unless the world makes
    it fail, in which case the promise rejects with the request's
    error and the store is as before. *)
Definition request : SE Env unit :=
  fun e => match faults e with
           | [] => (Ok tt, e)
           | false :: fs => (Ok tt, set_faults fs e)
           | true :: fs => (Throw RequestError, set_faults fs e)
           end.

(** What one successful request leaves of the world. *)
Definition after_request (e : Env) : Env := set_faults (tail (faults e)) e.

Definition storeFile (file : VaultFile) : SE Env unit :=
  request ;;;
  modify (set_db (set_files (insert (file_id file) file))).

Definition getFile (fileId : string) : SE Env (option VaultFile) :=
  request ;;;
  let* e := get_state in
  ret (files (db e) !! fileId).

(** [store.getAll()]: the records of a store in the ascending order of
    their keys, strings compared by their code units. *)
Fixpoint insert_by_key {A} (record : string * A) (l : list (string * A))
  : list (string * A) :=
  match l with
  | [] => [record]
  | first :: rest =>
      if String.leb record.1 first.1 then record :: l
      else first :: insert_by_key record rest
  end.

Definition getAll {A} (store : gmap string A) : list A :=
  map snd (fold_right insert_by_key [] (map_to_list store)).

Definition getAllFiles : SE Env (list VaultFile) :=
  request ;;;
  let* e := get_state in
  ret (getAll (files (db e))).

Definition deleteFile (fileId : string) : SE Env unit :=
  request ;;;
  modify (set_db (set_files (delete fileId))).

Definition storePinConfig (config : PinConfig) : SE Env unit :=
  request ;;;
  modify (set_db (set_pinConfig (insert "main" config))).

Definition getPinConfig : SE Env (option PinConfig) :=
  request ;;;
  let* e := get_state in
  ret (pinConfig (db e) !! "main").

(** The session is built first, from a fresh id and the current time. *)
Definition createSession : SE Env VaultSession :=
  let* id := crypto EncryptionManager.generateSecureId in
  let* now := Date_now in
  let session := mkVaultSession id now now true in
  request ;;;
  modify (set_db (set_sessions (insert (session_id session) session))) ;;;
  ret session.

(** [session.isActive = false; store.put(session)] on the record the
    first request found; no record is nothing to end. *)
Definition endSession (sessionId : string) : SE Env unit :=
  request ;;;
  let* e := get_state in
  match sessions (db e) !! sessionId with
  | Some session =>
      let session := mkVaultSession (session_id session) (startTime session)
                       (lastActivity session) false in
      request ;;;
      modify (set_db (set_sessions (insert (session_id session) session)))
  | None => ret tt
  end.

(** A session after [isActive = false]. *)
Definition deactivated (s : VaultSession) : VaultSession :=
  mkVaultSession (session_id s) (startTime s) (lastActivity s) false.

Definition setMetadata (key : string) (value : MetaValue) : SE Env unit :=
  request ;;;
  modify (set_db (set_metadata (insert key value))).

(** [result ? result.value : null] *)
Definition getMetadata (key : string) : SE Env MetaValue :=
  request ;;;
  let* e := get_state in
  ret (match metadata (db e) !! key with
       | Some value => value
       | None => MetaNull
       end).

Definition SESSION_NOT_FOUND : string := "Session not found".

(** [session.lastActivity = new Date(); store.put(session)] on the
    record the first request found; without a record the promise
    rejects. *)
Definition updateSessionActivity (sessionId : string) : SE Env unit :=
  request ;;;
  let* e := get_state in
  match sessions (db e) !! sessionId with
  | Some session =>
      let* now := Date_now in
      let session := mkVaultSession (session_id session) (startTime session)
                       now (isActive session) in
      request ;;;
      modify (set_db (set_sessions (insert (session_id session) session)))
  | None => throw (JsError SESSION_NOT_FOUND)
  end.

(** What the cursor does to the session it stands on. *)
Definition expire (cutoffTime : Z) (session : VaultSession) : VaultSession :=
  if (lastActivity session <? cutoffTime)%Z
  then mkVaultSession (session_id session) (startTime session)
                      (lastActivity session) false
  else session.

(** The cursor is one request that walks over every session;
    [cursor.update] writes the record back in its place.  The timeout is
    a whole number of minutes. *)
Definition cleanupExpiredSessions (timeoutMinutes : Z) : SE Env unit :=
  let* now := Date_now in
  let cutoffTime := (now - timeoutMinutes * 60 * 1000)%Z in
  request ;;;
  modify (set_db (set_sessions (fmap (expire cutoffTime)))).

(** Four [clear] requests in one transaction over the four stores: when
    one of them fails the transaction is aborted and nothing is
    cleared. *)
Definition clearAllData : SE Env unit :=
  fun e => match (request ;;; request ;;; request ;;; request) e with
           | (Ok _, e') => (Ok tt, set_db (fun _ => mkDatabase ∅ ∅ ∅ ∅) e')
           | (Throw err, e') => (Throw err, e')
           end.

End VaultStorage.

(** ** The components *)

(** One line of the upload progress list. *)
Inductive UploadStatus := uploading | encrypting | complete | upload_error.
Record FileUploadProgress := mkProgress {
  progress_fileId : string;
  progress : Z;
  status : UploadStatus;
  progress_error : option string
}.

(** A [File] the user picked. *)
Record File := mkFile {
  name : string;
  size : Z;
  type : string;
  arrayBuffer : list Z
}.

(** The state of [SecretVault] ([useState]), and when its countdown
    interval was last armed. *)
Record Vault := mkVault {
  st_pinConfig : option PinConfig;
  st_isUnlocked : bool;
  st_currentPin : string;
  st_isLoading : bool;
  st_error : string;
  st_attempts : Z;
  st_isLockedOut : bool;
  st_lockoutTime : Z;
  st_files : list VaultFile;
  st_currentSession : option VaultSession;
  st_interval : option Z
}.

(** The state of [FileManager] that its handlers write. *)
Record Manager := mkManager {
  fm_uploadProgress : list FileUploadProgress;
  fm_selectedFile : option VaultFile;
  fm_error : string
}.

Record App := mkApp { vault : Vault; manager : Manager; env : Env }.

Definition set_vault (f : Vault -> Vault) (a : App) : App :=
  mkApp (f (vault a)) (manager a) (env a).
Definition set_manager (f : Manager -> Manager) (a : App) : App :=
  mkApp (vault a) (f (manager a)) (env a).
Definition set_env (e : Env) (a : App) : App :=
  mkApp (vault a) (manager a) e.

(** A storage or encryption call made by a component. *)
Definition io {A} (m : SE Env A) : SE App A := zoom env set_env m.

Definition console_error (msg : string) (err : Exn) : SE App unit :=
  modify (fun a => set_env (log_error msg err (env a)) a).

(** The state setters of [SecretVault]. *)
Definition setPinConfig (c : option PinConfig) : SE App unit :=
  modify (set_vault (fun v =>
    mkVault c (st_isUnlocked v) (st_currentPin v) (st_isLoading v)
      (st_error v) (st_attempts v) (st_isLockedOut v) (st_lockoutTime v)
      (st_files v) (st_currentSession v) (st_interval v))).
Definition setIsUnlocked (b : bool) : SE App unit :=
  modify (set_vault (fun v =>
    mkVault (st_pinConfig v) b (st_currentPin v) (st_isLoading v)
      (st_error v) (st_attempts v) (st_isLockedOut v) (st_lockoutTime v)
      (st_files v) (st_currentSession v) (st_interval v))).
Definition setCurrentPin (p : string) : SE App unit :=
  modify (set_vault (fun v =>
    mkVault (st_pinConfig v) (st_isUnlocked v) p (st_isLoading v)
      (st_error v) (st_attempts v) (st_isLockedOut v) (st_lockoutTime v)
      (st_files v) (st_currentSession v) (st_interval v))).
Definition setIsLoading (b : bool) : SE App unit :=
  modify (set_vault (fun v =>
    mkVault (st_pinConfig v) (st_isUnlocked v) (st_currentPin v) b
      (st_error v) (st_attempts v) (st_isLockedOut v) (st_lockoutTime v)
      (st_files v) (st_currentSession v) (st_interval v))).
Definition setError (msg : string) : SE App unit :=
  modify (set_vault (fun v =>
    mkVault (st_pinConfig v) (st_isUnlocked v) (st_currentPin v)
      (st_isLoading v) msg (st_attempts v) (st_isLockedOut v)
      (st_lockoutTime v) (st_files v) (st_currentSession v)
      (st_interval v))).
Definition setAttempts (n : Z) : SE App unit :=
  modify (set_vault (fun v =>
    mkVault (st_pinConfig v) (st_isUnlocked v) (st_currentPin v)
      (st_isLoading v) (st_error v) n (st_isLockedOut v)
      (st_lockoutTime v) (st_files v) (st_currentSession v)
      (st_interval v))).
Definition setIsLockedOut (b : bool) : SE App unit :=
  modify (set_vault (fun v =>
    mkVault (st_pinConfig v) (st_isUnlocked v) (st_currentPin v)
      (st_isLoading v) (st_error v) (st_attempts v) b
      (st_lockoutTime v) (st_files v) (st_currentSession v)
      (st_interval v))).
Definition setLockoutTime (t : Z) : SE App unit :=
  modify (set_vault (fun v =>
    mkVault (st_pinConfig v) (st_isUnlocked v) (st_currentPin v)
      (st_isLoading v) (st_error v) (st_attempts v) (st_isLockedOut v)
      t (st_files v) (st_currentSession v) (st_interval v))).
Definition setFiles (fs : list VaultFile) : SE App unit :=
  modify (set_vault (fun v =>
    mkVault (st_pinConfig v) (st_isUnlocked v) (st_currentPin v)
      (st_isLoading v) (st_error v) (st_attempts v) (st_isLockedOut v)
      (st_lockoutTime v) fs (st_currentSession v) (st_interval v))).
Definition setCurrentSession (s : option VaultSession) : SE App unit :=
  modify (set_vault (fun v =>
    mkVault (st_pinConfig v) (st_isUnlocked v) (st_currentPin v)
      (st_isLoading v) (st_error v) (st_attempts v) (st_isLockedOut v)
      (st_lockoutTime v) (st_files v) s (st_interval v))).
Definition set_interval (t : option Z) (v : Vault) : Vault :=
  mkVault (st_pinConfig v) (st_isUnlocked v) (st_currentPin v)
    (st_isLoading v) (st_error v) (st_attempts v) (st_isLockedOut v)
    (st_lockoutTime v) (st_files v) (st_currentSession v) t.

(** The state setters of [FileManager]. *)
Definition setUploadProgress
    (f : list FileUploadProgress -> list FileUploadProgress) : SE App unit :=
  modify (set_manager (fun m =>
    mkManager (f (fm_uploadProgress m)) (fm_selectedFile m) (fm_error m))).
Definition setSelectedFile (f : option VaultFile) : SE App unit :=
  modify (set_manager (fun m =>
    mkManager (fm_uploadProgress m) f (fm_error m))).
Definition setManagerError (msg : string) : SE App unit :=
  modify (set_manager (fun m =>
    mkManager (fm_uploadProgress m) (fm_selectedFile m) msg)).

(** A number in a template literal. *)
Definition show (n : Z) : string := NilZero.string_of_int (Z.to_int n).

(** [x || 0] on a number. *)
Definition or_zero (x : Z) : Z := if (x =? 0)%Z then 0%Z else x.

(** [Math.ceil(x / 1000)] on an integer [x]. *)
Definition ceil_div_1000 (x : Z) : Z := (- ((- x) / 1000))%Z.

(** [String.prototype.toLowerCase] on code units below 256: the capital
    letters A-Z, and the Latin-1 capitals from 192 to 222 but for the
    multiplication sign 215, move up by 32. *)
Definition lower_char (c : ascii) : ascii :=
  let n := nat_of_ascii c in
  if ((65 <=? n) && (n <=? 90) || (192 <=? n) && (n <=? 214)
      || (216 <=? n) && (n <=? 222))%nat
  then ascii_of_nat (n + 32) else c.

Fixpoint toLowerCase (s : string) : string :=
  match s with
  | EmptyString => EmptyString
  | String c rest => String (lower_char c) (toLowerCase rest)
  end.

(** *** [FileManager] (components/FileManager.tsx) *)

Module FileManager.

Definition startsWith (prefix s : string) : bool := String.prefix prefix s.

Fixpoint includes (needle s : string) : bool :=
  String.prefix needle s ||
  match s with
  | EmptyString => false
  | String _ rest => includes needle rest
  end.

Definition getCategoryFromType (type : string) : string :=
  if startsWith "image/" type then "images"
  else if startsWith "video/" type then "videos"
  else if startsWith "audio/" type then "audio"
  else if includes "pdf" type || includes "doc" type
          || startsWith "text/" type then "documents"
  else "other".

(** [FileReader.readAsDataURL] *)
Definition createImagePreview (file : File) : string :=
  "data:" +:+ type file +:+ ";base64,"
  +:+ EncryptionManager.arrayBufferToBase64 (arrayBuffer file).

Definition update_progress (fileId : string)
    (f : FileUploadProgress -> FileUploadProgress)
    (prev : list FileUploadProgress) : list FileUploadProgress :=
  map (fun p => if String.eqb (progress_fileId p) fileId then f p else p)
      prev.

(** The body of the loop of [handleFileUpload], for one file; the
    parent's [onFilesUpdate] is [setFiles]. *)
Definition upload_one (file : File) : SE App unit :=
  let* a := get_state in
  let currentPin := st_currentPin (vault a) in
  let* fileId := io (crypto EncryptionManager.generateSecureId) in
  setUploadProgress (fun prev =>
    prev ++ [mkProgress fileId 0 uploading None]) ;;;
  try_catch
    (let arrayBuffer := arrayBuffer file in
     setUploadProgress (update_progress fileId (fun p =>
       mkProgress (progress_fileId p) 30 encrypting (progress_error p))) ;;;
     let* enc := io (crypto (EncryptionManager.encryptFile arrayBuffer
                               currentPin)) in
     setUploadProgress (update_progress fileId (fun p =>
       mkProgress (progress_fileId p) 70 (status p) (progress_error p))) ;;;
     let* now := io Date_now in
     let vaultFile :=
       mkVaultFile fileId (name file) (size file) (type file) now
         (EncryptionManager.encryptedData enc)
         (if startsWith "image/" (type file)
          then Some (createImagePreview file) else None)
         (Some (getCategoryFromType (type file))) in
     let metadata :=
       MetaKeys
         (EncryptionManager.arrayBufferToBase64 (EncryptionManager.salt enc))
         (EncryptionManager.arrayBufferToBase64 (EncryptionManager.iv enc)) in
     io (VaultStorage.setMetadata ("file_" +:+ fileId) metadata) ;;;
     io (VaultStorage.storeFile vaultFile) ;;;
     setUploadProgress (update_progress fileId (fun p =>
       mkProgress (progress_fileId p) 100 complete (progress_error p))) ;;;
     let* updatedFiles := io VaultStorage.getAllFiles in
     setFiles updatedFiles)
    (fun error =>
       console_error "File upload failed:" error ;;;
       setUploadProgress (update_progress fileId (fun p =>
         mkProgress (progress_fileId p) (progress p) upload_error
                    (Some "Upload failed")))).

Definition handleFileUpload (fileList : list File) : SE App unit :=
  match fileList with
  | [] => ret tt
  | _ =>
      setManagerError "" ;;;
      fold_right (fun file rest => upload_one file ;;; rest) (ret tt)
                 fileList
  end.

(** The key of a file's metadata record. *)
Definition meta_key (file : VaultFile) : string := "file_" +:+ file_id file.

(** The database after a file's record was deleted and its metadata
    overwritten with [null]. *)
Definition db_without (file : VaultFile) (d : Database) : Database :=
  mkDatabase (delete (file_id file) (files d)) (pinConfig d) (sessions d)
             (<[meta_key file := MetaNull]> (metadata d)).

Definition METADATA_NOT_FOUND : string := "File metadata not found".
Definition DOWNLOAD_FAILED : string :=
  "Failed to download file. Please check your PIN.".

(** The decrypted bytes are handed to the browser as a download; they
    are the result here. *)
Definition handleDownload (file : VaultFile) : SE App (option (list Z)) :=
  let* a := get_state in
  let currentPin := st_currentPin (vault a) in
  try_catch
    (setManagerError "" ;;;
     let* metadata :=
       io (VaultStorage.getMetadata ("file_" +:+ file_id file)) in
     match metadata with
     | MetaNull => throw (JsError METADATA_NOT_FOUND)
     | MetaKeys salt iv =>
         let* saltBytes :=
           io (crypto (EncryptionManager.lift
                         (EncryptionManager.base64ToArrayBuffer salt))) in
         let* ivBytes :=
           io (crypto (EncryptionManager.lift
                         (EncryptionManager.base64ToArrayBuffer iv))) in
         let* decryptedData :=
           io (crypto (EncryptionManager.decryptFile
                         (file_encryptedData file) currentPin
                         saltBytes ivBytes)) in
         ret (Some decryptedData)
     end)
    (fun error =>
       console_error "Download failed:" error ;;;
       setManagerError DOWNLOAD_FAILED ;;;
       ret None).

(** [confirmed] is the user's answer to the [confirm] dialog. *)
Definition handleDelete (file : VaultFile) (confirmed : bool)
  : SE App unit :=
  if confirmed then
    try_catch
      (io (VaultStorage.deleteFile (file_id file)) ;;;
       io (VaultStorage.setMetadata ("file_" +:+ file_id file) MetaNull) ;;;
       let* updatedFiles := io VaultStorage.getAllFiles in
       setFiles updatedFiles ;;;
       let* a := get_state in
       match fm_selectedFile (manager a) with
       | Some selected =>
           if String.eqb (file_id selected) (file_id file)
           then setSelectedFile None else ret tt
       | None => ret tt
       end)
      (fun error =>
         console_error "Delete failed:" error ;;;
         setManagerError "Failed to delete file")
  else ret tt.

(** The two tests of [filteredFiles]. *)
Definition matchesSearch (searchQuery : string) (file : VaultFile) : bool :=
  PinValidator.falsy searchQuery
  || includes (toLowerCase searchQuery) (toLowerCase (file_name file))
  || includes (toLowerCase searchQuery) (toLowerCase (file_type file)).

Definition matchesCategory (selectedCategory : string) (file : VaultFile)
  : bool :=
  let type := file_type file in
  String.eqb selectedCategory "all"
  || (String.eqb selectedCategory "images" && startsWith "image/" type)
  || (String.eqb selectedCategory "documents"
      && (includes "pdf" type || includes "doc" type
          || includes "text/" type))
  || (String.eqb selectedCategory "videos" && startsWith "video/" type)
  || (String.eqb selectedCategory "audio" && startsWith "audio/" type)
  || (String.eqb selectedCategory "other"
      && negb (existsb (fun t => startsWith t type)
                       ["image/"; "video/"; "audio/"])
      && negb (includes "pdf" type) && negb (includes "doc" type)).

Definition filteredFiles (files : list VaultFile)
    (searchQuery selectedCategory : string) : list VaultFile :=
  List.filter (fun file => matchesSearch searchQuery file
                           && matchesCategory selectedCategory file) files.

(** The values of the category selector. *)
Definition categories : list string :=
  ["all"; "images"; "documents"; "videos"; "audio"; "other"].

(** A file with its name and type in lower case. *)
Definition lowercased (file : VaultFile) : VaultFile :=
  mkVaultFile (file_id file) (toLowerCase (file_name file)) (file_size file)
    (toLowerCase (file_type file)) (uploadDate file)
    (file_encryptedData file) (preview file) (category file).

End FileManager.

(** *** [SecretVault] (components/SecretVault.tsx) *)

Module SecretVault.
Section Vault.

(** The two methods of the imported [encryptionManager] that the
    component calls. *)
Variable hashPin : string -> SE Rng string.
Variable verifyPin : string -> string -> SE Rng bool.

Definition call_hashPin (pin : string) : SE App string :=
  modify (fun a => set_env (log_call (CallHashPin pin) (env a)) a) ;;;
  io (crypto (hashPin pin)).

Definition call_verifyPin (pin storedHash : string) : SE App bool :=
  modify (fun a =>
            set_env (log_call (CallVerifyPin pin storedHash) (env a)) a) ;;;
  io (crypto (verifyPin pin storedHash)).

(** The state of a component that has just been mounted. *)
Definition initial : Vault :=
  mkVault None false "" true "" 0 false 0 [] None None.

Definition initializeVault : SE App unit :=
  try_catch
    (let* config := io VaultStorage.getPinConfig in
     setPinConfig config ;;;
     match config with
     | Some config =>
         let* now := io Date_now in
         match lockoutUntil config with
         | Some until =>
             if (now <? until)%Z then
               let remainingTime := ceil_div_1000 (until - now) in
               setIsLockedOut true ;;;
               setLockoutTime remainingTime
             else ret tt
         | None => ret tt
         end ;;;
         setAttempts (or_zero (attempts config))
     | None => ret tt
     end)
    (fun error =>
       console_error "Failed to initialize vault:" error ;;;
       setError "Failed to initialize vault") ;;;
  setIsLoading false.

Definition handlePinSetup (newPin : string) : SE App unit :=
  try_catch
    (let* hashedPin := call_hashPin newPin in
     let newConfig := mkPinConfig hashedPin 0 None false in
     io (VaultStorage.storePinConfig newConfig) ;;;
     setPinConfig (Some newConfig) ;;;
     setCurrentPin newPin ;;;
     let* session := io VaultStorage.createSession in
     setCurrentSession (Some session) ;;;
     setIsUnlocked true ;;;
     let* vaultFiles := io VaultStorage.getAllFiles in
     setFiles vaultFiles)
    (fun error =>
       console_error "Failed to setup PIN:" error ;;;
       setError "Failed to setup PIN").

Definition handlePinSubmit : SE App unit :=
  let* a := get_state in
  match st_pinConfig (vault a) with
  | None => ret tt
  | Some pinConfig =>
      let currentPin := st_currentPin (vault a) in
      if PinValidator.falsy currentPin then ret tt
      else
        setError "" ;;;
        try_catch
          (let* isValid := call_verifyPin currentPin (hash pinConfig) in
           if isValid then
             let updatedConfig :=
               mkPinConfig (hash pinConfig) 0 None (isFirstTime pinConfig) in
             io (VaultStorage.storePinConfig updatedConfig) ;;;
             setPinConfig (Some updatedConfig) ;;;
             let* session := io VaultStorage.createSession in
             setCurrentSession (Some session) ;;;
             setIsUnlocked true ;;;
             let* vaultFiles := io VaultStorage.getAllFiles in
             setFiles vaultFiles
           else
             let newAttempts := (or_zero (attempts pinConfig) + 1)%Z in
             let* lockoutUntil :=
               if (newAttempts >=? 5)%Z then
                 let* now := io Date_now in
                 setIsLockedOut true ;;;
                 setLockoutTime (15 * 60) ;;;
                 ret (Some (now + 15 * 60 * 1000)%Z)
               else ret None in
             let updatedConfig :=
               mkPinConfig (hash pinConfig) newAttempts lockoutUntil
                           (isFirstTime pinConfig) in
             io (VaultStorage.storePinConfig updatedConfig) ;;;
             setPinConfig (Some updatedConfig) ;;;
             setAttempts newAttempts ;;;
             setError ("Invalid PIN. " +:+ show (5 - newAttempts)
                       +:+ " attempts remaining.") ;;;
             setCurrentPin "")
          (fun error =>
             console_error "PIN verification failed:" error ;;;
             setError "PIN verification failed")
  end.

(** [onClose] takes the component off the screen; what is left of it is
    the state of a component still to be mounted. *)
Definition handleClose : SE App unit :=
  let* a := get_state in
  match st_currentSession (vault a) with
  | Some session => io (VaultStorage.endSession (session_id session))
  | None => ret tt
  end ;;;
  modify (set_vault (fun _ => initial)).

(** The callback of the countdown interval. *)
Definition countdown : SE App unit :=
  let* a := get_state in
  let prev := st_lockoutTime (vault a) in
  if (prev <=? 1)%Z then setIsLockedOut false ;;; setLockoutTime 0
  else setLockoutTime (prev - 1).

(** The countdown effect runs again when [isLockedOut] or [lockoutTime]
    changed: it clears the interval and, while locked out with time
    left, arms a new one. *)
Definition lockout_effect (before : Vault) (a : App) : App :=
  let v := vault a in
  if Bool.eqb (st_isLockedOut before) (st_isLockedOut v)
     && (st_lockoutTime before =? st_lockoutTime v)%Z
  then a
  else set_vault
         (set_interval
            (if st_isLockedOut v && (0 <? st_lockoutTime v)%Z
             then Some (clock (env a)) else None)) a.

(** The configuration a PIN that does not verify leaves. *)
Definition after_failure (cfg : PinConfig) (now : Z) : PinConfig :=
  let newAttempts := (attempts cfg + 1)%Z in
  mkPinConfig (hash cfg) newAttempts
    (if (newAttempts >=? 5)%Z then Some (now + 15 * 60 * 1000)%Z else None)
    (isFirstTime cfg).

Definition failure_message (newAttempts : Z) : string :=
  "Invalid PIN. " +:+ show (5 - newAttempts) +:+ " attempts remaining.".

(** *** What is on the screen *)

Inductive Screen := Spinner | Files | SetupForm | LockoutAlert | PinForm.

Definition screen (v : Vault) : Screen :=
  if st_isLoading v then Spinner
  else if st_isUnlocked v then Files
  else match st_pinConfig v with
       | None => SetupForm
       | Some _ => if st_isLockedOut v then LockoutAlert else PinForm
       end.

(** What can happen to the vault. *)
Inductive Event :=
| Mount                                  (* the vault is shown *)
| TypePin (pin : string)                 (* input in the PIN field *)
| Submit                                 (* Enter, or the unlock button *)
| Setup (pin : string)                   (* the setup form is completed *)
| Close                                  (* either close button *)
| Tick                                   (* the interval fires *)
| Wait (ms : N)                          (* time passes *)
| Upload (fileList : list File)
| Download (file : VaultFile)
| Delete (file : VaultFile) (confirmed : bool).

Definition screen_eqb (s1 s2 : Screen) : bool :=
  match s1, s2 with
  | Spinner, Spinner | Files, Files | SetupForm, SetupForm
  | LockoutAlert, LockoutAlert | PinForm, PinForm => true
  | _, _ => false
  end.

(** The controls an event needs are on the screen; the interval fires
    no earlier than a second after it was armed; the setup form hands
    over only a PIN that passed validation. *)
Definition enabled (ev : Event) (a : App) : bool :=
  let s := screen (vault a) in
  match ev with
  | Mount | Wait _ => true
  | TypePin _ | Submit => screen_eqb s PinForm
  | Setup pin =>
      screen_eqb s SetupForm
      && PinValidator.isValid (PinValidator.validatePin pin)
  | Close =>
      screen_eqb s Files || screen_eqb s LockoutAlert || screen_eqb s PinForm
  | Tick =>
      match st_interval (vault a) with
      | Some armed => (armed + 1000 <=? clock (env a))%Z
      | None => false
      end
  | Upload _ | Delete _ _ => screen_eqb s Files
  | Download file =>
      screen_eqb s Files
      && existsb (fun f => String.eqb (file_id f) (file_id file))
                 (st_files (vault a))
  end.

Definition handler (ev : Event) : SE App unit :=
  match ev with
  | Mount => modify (set_vault (fun _ => initial)) ;;; initializeVault
  | TypePin pin => setCurrentPin pin
  | Submit => handlePinSubmit
  | Setup pin => handlePinSetup pin
  | Close => handleClose
  | Tick => countdown
  | Wait ms =>
      modify (fun a =>
                set_env (set_clock (clock (env a) + Z.of_N ms) (env a)) a)
  | Upload fileList => FileManager.handleFileUpload fileList
  | Download file => FileManager.handleDownload file ;;; ret tt
  | Delete file confirmed => FileManager.handleDelete file confirmed
  end.

(** An event that is not enabled does nothing; an exception that
    leaves a handler is an unhandled rejection and what the handler did
    before stays done.  The effect compares with the state before the
    event, and with the initial state for a component just mounted. *)
Definition step (a : App) (ev : Event) : App :=
  if enabled ev a
  then lockout_effect (match ev with Mount => initial | _ => vault a end)
                      (snd (handler ev a))
  else a.

Definition run (evs : list Event) (a : App) : App := fold_left step evs a.

End Vault.

(** *** The lockout as the component keeps it *)

(** The PIN configuration in the store. *)
Definition stored_config (a : App) : option PinConfig :=
  pinConfig (db (env a)) !! "main".

(** The component's copy of the configuration is the stored one. *)
Definition in_sync (a : App) : Prop :=
  forall c, st_pinConfig (vault a) = Some c -> stored_config a = Some c.

(** An interval is armed exactly while the component is locked out with
    time left, and it was armed in the past. *)
Definition timer_ok (a : App) : Prop :=
  match st_interval (vault a) with
  | Some armed =>
      st_isLockedOut (vault a) = true /\ (0 < st_lockoutTime (vault a))%Z /\
      (armed <= clock (env a))%Z
  | None =>
      st_isLockedOut (vault a) = false \/ (st_lockoutTime (vault a) <= 0)%Z
  end.

(** A stored lockout has run out when the PIN form is shown, and runs
    out before the countdown does while the alert is shown. *)
Definition lockout_covered (a : App) : Prop :=
  forall c until,
    stored_config a = Some c -> lockoutUntil c = Some until ->
    match screen (vault a) with
    | PinForm => (until <= clock (env a))%Z
    | LockoutAlert =>
        forall armed, st_interval (vault a) = Some armed ->
                      (until <= armed + 1000 * st_lockoutTime (vault a))%Z
    | _ => True
    end.

Definition invariant (a : App) : Prop :=
  in_sync a /\ timer_ok a /\ lockout_covered a.

(** *** The attempts counter over one event *)




(** While a stored lockout is ahead, no PIN is held in the PIN field. *)
Definition pin_cleared (a : App) : Prop :=
  forall c until,
    stored_config a = Some c -> lockoutUntil c = Some until ->
    (clock (env a) < until)%Z ->
    st_currentPin (vault a) = "".

(** What a step does to the counter whatever the requests do.  The
    setup form is shown whenever the component holds no configuration,
    also when its read of the store failed, and a setup then writes over
    what is stored: [resets] counts every setup. *)
Definition resets (verifyPin : string -> string -> SE Rng bool)
    (a : App) (ev : Event) : Prop :=
  (exists pin, ev = Setup pin) \/
  (ev = Submit /\
   exists cfg g',
     st_pinConfig (vault a) = Some cfg /\
     verifyPin (st_currentPin (vault a)) (hash cfg) (rng (env a))
       = (Ok true, g')).

Definition attempts_step (verifyPin : string -> string -> SE Rng bool)
    (a : App) (ev : Event) (a' : App) : Prop :=
  match stored_config a, stored_config a' with
  | Some c, Some c' =>
      (attempts c <= attempts c')%Z \/
      (attempts c' = 0%Z /\ resets verifyPin a ev)
  | Some _, None => False
  | None, Some c' => attempts c' = 0%Z /\ exists pin, ev = Setup pin
  | None, None => True
  end.

(** A stored lockout comes with at least five attempts on record. *)
Definition lockout_counted (a : App) : Prop :=
  forall c until,
    stored_config a = Some c -> lockoutUntil c = Some until ->
    (5 <= attempts c)%Z.

(** What every event keeps. *)
Definition kept (hashPin : string -> SE Rng string)
    (verifyPin : string -> string -> SE Rng bool)
    (a : App) (ev : Event) : Prop :=
  invariant (step hashPin verifyPin a ev) /\
  attempts_step verifyPin a ev (step hashPin verifyPin a ev) /\
  (lockout_counted a -> lockout_counted (step hashPin verifyPin a ev)).

(** The values of the state that the lockout logic reads and writes. *)
Definition view (a : App) :=
  (stored_config a, clock (env a), st_pinConfig (vault a),
   (st_isLoading (vault a), st_isUnlocked (vault a)),
   (st_isLockedOut (vault a), st_lockoutTime (vault a),
    st_interval (vault a))).

(** *** The countdown on the screen *)

(** [s.padStart(n, c)] for a one-character filler. *)
Definition padStart (n : nat) (c : ascii) (s : string) : string :=
  string_of_list_ascii (repeat c (n - String.length s)) +:+ s.

(** [formatTime] on a whole number of seconds: [Math.floor] rounds down
    and [%] takes the sign of the dividend. *)
Definition formatTime (seconds : Z) : string :=
  let minutes := (seconds / 60)%Z in
  let remainingSeconds := Z.rem seconds 60 in
  show minutes +:+ ":" +:+ padStart 2 "0" (show remainingSeconds).

(** One second passes and the interval fires. *)
Definition second : list Event := [Wait 1000; Tick].

End SecretVault.

(** *** [PinSetup] (components/PinSetup.tsx) *)

Module PinSetup.

Inductive Step := initial_step | confirm_step.

(** The state of the form ([useState]). *)
Record Form := mkForm {
  step : Step;
  initialPin : string;
  confirmPin : string;
  errors : list string;
  isLoading : bool
}.

(** The form on the page of its parent, and the PINs it has handed to
    [onPinSetup] so far. *)
Record Page := mkPage { form : Form; parent : App; handed : list string }.

Definition set_form (f : Form -> Form) (p : Page) : Page :=
  mkPage (f (form p)) (parent p) (handed p).
Definition set_parent (a : App) (p : Page) : Page :=
  mkPage (form p) a (handed p).

Definition setStep (s : Step) : SE Page unit :=
  modify (set_form (fun f =>
    mkForm s (initialPin f) (confirmPin f) (errors f) (isLoading f))).
Definition setInitialPin (pin : string) : SE Page unit :=
  modify (set_form (fun f =>
    mkForm (step f) pin (confirmPin f) (errors f) (isLoading f))).
Definition setConfirmPin (pin : string) : SE Page unit :=
  modify (set_form (fun f =>
    mkForm (step f) (initialPin f) pin (errors f) (isLoading f))).
Definition setErrors (errs : list string) : SE Page unit :=
  modify (set_form (fun f =>
    mkForm (step f) (initialPin f) (confirmPin f) errs (isLoading f))).
Definition setIsLoading (b : bool) : SE Page unit :=
  modify (set_form (fun f =>
    mkForm (step f) (initialPin f) (confirmPin f) (errors f) b)).

(** [value.replace(/\D/g, '')] *)
Definition only_digits (value : string) : string :=
  string_of_list_ascii
    (List.filter PinValidator.is_digit (list_ascii_of_string value)).

Definition MISMATCH : string := "PINs do not match. Please try again.".
Definition SETUP_FAILED : string := "Failed to setup PIN. Please try again.".

(** The form as it is mounted. *)
Definition mounted : Form := mkForm initial_step "" "" [] false.

Section Form.

(** The parent's handler, and the depth of recursion that the call
    stack allows. *)
Variable onPinSetup : string -> SE App unit.
Variable stack : nat.

Definition call_onPinSetup (pin : string) : SE Page unit :=
  modify (fun p => mkPage (form p) (parent p) (handed p ++ [pin])) ;;;
  zoom parent set_parent (onPinSetup pin).

Definition validateAndProceed : SE Page unit :=
  let* p := get_state in
  let validation := PinValidator.validatePin (initialPin (form p)) in
  if negb (PinValidator.isValid validation)
  then setErrors (PinValidator.errors validation)
  else setErrors [] ;;; setStep confirm_step.

Definition handleConfirmPin : SE Page unit :=
  let* p := get_state in
  if negb (String.eqb (initialPin (form p)) (confirmPin (form p)))
  then setErrors [MISMATCH]
  else
    setIsLoading true ;;;
    setErrors [] ;;;
    try_catch
      (call_onPinSetup (initialPin (form p)))
      (fun error => setErrors [SETUP_FAILED] ;;; setIsLoading false).

Definition handleReset : SE Page unit :=
  setStep initial_step ;;;
  setInitialPin "" ;;;
  setConfirmPin "" ;;;
  setErrors [].

(** A draw that is still weak at the bottom of the stack ends in a
    [RangeError]; the random bytes are spent all the same. *)
Definition generateSecurePin : SE Page unit :=
  let* p := get_state in
  let a := parent p in
  let g := rng (env a) in
  match PinValidator.generateSecurePin stack g with
  | Some (securePin, g') =>
      modify (set_parent (set_env (set_rng g' (env a)) a)) ;;;
      setInitialPin securePin ;;;
      setErrors []
  | None =>
      modify (set_parent
                (set_env (set_rng (Nat.iter stack PinValidator.skip_draw g)
                                  (env a)) a)) ;;;
      throw (JsError "Maximum call stack size exceeded")
  end.

Inductive Event :=
| TypeInitial (value : string)    (* input in the PIN field *)
| Generate                        (* "Generate Secure PIN" *)
| Continue
| TypeConfirm (value : string)    (* input in the confirmation field *)
| Back
| Confirm.                        (* "Setup Vault" *)

(** The parent shows the form; the controls of the current step are on
    the screen and not disabled; a field holds no more than its
    [maxLength]. *)
Definition enabled (ev : Event) (p : Page) : bool :=
  SecretVault.screen_eqb (SecretVault.screen (vault (parent p)))
                         SecretVault.SetupForm
  && match ev, step (form p) with
     | TypeInitial value, initial_step => (String.length value <=? 20)%nat
     | Generate, initial_step => true
     | Continue, initial_step => negb (PinValidator.falsy (initialPin (form p)))
     | TypeConfirm value, confirm_step =>
         (String.length value <=? String.length (initialPin (form p)))%nat
     | Back, confirm_step => negb (isLoading (form p))
     | Confirm, confirm_step =>
         negb (PinValidator.falsy (confirmPin (form p)))
         && negb (isLoading (form p))
     | _, _ => false
     end.

Definition handler (ev : Event) : SE Page unit :=
  match ev with
  | TypeInitial value => setInitialPin (only_digits value) ;;; setErrors []
  | Generate => generateSecurePin
  | Continue => validateAndProceed
  | TypeConfirm value => setConfirmPin (only_digits value) ;;; setErrors []
  | Back => handleReset
  | Confirm => handleConfirmPin
  end.

(** An event that is not enabled does nothing; what a handler did
    before an exception left it stays done. *)
Definition fire (p : Page) (ev : Event) : Page :=
  if enabled ev p then snd (handler ev p) else p.

Definition run (evs : list Event) (p : Page) : Page := fold_left fire evs p.

End Form.

(** A PIN that passes [validatePin]. *)
Definition valid (pin : string) : Prop :=
  PinValidator.isValid (PinValidator.validatePin pin) = true.

Definition digits_or_empty (s : string) : Prop :=
  PinValidator.all_chars PinValidator.is_digit s = true.

(** What the form keeps: its PIN is made of digits and fits the field;
    the confirmation step is only reached with a valid PIN; only valid
    PINs were handed over; two of the validator's messages are not
    among the errors shown. *)
Definition well_formed (p : Page) : Prop :=
  digits_or_empty (initialPin (form p)) /\
  (String.length (initialPin (form p)) <= 20)%nat /\
  (step (form p) = confirm_step -> valid (initialPin (form p))) /\
  Forall valid (handed p) /\
  ~ In PinValidator.ERR_DIGITS (errors (form p)) /\
  ~ In PinValidator.ERR_LONG (errors (form p)).

(** Nothing was handed over, or one PIN was and the form is waiting. *)
Definition handed_once (p : Page) : Prop :=
  handed p = [] \/
  (length (handed p) = 1%nat /\ isLoading (form p) = true /\
   step (form p) = confirm_step).

End PinSetup.

(** ** Numbers *)

(** JavaScript's numbers, with the operations on them that the
    calculator and the gesture detector call.  What is proved about the
    two holds for every such structure, and so for the doubles of the
    language. *)
Class Numbers := mkNumbers {
  number : Type;
  literal : string -> number;            (* a numeric literal, by its text *)
  of_int : Z -> number;                  (* a length or a count *)
  parseFloat : string -> number;
  toString : number -> string;
  toExponential : number -> Z -> string;
  toPrecision : number -> Z -> string;
  isNaN : number -> bool;
  isFinite : number -> bool;
  strict_eq : number -> number -> bool;  (* [===] *)
  lt : number -> number -> bool;
  gt : number -> number -> bool;
  le : number -> number -> bool;
  ge : number -> number -> bool;
  plus : number -> number -> number;
  minus : number -> number -> number;
  times : number -> number -> number;
  over : number -> number -> number;
  negative : number -> number;
  Math_PI : number;
  Math_sin : number -> number;
  Math_cos : number -> number;
  Math_tan : number -> number;
  Math_log10 : number -> number;
  Math_log : number -> number;
  Math_sqrt : number -> number;
  Math_atan : number -> number;
  Math_abs : number -> number;
  Math_pow : number -> number -> number;
  Math_max : number -> number -> number;
  Math_min : number -> number -> number
}.

(** ** The calculator (lib/calculator.ts) *)

Module CalculatorEngine.

Inductive CalculatorOperation :=
| op_add | op_subtract | op_multiply | op_divide | op_equals | op_clear
| op_clearEntry | op_sin | op_cos | op_tan | op_log | op_ln | op_sqrt
| op_square | op_power | op_percent | op_negate.

Inductive MemoryOperation :=
| mem_clear | mem_recall | mem_add | mem_subtract | mem_store.

(** The string that an operation is in the source. *)
Definition operation_name (operation : CalculatorOperation) : string :=
  match operation with
  | op_add => "add" | op_subtract => "subtract" | op_multiply => "multiply"
  | op_divide => "divide" | op_equals => "equals" | op_clear => "clear"
  | op_clearEntry => "clearEntry" | op_sin => "sin" | op_cos => "cos"
  | op_tan => "tan" | op_log => "log" | op_ln => "ln" | op_sqrt => "sqrt"
  | op_square => "square" | op_power => "power" | op_percent => "percent"
  | op_negate => "negate"
  end.

(** An expression can hold the minus sign U+2212: it is the list of its
    code units. *)
Record CalculationHistory := mkCalculationHistory {
  history_id : string;
  expression : list Z;
  result : string;
  history_timestamp : Z
}.

Section Engine.
Context {Num : Numbers}.

Record CalculatorState := mkCalculatorState {
  display : string;
  previousValue : option number;
  operation : option CalculatorOperation;
  waitingForNewValue : bool;
  memory : number;
  history : list CalculationHistory
}.

(** The engine and the time of day. *)
Record Engine := mkEngine { state : CalculatorState; now : Z }.

Definition set_state (f : CalculatorState -> CalculatorState) (e : Engine)
  : Engine := mkEngine (f (state e)) (now e).

Definition set_display (d : string) : SE Engine unit :=
  modify (set_state (fun s =>
    mkCalculatorState d (previousValue s) (operation s)
      (waitingForNewValue s) (memory s) (history s))).
Definition set_previousValue (v : option number) : SE Engine unit :=
  modify (set_state (fun s =>
    mkCalculatorState (display s) v (operation s) (waitingForNewValue s)
      (memory s) (history s))).
Definition set_operation (o : option CalculatorOperation) : SE Engine unit :=
  modify (set_state (fun s =>
    mkCalculatorState (display s) (previousValue s) o
      (waitingForNewValue s) (memory s) (history s))).
Definition set_waitingForNewValue (b : bool) : SE Engine unit :=
  modify (set_state (fun s =>
    mkCalculatorState (display s) (previousValue s) (operation s) b
      (memory s) (history s))).
Definition set_memory (m : number) : SE Engine unit :=
  modify (set_state (fun s =>
    mkCalculatorState (display s) (previousValue s) (operation s)
      (waitingForNewValue s) m (history s))).
Definition set_history (h : list CalculationHistory) : SE Engine unit :=
  modify (set_state (fun s =>
    mkCalculatorState (display s) (previousValue s) (operation s)
      (waitingForNewValue s) (memory s) h)).

Definition getInitialState : CalculatorState :=
  mkCalculatorState "0" None None false (literal "0") [].

Definition getState : SE Engine CalculatorState :=
  fun e => (Ok (state e), e).

Definition clear : SE Engine CalculatorState :=
  modify (set_state (fun _ => getInitialState)) ;;; getState.

Definition clearEntry : SE Engine CalculatorState :=
  set_display "0" ;;; set_waitingForNewValue false ;;; getState.

Definition inputDigit (digit : string) : SE Engine CalculatorState :=
  let* e := get_state in
  (if waitingForNewValue (state e)
   then set_display digit ;;; set_waitingForNewValue false
   else set_display (if String.eqb (display (state e)) "0" then digit
                     else display (state e) +:+ digit)) ;;;
  getState.

(** [s.indexOf('.') === -1] *)
Definition has_point (s : string) : bool :=
  existsb (Ascii.eqb ".") (list_ascii_of_string s).

Definition inputDecimal : SE Engine CalculatorState :=
  let* e := get_state in
  (if waitingForNewValue (state e)
   then set_display "0." ;;; set_waitingForNewValue false
   else if negb (has_point (display (state e)))
        then set_display (display (state e) +:+ ".")
        else ret tt) ;;;
  getState.

Definition DIVISION_BY_ZERO : string := "Division by zero".

Definition calculate (first second : number) (operation : CalculatorOperation)
  : Result number :=
  match operation with
  | op_add => Ok (plus first second)
  | op_subtract => Ok (minus first second)
  | op_multiply => Ok (times first second)
  | op_divide =>
      if strict_eq second (literal "0") then Throw (JsError DIVISION_BY_ZERO)
      else Ok (over first second)
  | op_power => Ok (Math_pow first second)
  | _ => Ok second
  end.

Definition toRadians (degrees : number) : number :=
  times degrees (over Math_PI (literal "180")).

Definition formatResult (result : number) : string :=
  if isNaN result || negb (isFinite result) then "Error"
  else if ge (Math_abs result) (literal "1e10")
          || (lt (Math_abs result) (literal "1e-6")
              && negb (strict_eq result (literal "0")))
  then toExponential result 6
  else let formatted := parseFloat (toPrecision result 12) in
       toString formatted.

Definition getOperationSymbol (operation : CalculatorOperation) : list Z :=
  match operation with
  | op_add => [43]%Z            (* + *)
  | op_subtract => [0x2212]%Z   (* the minus sign *)
  | op_multiply => [0xD7]%Z     (* the multiplication sign *)
  | op_divide => [0xF7]%Z       (* the division sign *)
  | op_power => [94]%Z          (* ^ *)
  | _ => code_units (operation_name operation)
  end.

(** [unshift], then the first 50 when there are more. *)
Definition addToHistory (expression : list Z) (result : string)
  : SE Engine unit :=
  let* e := get_state in
  let historyItem :=
    mkCalculationHistory (show (now e)) expression result (now e) in
  let unshifted := historyItem :: history (state e) in
  set_history (if (50 <? length unshifted)%nat then firstn 50 unshifted
               else unshifted).

Definition performOperation (op : CalculatorOperation)
  : SE Engine CalculatorState :=
  let* e := get_state in
  let current := parseFloat (display (state e)) in
  match previousValue (state e) with
  | None => set_previousValue (Some current)
  | Some previous =>
      match operation (state e) with
      | Some pending =>
          if negb (waitingForNewValue (state e)) then
            let* result :=
              (fun e => (calculate previous current pending, e)) in
            addToHistory
              (code_units (toString previous) ++ [32]%Z
               ++ getOperationSymbol pending ++ [32]%Z
               ++ code_units (toString current))
              (toString result) ;;;
            set_display (toString result) ;;;
            set_previousValue (Some result)
          else ret tt
      | None => ret tt
      end
  end ;;;
  match op with
  | op_equals =>
      set_previousValue None ;;;
      set_operation None ;;;
      set_waitingForNewValue true
  | _ =>
      set_operation (Some op) ;;;
      set_waitingForNewValue true
  end ;;;
  getState.

Definition UNKNOWN_OPERATION : string := "Unknown scientific operation".

Definition performScientificOperation (op : CalculatorOperation)
  : SE Engine CalculatorState :=
  let* e := get_state in
  let current := parseFloat (display (state e)) in
  try_catch
    (let* result :=
       match op with
       | op_sin => ret (Math_sin (toRadians current))
       | op_cos => ret (Math_cos (toRadians current))
       | op_tan => ret (Math_tan (toRadians current))
       | op_log => ret (Math_log10 current)
       | op_ln => ret (Math_log current)
       | op_sqrt => ret (Math_sqrt current)
       | op_square => ret (times current current)
       | op_percent => ret (over current (literal "100"))
       | op_negate => ret (negative current)
       | _ => throw (JsError UNKNOWN_OPERATION)
       end in
     addToHistory
       (code_units (operation_name op +:+ "(" +:+ toString current +:+ ")"))
       (toString result) ;;;
     set_display (formatResult result) ;;;
     set_waitingForNewValue true)
    (fun error =>
       set_display "Error" ;;;
       set_waitingForNewValue true) ;;;
  getState.

Definition performMemoryOperation (op : MemoryOperation)
  : SE Engine CalculatorState :=
  let* e := get_state in
  let current := parseFloat (display (state e)) in
  match op with
  | mem_clear => set_memory (literal "0")
  | mem_recall =>
      set_display (toString (memory (state e))) ;;;
      set_waitingForNewValue true
  | mem_add => set_memory (plus (memory (state e)) current)
  | mem_subtract => set_memory (minus (memory (state e)) current)
  | mem_store => set_memory current
  end ;;;
  getState.

Definition getHistory : SE Engine (list CalculationHistory) :=
  fun e => (Ok (history (state e)), e).

Definition clearHistory : SE Engine CalculatorState :=
  set_history [] ;;; getState.

(** A new engine. *)
Definition new_engine (time : Z) : Engine := mkEngine getInitialState time.

(** What the calculator's buttons and keys call. *)
Inductive Call :=
| Clear
| ClearEntry
| InputDigit (digit : string)
| InputDecimal
| PerformOperation (op : CalculatorOperation)
| PerformScientificOperation (op : CalculatorOperation)
| PerformMemoryOperation (op : MemoryOperation)
| ClearHistory
| Later (ms : N).                           (* time passes *)

Definition call (c : Call) : SE Engine unit :=
  match c with
  | Clear => clear ;;; ret tt
  | ClearEntry => clearEntry ;;; ret tt
  | InputDigit digit => inputDigit digit ;;; ret tt
  | InputDecimal => inputDecimal ;;; ret tt
  | PerformOperation op => performOperation op ;;; ret tt
  | PerformScientificOperation op => performScientificOperation op ;;; ret tt
  | PerformMemoryOperation op => performMemoryOperation op ;;; ret tt
  | ClearHistory => clearHistory ;;; ret tt
  | Later ms => modify (fun e => mkEngine (state e) (now e + Z.of_N ms))
  end.

(** An exception that leaves a method goes to the caller; the engine
    stays as the method left it. *)
Definition calls (cs : list Call) (e : Engine) : Engine :=
  fold_left (fun e c => snd (call c e)) cs e.

(** The entries of a history from the newest to the oldest. *)
Definition newest_first (h : list CalculationHistory) : Prop :=
  StronglySorted
    (fun a b => (history_timestamp b <= history_timestamp a)%Z) h.

(** What a call does to the history: nothing, or it empties it, or it
    puts one entry of the present time in front and keeps the first 50. *)
Definition unshifted (item : CalculationHistory)
    (h : list CalculationHistory) : list CalculationHistory :=
  if (50 <? length (item :: h))%nat then firstn 50 (item :: h) else item :: h.

(** What stays true of the engine over its calls. *)
Definition history_kept (e : Engine) : Prop :=
  (length (history (state e)) <= 50)%nat /\
  newest_first (history (state e)) /\
  List.Forall (fun item => (history_timestamp item <= now e)%Z)
              (history (state e)).

(** The digits that were typed, without the zeros in front. *)
Fixpoint without_leading_zeros (digits : string) : string :=
  match digits with
  | String "0" rest =>
      match rest with
      | EmptyString => "0"
      | String _ _ => without_leading_zeros rest
      end
  | _ => digits
  end.

End Engine.
End CalculatorEngine.

(** ** The gesture detector (lib/gesture.ts) *)

Module VGestureDetector.

Inductive SegmentType := left_segment | right_segment.

Section Detector.
Context {Num : Numbers}.

Record GesturePoint := mkGesturePoint {
  x : number;
  y : number;
  timestamp : Z
}.

Record GesturePattern := mkGesturePattern {
  pattern_points : list GesturePoint;
  isValid : bool;
  confidence : number
}.

Record SegmentAnalysis := mkSegmentAnalysis {
  isValidLine : bool;
  slope : number;
  linearity : number;
  segment_length : number
}.

(** The detector and the time of day. *)
Record Detector := mkDetector {
  points : list GesturePoint;
  isTracking : bool;
  now : Z
}.

Definition minPoints : nat := 8.
Definition maxPoints : nat := 50.
Definition timeoutMs : Z := 2000.
Definition vAngleThreshold : number := literal "45".
Definition minDistance : number := literal "50".

Definition new_detector (time : Z) : Detector := mkDetector [] false time.

Definition startTracking (d : Detector) : Detector :=
  mkDetector [] true (now d).

Definition stopTracking (d : Detector) : Detector :=
  mkDetector (points d) false (now d).

Definition reset (d : Detector) : Detector :=
  mkDetector [] false (now d).

(** [slice(-n)] *)
Definition slice_last {A} (n : nat) (l : list A) : list A :=
  skipn (length l - n) l.

(** The two readings of [Date.now()] in [addPoint] give the same time. *)
Definition addPoint (px py : number) (d : Detector) : Detector :=
  if negb (isTracking d) then d
  else
    let point := mkGesturePoint px py (now d) in
    let pushed := points d ++ [point] in
    let recent :=
      List.filter (fun p => (now d - timestamp p <? timeoutMs)%Z) pushed in
    mkDetector
      (if (maxPoints <? length recent)%nat then slice_last maxPoints recent
       else recent)
      (isTracking d) (now d).

(** The loop of [smoothPoints]: one point for each point that has a
    neighbour on both sides. *)
Fixpoint moving_average (points : list GesturePoint) : list GesturePoint :=
  match points with
  | prev :: rest =>
      match rest with
      | current :: next :: _ =>
          mkGesturePoint
            (over (plus (plus (x prev) (x current)) (x next)) (literal "3"))
            (over (plus (plus (y prev) (y current)) (y next)) (literal "3"))
            (timestamp current)
          :: moving_average rest
      | _ => []
      end
  | [] => []
  end.

Definition smoothPoints (points : list GesturePoint) : list GesturePoint :=
  if (length points <? 3)%nat then points
  else match points with
       | first :: _ =>
           [first] ++ moving_average points ++ [List.last points first]
       | [] => points
       end.

(** One round of the loop of [findTurningPoint]. *)
Definition higher (points : list GesturePoint)
    (found : number * option nat) (i : nat) : number * option nat :=
  match nth_error points i with
  | Some p => if gt (y p) (fst found) then (y p, Some i) else found
  | None => found
  end.

Definition findTurningPoint (points : list GesturePoint)
  : option (nat * GesturePoint) :=
  if (length points <? 3)%nat then None
  else
    let found :=
      fold_left (higher points) (seq 1 (length points - 2))
        (negative (literal "Infinity"), None) in
    match snd found with
    | None => None
    | Some turningIndex =>
        match nth_error points turningIndex with
        | Some p => Some (turningIndex, p)
        | None => None
        end
    end.

Definition calculateDistance (p1 p2 : GesturePoint) : number :=
  Math_sqrt (plus (Math_pow (minus (x p2) (x p1)) (literal "2"))
                  (Math_pow (minus (y p2) (y p1)) (literal "2"))).

Definition distanceToLine (start end_ point : GesturePoint) : number :=
  let A := minus (y end_) (y start) in
  let B := minus (x start) (x end_) in
  let C := minus (times (x end_) (y start)) (times (x start) (y end_)) in
  over (Math_abs (plus (plus (times A (x point)) (times B (y point))) C))
       (Math_sqrt (plus (times A A) (times B B))).

(** The points between the first and the last. *)
Definition between {A} (l : list A) : list A := removelast (tl l).

Definition calculateLinearity (points : list GesturePoint) : number :=
  if (length points <? 3)%nat then literal "1"
  else match points with
       | start :: _ =>
           let end_ := List.last points start in
           let totalDistance := calculateDistance start end_ in
           if strict_eq totalDistance (literal "0") then literal "0"
           else
             let deviationSum :=
               fold_left
                 (fun sum point => plus sum (distanceToLine start end_ point))
                 (between points) (literal "0") in
             let avgDeviation :=
               over deviationSum (of_int (Z.of_nat (length points - 2))) in
             Math_max (literal "0")
               (minus (literal "1")
                  (over avgDeviation (times totalDistance (literal "0.1"))))
       | [] => literal "1"
       end.

Definition analyzeSegment (points : list GesturePoint) (type : SegmentType)
  : SegmentAnalysis :=
  if (length points <? 2)%nat
  then mkSegmentAnalysis false (literal "0") (literal "0") (literal "0")
  else match points with
       | start :: _ =>
           let end_ := List.last points start in
           let slope :=
             over (minus (y end_) (y start)) (minus (x end_) (x start)) in
           let length := calculateDistance start end_ in
           if lt length minDistance
           then mkSegmentAnalysis false slope (literal "0") length
           else
             let linearity := calculateLinearity points in
             let isValidDirection :=
               match type with
               | left_segment =>
                   gt (y start) (y end_) && lt (x start) (x end_)
               | right_segment =>
                   gt (y start) (y end_) && lt (x start) (x end_)
               end in
             mkSegmentAnalysis
               (isValidDirection && gt linearity (literal "0.8"))
               slope linearity length
       | [] =>
           mkSegmentAnalysis false (literal "0") (literal "0") (literal "0")
       end.

Definition calculateAngleBetweenSegments (slope1 slope2 : number) : number :=
  let angle1 := times (Math_atan slope1) (over (literal "180") Math_PI) in
  let angle2 := times (Math_atan slope2) (over (literal "180") Math_PI) in
  let angleDiff := Math_abs (minus angle1 angle2) in
  if gt angleDiff (literal "180") then minus (literal "360") angleDiff
  else angleDiff.

Definition calculateConfidence (leftAnalysis rightAnalysis : SegmentAnalysis)
    (angle : number) (pointCount : nat) : number :=
  let linearityWeight := literal "0.3" in
  let angleWeight := literal "0.4" in
  let lengthWeight := literal "0.2" in
  let pointWeight := literal "0.1" in
  let linearityScore :=
    over (plus (linearity leftAnalysis) (linearity rightAnalysis))
         (literal "2") in
  let idealAngle := literal "90" in
  let angleScore :=
    minus (literal "1")
          (over (Math_abs (minus angle idealAngle)) (literal "90")) in
  let avgLength :=
    over (plus (segment_length leftAnalysis) (segment_length rightAnalysis))
         (literal "2") in
  let lengthScore :=
    Math_min (literal "1") (over avgLength (times minDistance (literal "2"))) in
  let pointScore :=
    Math_min (literal "1")
      (over (of_int (Z.of_nat pointCount)) (of_int (Z.of_nat minPoints))) in
  let confidence :=
    plus (plus (plus (times linearityScore linearityWeight)
                     (times angleScore angleWeight))
               (times lengthScore lengthWeight))
         (times pointScore pointWeight) in
  Math_max (literal "0") (Math_min (literal "1") confidence).

Definition analyzeVPattern (d : Detector) : bool * number :=
  let smoothedPoints := smoothPoints (points d) in
  if (length smoothedPoints <? minPoints)%nat then (false, literal "0")
  else
    match findTurningPoint smoothedPoints with
    | None => (false, literal "0")
    | Some (index, _) =>
        let leftSegment := firstn (index + 1) smoothedPoints in
        let rightSegment := skipn index smoothedPoints in
        let leftAnalysis := analyzeSegment leftSegment left_segment in
        let rightAnalysis := analyzeSegment rightSegment right_segment in
        if negb (isValidLine leftAnalysis) || negb (isValidLine rightAnalysis)
        then (false, literal "0")
        else
          let angle :=
            calculateAngleBetweenSegments (slope leftAnalysis)
              (slope rightAnalysis) in
          let isValidAngle :=
            ge angle vAngleThreshold
            && le angle (minus (literal "180") vAngleThreshold) in
          if negb isValidAngle then (false, literal "0")
          else
            let confidence :=
              calculateConfidence leftAnalysis rightAnalysis angle
                (length smoothedPoints) in
            (gt confidence (literal "0.7"), confidence)
    end.

Definition detectVGesture (d : Detector) : GesturePattern :=
  if (length (points d) <? minPoints)%nat
  then mkGesturePattern (points d) false (literal "0")
  else
    let pattern := analyzeVPattern d in
    mkGesturePattern (points d) (fst pattern) (snd pattern).

(** What the component calls (components/GestureDetector.tsx): a gesture
    starts, moves and ends, and time passes. *)
Inductive Call :=
| StartTracking
| StopTracking
| AddPoint (px py : number)
| Reset
| Later (ms : N).

Definition call (c : Call) (d : Detector) : Detector :=
  match c with
  | StartTracking => startTracking d
  | StopTracking => stopTracking d
  | AddPoint px py => addPoint px py d
  | Reset => reset d
  | Later ms => mkDetector (points d) (isTracking d) (now d + Z.of_N ms)
  end.

Definition calls (cs : list Call) (d : Detector) : Detector :=
  fold_left (fun d c => call c d) cs d.

(** What stays true of the detector over its calls. *)
Definition points_kept (d : Detector) : Prop :=
  (length (points d) <= 50)%nat /\
  (forall p, In p (points d) -> (timestamp p <= now d)%Z) /\
  forall end_ p, last (points d) = Some end_ -> In p (points d) ->
    (0 <= timestamp end_ - timestamp p < 2000)%Z.

End Detector.
End VGestureDetector.

(** ** Whole numbers *)

(** A structure of numbers to run the calculator on whole numbers: the
    integers, with truncated quotients.  The functions of [Math] that
    leave the integers return their argument; no example uses them. *)
Module WholeNumbers.

Definition whole (s : string) : Z :=
  match NilZero.int_of_string s with
  | Some i => Z.of_int i
  | None => 0%Z
  end.

#[export] Instance numbers : Numbers := {|
  number := Z;
  literal := whole;
  of_int := fun n => n;
  parseFloat := whole;
  toString := show;
  toExponential := fun n _ => show n;
  toPrecision := fun n _ => show n;
  isNaN := fun _ => false;
  isFinite := fun _ => true;
  strict_eq := Z.eqb;
  lt := Z.ltb;
  gt := Z.gtb;
  le := Z.leb;
  ge := Z.geb;
  plus := Z.add;
  minus := Z.sub;
  times := Z.mul;
  over := Z.quot;
  negative := Z.opp;
  Math_PI := 3%Z;
  Math_sin := fun n => n;
  Math_cos := fun n => n;
  Math_tan := fun n => n;
  Math_log10 := fun n => n;
  Math_log := fun n => n;
  Math_sqrt := Z.sqrt;
  Math_atan := fun n => n;
  Math_abs := Z.abs;
  Math_pow := Z.pow;
  Math_max := Z.max;
  Math_min := Z.min
|}.

End WholeNumbers.

(** ** Sample states *)

Module Samples.
Import SecretVault.

(** A file in the vault with its metadata record. *)
Definition stored_file : VaultFile :=
  mkVaultFile "f1" "notes.txt" 3 "text/plain" 0 [1; 2; 3]%Z None
              (Some "documents").

Definition vault_with_file : App :=
  mkApp (mkVault (Some (mkPinConfig "" 0 None false)) true "1357" false ""
                 0 false 0 [stored_file] None None)
        (mkManager [] None "")
        (mkEnv (mkDatabase {["f1" := stored_file]} ∅ ∅
                           {["file_f1" := MetaKeys "AAECAw==" "BAUG"]})
               0 (mkRng (fun _ => 0%Z) 0) [] [] []).

Definition stored_hash : string := "c3RvcmVkLWhhc2g=".
Definition locked_config : PinConfig :=
  mkPinConfig stored_hash 5 (Some 901000%Z) false.
Definition database_locked : Database :=
  mkDatabase ∅ {["main" := locked_config]} ∅ ∅.
Definition world_locked (now : Z) : Env :=
  mkEnv database_locked now (mkRng (fun _ => 0%Z) 0) [] [] [].

(** A component in lockout, half a second after it was mounted at the
    time 2000. *)
Definition locked_out_vault : App :=
  mkApp (mkVault (Some locked_config) false "" false "" 5 true 899
                 [] None (Some 2000%Z))
        (mkManager [] None "") (world_locked 2500).

(** A vault about to be shown over a store in lockout. *)
Definition unmounted_locked : App :=
  mkApp initial (mkManager [] None "") (world_locked 2500).



(** The PIN form with four failed attempts on record. *)
Definition four_failures : PinConfig := mkPinConfig stored_hash 4 None false.

Definition pin_form_vault : App :=
  mkApp (mkVault (Some four_failures) false "0000" false "" 4 false 0
                 [] None None)
        (mkManager [] None "")
        (mkEnv (mkDatabase ∅ {["main" := four_failures]} ∅ ∅) 2500
               (mkRng (fun _ => 0%Z) 0) [] [] []).

(** A store with one open session. *)
Definition open_session : VaultSession :=
  mkVaultSession "00112233445566778899aabbccddeeff" 1000 2000 true.

Definition world_with_session : Env :=
  mkEnv (mkDatabase ∅ ∅ {[session_id open_session := open_session]} ∅)
        3000 (mkRng (fun _ => 0%Z) 0) [] [] [].

(** A file that the user picks for upload. *)
Definition picked_file : File := mkFile "hi.txt" 2 "text/plain" [104; 105]%Z.

(** The vault with a file, on a store whose second request fails. *)
Definition vault_on_failing_store : App :=
  mkApp (vault vault_with_file) (manager vault_with_file)
        (set_faults [false; true] (env vault_with_file)).

(** An unlocked vault in its session. *)
Definition vault_in_session : App :=
  mkApp (mkVault (Some (mkPinConfig stored_hash 0 None false)) true "1357"
                 false "" 0 false 0 [] (Some open_session) None)
        (mkManager [] None "") world_with_session.

(** An encryption manager that verifies every PIN. *)
Definition accept : string -> string -> SE Rng bool :=
  fun _ _ g => (Ok true, g).

End Samples.


(* ================================================================== *)
(** * Theorems *)

(** ** The platform model against published test vectors *)

Module TestVectors.

(** FIPS 180-4: the first and the last constant, and the first word of
    the initial hash value. *)
Example sha256_constants :
  length Sha256.K = 64%nat /\ nth 0 Sha256.K 0%Z = 0x428a2f98%Z /\
  nth 63 Sha256.K 0%Z = 0xc67178f2%Z /\ nth 0 Sha256.H0 0%Z = 0x6a09e667%Z.
Proof. repeat split; reflexivity. Qed.

(** FIPS 180-4, SHA-256 of "abc" and of the empty message. *)
Example sha256_abc :
  be_number (Sha256.sha256 (ascii_bytes "abc")) =
  0xba7816bf8f01cfea414140de5dae2223b00361a396177a9cb410ff61f20015ad%Z.
Proof. vm_compute. reflexivity. Qed.

Example sha256_empty :
  be_number (Sha256.sha256 []) =
  0xe3b0c44298fc1c149afbf4c8996fb92427ae41e4649b934ca495991b7852b855%Z.
Proof. vm_compute. reflexivity. Qed.

(** RFC 4231, test case 2. *)
Example hmac_sha256_jefe :
  be_number (Pbkdf2.hmac (ascii_bytes "Jefe")
               (ascii_bytes "what do ya want for nothing?")) =
  0x5bdcc146bf60754e6a042426089575c75a003f089d2739839dec58b964ec3843%Z.
Proof. vm_compute. reflexivity. Qed.

(** PBKDF2-HMAC-SHA-256 of "password" and "salt", one and two rounds. *)
Example pbkdf2_one_round :
  be_number (Pbkdf2.pbkdf2 (ascii_bytes "password") (ascii_bytes "salt")
               1 32) =
  0x120fb6cffcf8b32c43e7225256c4f837a86548c92ccc35480805987cb70be17b%Z.
Proof. vm_compute. reflexivity. Qed.

Example pbkdf2_two_rounds :
  be_number (Pbkdf2.pbkdf2 (ascii_bytes "password") (ascii_bytes "salt")
               2 32) =
  0xae4d0c95af6b46d32d0adff928f06dd02a303f8ef3c251dfd6e2d85a95474c43%Z.
Proof. vm_compute. reflexivity. Qed.

(** FIPS 197, appendix C.3. *)
Example aes256_block :
  be_number (Aes.cipher (map Z.of_nat (seq 0 32))
               (be_bytes 16 0x00112233445566778899aabbccddeeff)) =
  0x8ea2b7ca516745bfeafc49904b496089%Z.
Proof. vm_compute. reflexivity. Qed.

(** The GCM specification's test cases 13 and 14 for AES-256. *)
Example gcm_empty_plaintext :
  be_number (Gcm.encrypt (Aes.encrypt_block (repeat 0%Z 32))
               (repeat 0%Z 12) [] []) =
  0x530f8afbc74536b9a963b4f1c4cb738b%Z.
Proof. vm_compute. reflexivity. Qed.

Example gcm_one_block :
  be_number (Gcm.encrypt (Aes.encrypt_block (repeat 0%Z 32))
               (repeat 0%Z 12) [] (repeat 0%Z 16)) =
  0xcea7403d4d606b6e074ec5d3baf39d18d0d1c8a799996bf0265b98b5d48ab919%Z.
Proof. vm_compute. reflexivity. Qed.

Example base64_text :
  Base64.btoa "light work." = "bGlnaHQgd29yay4=" /\
  Base64.atob "bGlnaHQgd29yay4=" = Ok "light work." /\
  Base64.atob "bGlnaHQgd29yay4" = Ok "light work." /\
  Base64.atob "x" = Throw (DOMException "InvalidCharacterError").
Proof. repeat split; reflexivity. Qed.

End TestVectors.

(** ** The cipher engine *)

Module GcmFacts.
Section Mode.
Variable E : Z -> Z.

Lemma length_be_bytes (n : nat) (x : Z) : length (be_bytes n x) = n.
Proof. unfold be_bytes. now rewrite length_map, length_seq. Qed.

Lemma length_concat_blocks {A} (f : nat -> list A) (size : nat)
    (l : list nat) :
  (forall i, length (f i) = size) ->
  length (concat (map f l)) = (size * length l)%nat.
Proof.
  intros Hf. induction l as [|i l IH]; simpl; [lia|].
  rewrite length_app, Hf, IH. lia.
Qed.

Lemma length_keystream (icb : Z) (n : nat) :
  length (Gcm.keystream E icb n) = n.
Proof.
  unfold Gcm.keystream. apply firstn_length_le.
  rewrite (length_concat_blocks _ 16); [|intros; apply length_be_bytes].
  rewrite length_seq.
  pose proof (Nat.div_mod_eq (n + 15) 16).
  pose proof (Nat.mod_upper_bound (n + 15) 16). lia.
Qed.

Lemma xor_bytes_involutive (xs ks : list Z) :
  (length xs <= length ks)%nat -> xor_bytes (xor_bytes xs ks) ks = xs.
Proof.
  unfold xor_bytes. revert ks.
  induction xs as [|x xs IH]; intros [|k ks] Hlen; simpl in *;
    try reflexivity; try lia.
  rewrite IH by lia.
  now rewrite Z.lxor_assoc, Z.lxor_nilpotent, Z.lxor_0_r.
Qed.

Lemma length_gctr (icb : Z) (xs : list Z) :
  length (Gcm.gctr E icb xs) = length xs.
Proof.
  unfold Gcm.gctr, xor_bytes.
  rewrite length_zip_with, length_keystream. lia.
Qed.

(** Counter mode is its own inverse. *)
Lemma gctr_involutive (icb : Z) (xs : list Z) :
  Gcm.gctr E icb (Gcm.gctr E icb xs) = xs.
Proof.
  unfold Gcm.gctr at 1. rewrite length_gctr. unfold Gcm.gctr.
  apply xor_bytes_involutive. now rewrite length_keystream.
Qed.

Lemma length_tag (iv aad ct : list Z) :
  length (Gcm.tag E iv aad ct) = 16%nat.
Proof. unfold Gcm.tag. now rewrite length_gctr, length_be_bytes. Qed.

Lemma bytes_eqb_refl (xs : list Z) : Gcm.bytes_eqb xs xs = true.
Proof.
  unfold Gcm.bytes_eqb. rewrite Nat.eqb_refl. simpl.
  induction xs as [|x xs IH]; simpl; [reflexivity|].
  now rewrite Z.eqb_refl, IH.
Qed.

Lemma bytes_eqb_eq (xs ys : list Z) :
  Gcm.bytes_eqb xs ys = true <-> xs = ys.
Proof.
  split; [|intros ->; apply bytes_eqb_refl].
  unfold Gcm.bytes_eqb. rewrite andb_true_iff, Nat.eqb_eq.
  revert ys. induction xs as [|x xs IH]; intros [|y ys] [Hlen Hall];
    simpl in *; try reflexivity; try discriminate.
  apply andb_true_iff in Hall as [Hxy Hall]. apply Z.eqb_eq in Hxy.
  subst y. f_equal. apply IH. split; [lia | exact Hall].
Qed.

(** Decryption undoes encryption under the same key, nonce and
    additional data. *)
Lemma decrypt_encrypt (iv aad pt : list Z) :
  Gcm.decrypt E iv aad (Gcm.encrypt E iv aad pt) = Some pt.
Proof.
  unfold Gcm.decrypt, Gcm.encrypt.
  set (ct := Gcm.gctr E (Gcm.inc32 (Gcm.j0 E iv)) pt).
  assert (Hlen : length (ct ++ Gcm.tag E iv aad ct) = (length ct + 16)%nat)
    by now rewrite length_app, length_tag.
  rewrite Hlen.
  replace (length ct + 16 - 16)%nat with (length ct) by lia.
  destruct (Nat.ltb_spec (length ct + 16) 16) as [H|_]; [lia|].
  rewrite take_app_length, drop_app_length, bytes_eqb_refl.
  unfold ct. now rewrite gctr_involutive.
Qed.

End Mode.
End GcmFacts.

Module EncryptionManagerFacts.
Import Subtle EncryptionManager.

(** *** Key derivation *)

Lemma generateKeyFromPin_salt (pin : string) (salt : list Z) (g : Rng) :
  generateKeyFromPin pin (Some salt) g = (Ok (derived_key pin salt, salt), g).
Proof. reflexivity. Qed.

Lemma generateKeyFromPin_fresh (pin : string) (g : Rng) :
  generateKeyFromPin pin None g =
  (Ok (derived_key pin (fst (getRandomValues 16 g)),
       fst (getRandomValues 16 g)),
   snd (getRandomValues 16 g)).
Proof. reflexivity. Qed.

(** *** hashPin and verifyPin *)

(** The derived key is not extractable, so exporting it throws. *)
Lemma exportKey_derived (pin : string) (salt : list Z) :
  exportKey_raw (derived_key pin salt) =
  Throw (DOMException "InvalidAccessError").
Proof. reflexivity. Qed.

Lemma hashPin_throws (pin : string) (g : Rng) :
  hashPin pin g =
  (Throw (DOMException "InvalidAccessError"), snd (getRandomValues 16 g)).
Proof. reflexivity. Qed.

Lemma verifyPin_false (pin storedHash : string) (g : Rng) :
  verifyPin pin storedHash g = (Ok false, g).
Proof.
  unfold verifyPin, try_catch, bind, lift.
  destruct (base64ToArrayBuffer storedHash) as [combined|e];
    [|reflexivity].
  rewrite generateKeyFromPin_salt. reflexivity.
Qed.

(** C4 (the code fails the claim).  [generateKeyFromPin] derives a key
    that is not extractable, so [exportKey] throws in both methods:
    [hashPin] throws [InvalidAccessError] for every PIN, among them the
    valid PIN 1357, and produces no hash; [verifyPin] catches the same
    exception and answers [false] for every PIN and every stored hash. *)
Theorem hashPin_throws_and_verifyPin_rejects :
  PinValidator.isValid (PinValidator.validatePin "1357") = true /\
  (forall pin g, fst (hashPin pin g) =
                 Throw (DOMException "InvalidAccessError")) /\
  (forall pin storedHash g, verifyPin pin storedHash g = (Ok false, g)).
Proof.
  split; [reflexivity|]. split.
  - intros pin g. now rewrite hashPin_throws.
  - exact verifyPin_false.
Qed.

(** The comparison that [verifyPin] never reaches is an equality test. *)
Lemma compare_fold (xs ys : list Z) (n k : nat) (acc : Z) :
  fold_left (fun result i =>
               Z.lor result (Z.lxor (nth i xs 0%Z) (nth i ys 0%Z)))
            (seq k n) acc = 0%Z <->
  acc = 0%Z /\ forall i, (k <= i < k + n)%nat -> nth i xs 0%Z = nth i ys 0%Z.
Proof.
  revert k acc. induction n as [|n IH]; intros k acc; cbn [seq fold_left].
  - split; [intros ->; split; [reflexivity | intros; lia] | tauto].
  - rewrite IH, Z.lor_eq_0_iff, Z.lxor_eq_0_iff. split.
    + intros [[Hacc Hk] Hrest]. split; [exact Hacc|].
      intros i Hi. destruct (Nat.eq_dec i k) as [->|Hne]; [exact Hk|].
      apply Hrest. lia.
    + intros [Hacc Hall]. repeat split; [exact Hacc | apply Hall; lia |].
      intros i Hi. apply Hall. lia.
Qed.

(** The loop leaves zero exactly when the two arrays are equal. *)
Lemma compare_loop_zero_iff (xs ys : list Z) :
  length xs = length ys -> (compare_loop xs ys = 0%Z <-> xs = ys).
Proof.
  intros Hlen. unfold compare_loop. rewrite compare_fold. split.
  - intros [_ Hall]. apply (nth_ext _ _ 0%Z 0%Z Hlen).
    intros i Hi. apply Hall. lia.
  - intros ->. split; [reflexivity|]. reflexivity.
Qed.

(** *** encryptFile and decryptFile *)

Lemma encryptFile_eq (fileData : list Z) (pin : string) (g : Rng) :
  let salt := fst (getRandomValues 16 g) in
  let g1 := snd (getRandomValues 16 g) in
  let iv := fst (getRandomValues 12 g1) in
  encryptFile fileData pin g =
  (Ok (mkEncrypted
         (Gcm.encrypt (Aes.encrypt_block (handle (derived_key pin salt)))
                      iv [] fileData)
         salt iv),
   snd (getRandomValues 12 g1)).
Proof. reflexivity. Qed.

Lemma decryptFile_eq (data : list Z) (pin : string) (salt iv : list Z)
    (g : Rng) :
  decryptFile data pin salt iv g =
  match Gcm.decrypt (Aes.encrypt_block (handle (derived_key pin salt)))
                    iv [] data with
  | Some pt => (Ok pt, g)
  | None => (Throw (JsError DECRYPTION_FAILED), g)
  end.
Proof.
  unfold decryptFile, bind. rewrite generateKeyFromPin_salt.
  unfold try_catch, bind, lift, decrypt_AES_GCM.
  change (algorithm (derived_key pin salt)) with (AES_GCM 256).
  change (has_usage decrypt_usage (derived_key pin salt)) with true.
  cbv iota.
  destruct (Gcm.decrypt _ iv [] data); reflexivity.
Qed.

Lemma length_getRandomValues (n : nat) (g : Rng) :
  length (fst (getRandomValues n g)) = n.
Proof.
  unfold getRandomValues. cbn [fst]. now rewrite length_map, length_seq.
Qed.

(** C5. For every PIN and every byte payload, [encryptFile] returns a
    ciphertext with a fresh 16-byte salt and a fresh 12-byte nonce, and
    [decryptFile] on that ciphertext with the same PIN, that salt and
    that nonce returns the payload exactly. *)
Theorem encryptFile_decryptFile_roundtrip
    (b : list Z) (pin : string) (g : Rng) :
  exists enc g',
    encryptFile b pin g = (Ok enc, g') /\
    length (salt enc) = 16%nat /\ length (iv enc) = 12%nat /\
    forall g'', decryptFile (encryptedData enc) pin (salt enc) (iv enc) g''
                = (Ok b, g'').
Proof.
  eexists _, _. split; [apply encryptFile_eq|]. cbn [salt iv encryptedData].
  split; [apply length_getRandomValues|].
  split; [apply length_getRandomValues|].
  intros g''. rewrite decryptFile_eq.
  rewrite GcmFacts.decrypt_encrypt. reflexivity.
Qed.

Lemma hmac_key_block_zero (key : list Z) :
  (length key < 64)%nat ->
  Pbkdf2.hmac_key_block (key ++ [0%Z]) = Pbkdf2.hmac_key_block key.
Proof.
  intros Hlen. unfold Pbkdf2.hmac_key_block. rewrite length_app. cbn [length].
  destruct (Nat.ltb_spec 64 (length key + 1)) as [H|_]; [lia|].
  destruct (Nat.ltb_spec 64 (length key)) as [H|_]; [lia|].
  rewrite length_app. cbn [length]. rewrite <- app_assoc. f_equal.
  replace (64 - length key)%nat with (S (64 - (length key + 1))) by lia.
  reflexivity.
Qed.

Lemma pbkdf2_trailing_zero (pw salt : list Z) (c : N) (n : nat) :
  (length pw < 64)%nat ->
  Pbkdf2.pbkdf2 (pw ++ [0%Z]) salt c n = Pbkdf2.pbkdf2 pw salt c n.
Proof.
  intros Hlen. unfold Pbkdf2.pbkdf2.
  rewrite hmac_key_block_zero by exact Hlen. reflexivity.
Qed.

Lemma TextEncoder_encode_NUL (pin : string) :
  TextEncoder_encode (pin +:+ NUL) = TextEncoder_encode pin ++ [0%Z].
Proof.
  unfold TextEncoder_encode. induction pin as [|c pin IH].
  - reflexivity.
  - change (String c pin +:+ NUL) with (String c (pin +:+ NUL)).
    cbn [list_ascii_of_string map concat]. rewrite IH. now rewrite app_assoc.
Qed.

Lemma derived_key_NUL (pin : string) (salt : list Z) :
  (length (TextEncoder_encode pin) < 64)%nat ->
  derived_key (pin +:+ NUL) salt = derived_key pin salt.
Proof.
  intros Hlen. unfold derived_key.
  rewrite TextEncoder_encode_NUL.
  rewrite pbkdf2_trailing_zero by exact Hlen. reflexivity.
Qed.

Lemma Ok_pair_inj {A S} (x y : A) (s t : S) :
  (Ok x, s) = (Ok y, t) -> x = y /\ s = t.
Proof.
  intros H. split.
  - exact (f_equal (fun r => match fst r with Ok a => a | Throw _ => x end) H).
  - exact (f_equal snd H).
Qed.

Lemma decryptFile_same_key (b : list Z) (p1 p2 : string) (g : Rng)
    (enc : Encrypted) (g' : Rng) :
  encryptFile b p1 g = (Ok enc, g') ->
  derived_key p2 (salt enc) = derived_key p1 (salt enc) ->
  forall g'', decryptFile (encryptedData enc) p2 (salt enc) (iv enc) g''
              = (Ok b, g'').
Proof.
  intros Henc Hkey g''. rewrite encryptFile_eq in Henc.
  apply Ok_pair_inj in Henc as [<- _]. cbn [salt iv encryptedData] in *.
  rewrite decryptFile_eq, Hkey.
  rewrite GcmFacts.decrypt_encrypt. reflexivity.
Qed.

(** C6 (as stated, refuted).  The payload encrypted under the PIN 1357
    decrypts under the different PIN made of 1357 and a NUL character:
    PBKDF2-HMAC fills the password with zeros, so both derive one key. *)
Lemma decryptFile_accepts_another_pin :
  let g := mkRng (fun i => Z.of_nat i) 0 in
  let b := [104; 105]%Z in
  "1357" +:+ NUL <> "1357" /\
  exists enc g',
    encryptFile b "1357" g = (Ok enc, g') /\
    decryptFile (encryptedData enc) ("1357" +:+ NUL) (salt enc) (iv enc) g'
    = (Ok b, g').
Proof.
  intros g b. split; [discriminate|].
  eexists _, _. split; [apply encryptFile_eq|].
  eapply decryptFile_same_key; [apply encryptFile_eq|].
  apply derived_key_NUL. vm_compute. lia.
Qed.

(** C6 (amended).  [decryptFile] fails exactly when the input is shorter
    than a tag or the authentication tag does not verify under the key
    derived from the given PIN and salt, and then always with the one
    error "Decryption failed - invalid PIN or corrupted data", whatever
    the cause.  A PIN that derives the key of the encrypting PIN under
    the stored salt decrypts the payload, and a PIN followed by a NUL
    character is such a PIN. *)
Theorem decryptFile_fails_on_tag_mismatch_only :
  (forall data pin salt iv g,
     decryptFile data pin salt iv g =
     match Gcm.decrypt (Aes.encrypt_block (handle (derived_key pin salt)))
                       iv [] data with
     | Some pt => (Ok pt, g)
     | None => (Throw (JsError DECRYPTION_FAILED), g)
     end) /\
  (forall b p1 p2 g enc g',
     encryptFile b p1 g = (Ok enc, g') ->
     derived_key p2 (salt enc) = derived_key p1 (salt enc) ->
     forall g'', decryptFile (encryptedData enc) p2 (salt enc) (iv enc) g''
                 = (Ok b, g'')) /\
  (forall pin salt,
     (length (TextEncoder_encode pin) < 64)%nat ->
     derived_key (pin +:+ NUL) salt = derived_key pin salt).
Proof.
  split; [exact decryptFile_eq|].
  split; [exact decryptFile_same_key | exact derived_key_NUL].
Qed.

Lemma decryptFile_fails_on_tag_mismatch_only_witness :
  derived_key ("1357" +:+ NUL) [1; 2; 3]%Z = derived_key "1357" [1; 2; 3]%Z.
Proof.
  apply (proj2 (proj2 decryptFile_fails_on_tag_mismatch_only)).
  vm_compute. lia.
Defined.

End EncryptionManagerFacts.

(** From here on no proof step evaluates the primitives. *)
Opaque Pbkdf2.pbkdf2 Gcm.encrypt Gcm.decrypt Aes.encrypt_block
       EncryptionManager.encryptFile EncryptionManager.decryptFile.

(** ** The PIN policy *)

Module PinValidatorFacts.
Import PinValidator.

(** *** Regular expressions *)

Lemma all_chars_In (p : ascii -> bool) (s : string) :
  all_chars p s = true <->
  forall c, In c (list_ascii_of_string s) -> p c = true.
Proof.
  induction s as [|a s IH]; simpl.
  - split; [intros _ c [] | reflexivity].
  - rewrite andb_true_iff, IH. split.
    + intros [Ha Hs] c [<-|Hc]; auto.
    + intros H; split; [apply H; now left | intros c Hc; apply H; now right].
Qed.

Lemma test_digits_spec (pin : string) :
  test ReDigits pin = true <-> digits_only pin.
Proof.
  unfold digits_only. destruct pin as [|a s].
  - simpl. split; [discriminate | intros [H _]; congruence].
  - cbn [test]. rewrite all_chars_In. split.
    + intros H; split; [discriminate | exact H].
    + intros [_ H]; exact H.
Qed.

Lemma all_chars_repeat (c : ascii) (s : string) :
  all_chars (Ascii.eqb c) s = true <-> s = repeat_char c (String.length s).
Proof.
  induction s as [|a s IH]; simpl.
  - split; reflexivity.
  - rewrite andb_true_iff, IH, Ascii.eqb_eq. split.
    + intros [-> Hs]. now rewrite <- Hs.
    + intros H. injection H as Ha Hs. auto.
Qed.

Lemma length_repeat_char (c : ascii) (n : nat) :
  String.length (repeat_char c n) = n.
Proof. induction n; simpl; congruence. Qed.

Lemma test_same_char_spec (pin : string) :
  test ReSameChar pin = true <->
  exists c n, (2 <= n)%nat /\ is_line_terminator c = false /\
              pin = repeat_char c n.
Proof.
  split.
  - destruct pin as [|c [|d s]]; try discriminate. cbn [test].
    rewrite andb_true_iff, negb_true_iff, all_chars_repeat.
    intros [Hlt Hrep]. exists c, (S (String.length (String d s))).
    repeat split; [simpl; lia | exact Hlt | ].
    cbn [repeat_char]. now rewrite <- Hrep.
  - intros (c & n & Hn & Hlt & ->).
    destruct n as [|[|n]]; try lia. cbn [repeat_char test].
    rewrite Hlt. cbn [negb andb].
    apply all_chars_repeat. cbn [String.length].
    now rewrite length_repeat_char.
Qed.

Lemma append_cons (a : ascii) (s t : string) :
  String a s +:+ t = String a (s +:+ t).
Proof. reflexivity. Qed.

Lemma append_nil (t : string) : "" +:+ t = t.
Proof. reflexivity. Qed.

Lemma prefix_spec (lit s : string) :
  String.prefix lit s = true <-> exists rest, s = lit +:+ rest.
Proof.
  revert s. induction lit as [|a lit IH]; intros s.
  - destruct s; simpl; (split; [intros _; now eexists | reflexivity]).
  - destruct s as [|b s]; simpl.
    + split; [discriminate|].
      intros [rest H]; rewrite append_cons in H; discriminate.
    + destruct (ascii_dec a b) as [->|Hne].
      * rewrite IH.
        split; intros [rest H]; exists rest; rewrite append_cons in *;
          congruence.
      * split; [discriminate|].
        intros [rest H]; rewrite append_cons in H; congruence.
Qed.

(** The source's pattern list says what the specification says. *)
Lemma isWeakPin_spec (pin : string) :
  isWeakPin pin = true <-> weak_spec pin.
Proof.
  unfold isWeakPin, weak_spec. rewrite existsb_exists. split.
  - intros (re & Hin & Ht). unfold weakPatterns in Hin.
    destruct Hin as [<-|Hin].
    + left. now apply test_same_char_spec.
    + right. cbn [In] in Hin.
      repeat (destruct Hin as [<-|Hin];
              [eexists; split; [|apply prefix_spec; exact Ht];
               unfold asc_runs, desc_runs; cbn; tauto|]).
      destruct Hin.
  - intros [H|(run & Hin & H)].
    + exists ReSameChar. split; [now left | now apply test_same_char_spec].
    + exists (ReStartsWith run). split; [|now apply prefix_spec].
      unfold asc_runs, desc_runs in Hin. cbn in Hin. unfold weakPatterns.
      repeat (destruct Hin as [<-|Hin]; [cbn; tauto|]). destruct Hin.
Qed.

Lemma isWeakPin_false_spec (pin : string) :
  isWeakPin pin = false <-> ~ weak_spec pin.
Proof.
  rewrite <- isWeakPin_spec. destruct (isWeakPin pin); split; congruence.
Qed.

(** *** validatePin *)

(** C7. For every candidate PIN, [validatePin] reports each violated rule
    and only those: the too-short message exactly when the length is below
    4, the too-long message exactly when it is above 20, the digits message
    exactly when the PIN is not a non-empty string of digits, and the
    weak-pattern message exactly when all its characters are identical or
    it starts with one of the ascending runs 0123..6789 or descending runs
    9876..3210; the PIN is valid exactly when no rule is violated.  In
    particular 1234, 0000 and 9876 are rejected with the weak-pattern
    message and 1357 is valid. *)
Theorem validatePin_reports_every_violation (pin : string) :
  let r := validatePin pin in
  (In ERR_SHORT (errors r) <-> (String.length pin < 4)%nat) /\
  (In ERR_LONG (errors r) <-> (20 < String.length pin)%nat) /\
  (In ERR_DIGITS (errors r) <-> ~ digits_only pin) /\
  (In ERR_WEAK (errors r) <-> weak_spec pin) /\
  (isValid r = true <->
     (4 <= String.length pin <= 20)%nat /\ digits_only pin /\
     ~ weak_spec pin) /\
  validatePin "1234" = mkValidation false [ERR_WEAK] /\
  validatePin "0000" = mkValidation false [ERR_WEAK] /\
  validatePin "9876" = mkValidation false [ERR_WEAK] /\
  validatePin "1357" = mkValidation true [].
Proof.
  cbv zeta. rewrite <- test_digits_spec, <- isWeakPin_spec.
  assert (Hfalsy : falsy pin || (String.length pin <? 4)%nat
                   = (String.length pin <? 4)%nat)
    by (destruct pin; reflexivity).
  unfold validatePin. rewrite Hfalsy.
  destruct (Nat.ltb_spec (String.length pin) 4) as [H4|H4];
    destruct (Nat.ltb_spec 20 (String.length pin)) as [H20|H20];
    destruct (test ReDigits pin); destruct (isWeakPin pin);
    cbn -[Nat.ltb];
    repeat split; try reflexivity; try lia; try congruence;
    try tauto;
    try (intros H; repeat destruct H as [H|H]; try discriminate H; tauto);
    try (intros H; exfalso; lia);
    try (intros H; exfalso; tauto).
Qed.

(** *** generateSecurePin *)

Lemma isValid_iff (pin : string) :
  isValid (validatePin pin) = true <->
  (4 <= String.length pin <= 20)%nat /\ test ReDigits pin = true /\
  isWeakPin pin = false.
Proof.
  assert (Hfalsy : falsy pin || (String.length pin <? 4)%nat
                   = (String.length pin <? 4)%nat)
    by (destruct pin; reflexivity).
  unfold validatePin. rewrite Hfalsy.
  destruct (Nat.ltb_spec (String.length pin) 4);
    destruct (Nat.ltb_spec 20 (String.length pin));
    destruct (test ReDigits pin); destruct (isWeakPin pin);
    cbn -[Nat.ltb]; split; try discriminate; try reflexivity;
    try (intros (? & ? & ?); first [lia | discriminate]);
    intros _; repeat split; lia.
Qed.

Lemma get_digit (n : nat) :
  (n < 10)%nat -> String.get n digits = Some (ascii_of_nat (48 + n)).
Proof. intros H. do 10 (destruct n as [|n]; [reflexivity|]). lia. Qed.

Lemma is_digit_digit_char (b : Z) : is_digit (digit_char b) = true.
Proof.
  unfold digit_char.
  assert (H : (Z.to_nat (b mod 10) < 10)%nat)
    by (pose proof (Z.mod_pos_bound b 10); lia).
  revert H. generalize (Z.to_nat (b mod 10)). intros n H.
  do 10 (destruct n as [|n]; [reflexivity|]). lia.
Qed.

Lemma draw_digit_eq (pin : string) (g : Rng) :
  draw_digit (pin, g) =
  (pin +:+ String (digit_char (u8 (tape g (cursor g)))) "",
   mkRng (tape g) (S (cursor g))).
Proof.
  unfold draw_digit, getRandomValues. cbn [seq map nth].
  rewrite Nat.add_0_r, Nat.add_1_r.
  change (Z.of_nat (String.length digits)) with 10%Z.
  rewrite get_digit; [reflexivity|].
  pose proof (Z.mod_pos_bound (u8 (tape g (cursor g))) 10). lia.
Qed.

(** The loop draws six consecutive bytes of the tape. *)
Lemma draw_pin_eq (g : Rng) :
  draw_pin g = (pin_of_bytes (fst (getRandomValues 6 g)),
                snd (getRandomValues 6 g)).
Proof.
  unfold draw_pin, Nat.iter. cbn [nat_rect]. rewrite !draw_digit_eq.
  cbn [tape cursor]. unfold getRandomValues, pin_of_bytes.
  cbn [fst snd seq map string_of_list_ascii].
  rewrite !append_nil, !append_cons, !append_nil.
  rewrite !append_cons, !append_nil. rewrite !append_cons, !append_nil.
  repeat rewrite ?append_cons, ?append_nil.
  rewrite Nat.add_0_r. repeat f_equal; lia.
Qed.

Lemma length_pin_of_bytes (bs : list Z) :
  String.length (pin_of_bytes bs) = length bs.
Proof. unfold pin_of_bytes. induction bs; simpl; congruence. Qed.

Lemma digits_pin_of_bytes (bs : list Z) :
  bs <> [] -> test ReDigits (pin_of_bytes bs) = true.
Proof.
  intros Hne. destruct bs as [|b bs]; [congruence|].
  unfold pin_of_bytes. cbn [map string_of_list_ascii test].
  change (String (digit_char b) (string_of_list_ascii (map digit_char bs)))
    with (string_of_list_ascii (map digit_char (b :: bs))).
  generalize (b :: bs). intros l. induction l as [|x l IH]; [reflexivity|].
  cbn [map string_of_list_ascii all_chars].
  now rewrite is_digit_digit_char, IH.
Qed.

Lemma iter_shift {A} (f : A -> A) (k : nat) (x : A) :
  Nat.iter k f (f x) = Nat.iter (S k) f x.
Proof. induction k; simpl in *; congruence. Qed.

Lemma byte_preimages_values :
  forall d, (0 <= d < 10)%Z ->
    byte_preimages d = if (d <? 6)%Z then 26%nat else 25%nat.
Proof.
  intros d Hd.
  assert (Hc : (d = 0 \/ d = 1 \/ d = 2 \/ d = 3 \/ d = 4 \/ d = 5 \/
                d = 6 \/ d = 7 \/ d = 8 \/ d = 9)%Z) by lia.
  repeat (destruct Hc as [->|Hc]; [vm_compute; reflexivity|]).
  subst d. vm_compute. reflexivity.
Qed.

(** A successful call returns the first draw that is not weak. *)
Lemma generateSecurePin_some (fuel : nat) :
  forall g pin g', generateSecurePin fuel g = Some (pin, g') ->
    exists k, (k < fuel)%nat /\
      pin = pin_of_bytes (fst (getRandomValues 6 (Nat.iter k skip_draw g))) /\
      g' = Nat.iter (S k) skip_draw g /\
      isWeakPin pin = false.
Proof.
  induction fuel as [|fuel IH]; intros g pin g' H; [discriminate|].
  cbn [generateSecurePin] in H.
  destruct (draw_pin g) as [p g1] eqn:Hd.
  destruct (isWeakPin p) eqn:Hw.
  - apply IH in H as (k & Hk & Hp & Hg & Hweak).
    assert (Hg1 : g1 = skip_draw g) by (unfold skip_draw; now rewrite Hd).
    subst g1. rewrite !iter_shift in *.
    exists (S k). repeat split; auto. lia.
  - injection H as <- <-. exists 0%nat.
    change (Nat.iter 0 skip_draw g) with g.
    change (Nat.iter 1 skip_draw g) with (skip_draw g).
    unfold skip_draw. rewrite Hd. rewrite draw_pin_eq in Hd.
    injection Hd as Hp Hg. repeat split; auto. lia.
Qed.

(** A draw that is not weak within the recursion bound is returned. *)
Lemma generateSecurePin_returns (fuel : nat) :
  forall g k, (k < fuel)%nat ->
    isWeakPin (fst (draw_pin (Nat.iter k skip_draw g))) = false ->
    exists pin g', generateSecurePin fuel g = Some (pin, g').
Proof.
  induction fuel as [|fuel IH]; intros g k Hk Hs; [lia|].
  cbn [generateSecurePin].
  destruct (draw_pin g) as [p g1] eqn:Hd.
  destruct (isWeakPin p) eqn:Hw; [|eauto].
  destruct k as [|k].
  - change (Nat.iter 0 skip_draw g) with g in Hs.
    rewrite Hd in Hs. cbn [fst] in Hs. congruence.
  - apply (IH g1 k); [lia|].
    rewrite <- iter_shift in Hs. unfold skip_draw in Hs at 2.
    now rewrite Hd in Hs.
Qed.

(** On a tape of zeros every draw is 000000, and no depth suffices. *)
Lemma generateSecurePin_can_exhaust (fuel : nat) (n : nat) :
  generateSecurePin fuel (mkRng (fun _ => 0%Z) n) = None.
Proof.
  revert n. induction fuel as [|fuel IH]; intros n; [reflexivity|].
  cbn [generateSecurePin]. rewrite draw_pin_eq.
  unfold getRandomValues. cbn [fst snd tape cursor].
  change (isWeakPin _) with true. cbn iota. apply IH.
Qed.

(** C8 (as stated, refuted).  The digit is the random byte modulo ten:
    26 byte values select the digit 0 and only 25 select the digit 9, so
    the ten digits are not equally likely. *)
Lemma generateSecurePin_digits_not_uniform :
  byte_preimages 0 = 26%nat /\ byte_preimages 9 = 25%nat /\
  ~ uniform_digits.
Proof.
  split; [reflexivity|]. split; [reflexivity|].
  intros H. specialize (H 0%Z 9%Z ltac:(lia) ltac:(lia)).
  vm_compute in H. discriminate H.
Qed.

(** The draw number [k] of a call that starts on [g]. *)
Lemma draw_pin_iter (g : Rng) (k : nat) :
  fst (draw_pin (Nat.iter k skip_draw g))
  = pin_of_bytes (fst (getRandomValues 6 (Nat.iter k skip_draw g))).
Proof. now rewrite draw_pin_eq. Qed.

(** The first draw that is not weak is what the call returns, with the
    random source as that draw left it. *)
Lemma generateSecurePin_first (fuel : nat) :
  forall g k, (k < fuel)%nat ->
    (forall j, (j < k)%nat ->
       isWeakPin (fst (draw_pin (Nat.iter j skip_draw g))) = true) ->
    isWeakPin (fst (draw_pin (Nat.iter k skip_draw g))) = false ->
    generateSecurePin fuel g
    = Some (fst (draw_pin (Nat.iter k skip_draw g)),
            Nat.iter (S k) skip_draw g).
Proof.
  induction fuel as [|fuel IH]; intros g k Hk Hweak Hs; [lia|].
  cbn [generateSecurePin].
  destruct (draw_pin g) as [p g1] eqn:Hd.
  assert (Hg1 : skip_draw g = g1) by (unfold skip_draw; now rewrite Hd).
  destruct k as [|k].
  - change (Nat.iter 0 skip_draw g) with g in Hs.
    rewrite Hd in Hs. cbn [fst] in Hs. rewrite Hs.
    change (Nat.iter 0 skip_draw g) with g.
    change (Nat.iter 1 skip_draw g) with (skip_draw g).
    rewrite Hd, Hg1. reflexivity.
  - pose proof (Hweak 0%nat ltac:(lia)) as H0.
    change (Nat.iter 0 skip_draw g) with g in H0.
    rewrite Hd in H0. cbn [fst] in H0. rewrite H0.
    rewrite <- (iter_shift skip_draw k g), Hg1 in Hs.
    rewrite <- (iter_shift skip_draw k g), <- (iter_shift skip_draw (S k) g),
      Hg1.
    apply IH; [lia | | exact Hs].
    intros j Hj. specialize (Hweak (S j) ltac:(lia)).
    now rewrite <- (iter_shift skip_draw j g), Hg1 in Hweak.
Qed.

(** What a call returns is its first draw that is not weak. *)
Lemma generateSecurePin_some_first (fuel : nat) :
  forall g pin g', generateSecurePin fuel g = Some (pin, g') ->
    exists k, (k < fuel)%nat /\
      (forall j, (j < k)%nat ->
         isWeakPin (fst (draw_pin (Nat.iter j skip_draw g))) = true) /\
      isWeakPin (fst (draw_pin (Nat.iter k skip_draw g))) = false /\
      pin = fst (draw_pin (Nat.iter k skip_draw g)) /\
      g' = Nat.iter (S k) skip_draw g.
Proof.
  induction fuel as [|fuel IH]; intros g pin g' H; [discriminate|].
  cbn [generateSecurePin] in H.
  destruct (draw_pin g) as [p g1] eqn:Hd.
  assert (Hg1 : skip_draw g = g1) by (unfold skip_draw; now rewrite Hd).
  destruct (isWeakPin p) eqn:Hw.
  - apply IH in H as (k & Hk & Hweak & Hs & Hp & Hg).
    exists (S k).
    rewrite <- (iter_shift skip_draw k g), <- (iter_shift skip_draw (S k) g),
      Hg1.
    split; [lia|]. split; [|auto].
    intros [|j] Hj.
    + change (Nat.iter 0 skip_draw g) with g. now rewrite Hd.
    + rewrite <- (iter_shift skip_draw j g), Hg1. apply Hweak. lia.
  - injection H as <- <-. exists 0%nat.
    change (Nat.iter 0 skip_draw g) with g.
    change (Nat.iter 1 skip_draw g) with (skip_draw g).
    rewrite Hd, Hg1. cbn [fst].
    split; [lia|]. split; [intros j Hj; lia|]. auto.
Qed.

(** C8 (amended).  Each digit of a draw is a fresh random byte modulo ten,
    so the digits 0 to 5 are selected by 26 of the 256 byte values and the
    digits 6 to 9 by 25.  A draw that is weak is discarded and the next
    six bytes are drawn.  Whatever [generateSecurePin] returns is the
    first draw that is not weak, every draw before it being weak: a
    string of six digits that matches no weak pattern and passes
    [validatePin].  It returns that draw as soon as some draw within the
    recursion bound is not weak. *)
Theorem generateSecurePin_returns_strong_pin :
  (forall d, (0 <= d < 10)%Z ->
     byte_preimages d = if (d <? 6)%Z then 26%nat else 25%nat) /\
  (forall fuel g pin g', generateSecurePin fuel g = Some (pin, g') ->
     (exists k, (k < fuel)%nat /\
        (forall j, (j < k)%nat ->
           isWeakPin (pin_of_bytes
             (fst (getRandomValues 6 (Nat.iter j skip_draw g)))) = true) /\
        pin = pin_of_bytes
                (fst (getRandomValues 6 (Nat.iter k skip_draw g))) /\
        g' = Nat.iter (S k) skip_draw g) /\
     String.length pin = 6%nat /\ digits_only pin /\
     isWeakPin pin = false /\ isValid (validatePin pin) = true) /\
  (forall fuel g k, (k < fuel)%nat ->
     (forall j, (j < k)%nat ->
        isWeakPin (pin_of_bytes
          (fst (getRandomValues 6 (Nat.iter j skip_draw g)))) = true) ->
     isWeakPin (pin_of_bytes
       (fst (getRandomValues 6 (Nat.iter k skip_draw g)))) = false ->
     generateSecurePin fuel g
     = Some (pin_of_bytes (fst (getRandomValues 6 (Nat.iter k skip_draw g))),
             Nat.iter (S k) skip_draw g)) /\
  (forall fuel g k, (k < fuel)%nat ->
     isWeakPin (fst (draw_pin (Nat.iter k skip_draw g))) = false ->
     exists pin g', generateSecurePin fuel g = Some (pin, g')).
Proof.
  split; [exact byte_preimages_values|]. split; [|split].
  - intros fuel g pin g' H.
    apply generateSecurePin_some_first in H
      as (k & Hk & Hweak & Hs & Hp & Hg).
    rewrite draw_pin_iter in Hp, Hs.
    assert (Hlen : String.length pin = 6%nat)
      by (rewrite Hp, length_pin_of_bytes; reflexivity).
    assert (Hdig : test ReDigits pin = true)
      by (rewrite Hp; apply digits_pin_of_bytes; discriminate).
    assert (Hw : isWeakPin pin = false) by (rewrite Hp; exact Hs).
    split.
    { exists k. split; [exact Hk|]. split; [|auto].
      intros j Hj. rewrite <- draw_pin_iter. apply Hweak, Hj. }
    split; [exact Hlen|].
    split; [now apply test_digits_spec|]. split; [exact Hw|].
    apply isValid_iff. rewrite Hlen. repeat split; auto; lia.
  - intros fuel g k Hk Hweak Hs. rewrite <- draw_pin_iter.
    apply generateSecurePin_first; [exact Hk | | now rewrite draw_pin_iter].
    intros j Hj. rewrite draw_pin_iter. apply Hweak, Hj.
  - exact generateSecurePin_returns.
Qed.

(** The entropy tape of six zeros, then 1, 3, 5, 7, 9, 2: the first draw,
    000000, is weak and discarded; the second, 135792, is returned. *)
Lemma generateSecurePin_returns_strong_pin_witness :
  generateSecurePin 2
    (mkRng (fun i => nth i [0; 0; 0; 0; 0; 0; 1; 3; 5; 7; 9; 2]%Z 0%Z) 0)
  = Some ("135792",
          mkRng (fun i => nth i [0; 0; 0; 0; 0; 0; 1; 3; 5; 7; 9; 2]%Z 0%Z)
                12).
Proof.
  rewrite (proj1 (proj2 (proj2 generateSecurePin_returns_strong_pin))
             2%nat _ 1%nat); [reflexivity | lia | | reflexivity].
  intros j Hj. replace j with 0%nat by lia. reflexivity.
Defined.

End PinValidatorFacts.

(** ** Running a handler *)

(** Unfold the monad and the state plumbing, nothing else. *)
Ltac exec :=
  cbv beta iota zeta delta
      [bind ret throw try_catch get_state modify zoom io crypto Date_now
       console_error fst snd
       VaultStorage.request VaultStorage.storeFile VaultStorage.getFile
       VaultStorage.getAllFiles VaultStorage.deleteFile
       VaultStorage.storePinConfig VaultStorage.getPinConfig
       VaultStorage.endSession VaultStorage.setMetadata
       VaultStorage.createSession
       VaultStorage.getMetadata
       setPinConfig setIsUnlocked setCurrentPin setIsLoading setError
       setAttempts setIsLockedOut setLockoutTime setFiles setCurrentSession
       set_interval setUploadProgress setSelectedFile setManagerError
       set_vault set_manager set_env set_db set_clock set_rng set_faults
       log_error log_call set_files set_pinConfig set_sessions set_metadata
       vault manager env db clock rng faults console calls
       files pinConfig sessions metadata
       st_pinConfig st_isUnlocked st_currentPin st_isLoading st_error
       st_attempts st_isLockedOut st_lockoutTime st_files st_currentSession
       st_interval fm_uploadProgress fm_selectedFile fm_error].

(** Split the fault schedule of a reliable world into its first
    requests, all of which succeed. *)
Ltac no_fault H fs :=
  try unfold reliable in H;
  destruct fs as [|[|] fs]; cbn [faults firstn] in H;
  [ clear H
  | apply Forall_cons in H as [H _]; discriminate H
  | apply Forall_cons in H as [_ H] ].

(** ** The vault store *)

Module VaultStorageFacts.
Import VaultStorage Samples.

(** *** Requests *)

(** *** Listing a store *)

Lemma insert_by_key_In {A} (record x : string * A) (l : list (string * A)) :
  In x (insert_by_key record l) <-> x = record \/ In x l.
Proof.
  induction l as [|first rest IH]; cbn [insert_by_key In].
  - split; intros [H|[]]; left; congruence.
  - destruct (String.leb record.1 first.1); cbn [In]; [|rewrite IH];
      intuition congruence.
Qed.

(** [getAll] lists exactly the records of the store. *)
Lemma getAll_spec {A} (store : gmap string A) (x : A) :
  In x (getAll store) <-> exists k, store !! k = Some x.
Proof.
  unfold getAll. rewrite in_map_iff.
  assert (H : forall kv : string * A,
            In kv (fold_right insert_by_key [] (map_to_list store)) <->
            In kv (map_to_list store)).
  { intros kv. induction (map_to_list store) as [|r l IH];
      cbn [fold_right]; [reflexivity|].
    rewrite insert_by_key_In, IH. cbn [In]. intuition congruence. }
  split.
  - intros ([k v] & <- & Hin). exists k. apply H in Hin.
    apply elem_of_map_to_list, list_elem_of_In, Hin.
  - intros (k & Hk). exists (k, x). split; [reflexivity|].
    apply H, list_elem_of_In, elem_of_map_to_list, Hk.
Qed.

Lemma getAll_In {A} (store : gmap string A) (k : string) (x : A) :
  store !! k = Some x -> In x (getAll store).
Proof. intros H. apply getAll_spec. eauto. Qed.

(** The records come in the order of their keys. *)
Example getAll_in_key_order :
  getAll ({["b" := 1%nat]} ∪ {["a" := 2%nat]} ∪ {["ab" := 3%nat]}
          ∪ {["B" := 4%nat]} : gmap string nat)
  = [4; 2; 3; 1]%nat.
Proof. reflexivity. Qed.

Lemma reliable_S (n : nat) (e : Env) :
  reliable (S n) e ->
  request e = (Ok tt, set_faults (tail (faults e)) e) /\
  reliable n (set_faults (tail (faults e)) e).
Proof.
  unfold reliable, request. destruct e as [d c g fs co ca].
  cbn [faults set_faults db clock rng console calls tail].
  destruct fs as [|[|] fs]; cbn [take tail]; intros H.
  - split; [reflexivity | rewrite take_nil; constructor].
  - apply Forall_cons in H as [H _]. discriminate H.
  - apply Forall_cons in H as [_ H]. split; [reflexivity | exact H].
Qed.

Lemma reliable_le (n m : nat) (e : Env) :
  (m <= n)%nat -> reliable n e -> reliable m e.
Proof.
  unfold reliable. intros Hle H.
  replace m with (Nat.min m n) by lia. rewrite <- take_take.
  now apply Forall_take.
Qed.

Lemma reliable_set_db (n : nat) (f : Database -> Database) (e : Env) :
  reliable n (set_db f e) <-> reliable n e.
Proof. reflexivity. Qed.

Lemma request_ok (n : nat) (e : Env) :
  reliable (S n) e -> request e = (Ok tt, after_request e).
Proof. intros H. apply (reliable_S n e H). Qed.

Lemma reliable_after_request (n : nat) (e : Env) :
  reliable (S n) e -> reliable n (after_request e).
Proof. intros H. apply (reliable_S n e H). Qed.

Lemma db_after_request (e : Env) : db (after_request e) = db e.
Proof. reflexivity. Qed.

(** *** endSession *)

Lemma endSession_missing (sessionId : string) (e : Env) :
  reliable 1 e -> sessions (db e) !! sessionId = None ->
  endSession sessionId e = (Ok tt, after_request e).
Proof.
  intros Hr Hnone. unfold endSession, bind, get_state.
  rewrite (request_ok 0 e Hr). rewrite db_after_request, Hnone. reflexivity.
Qed.

Lemma endSession_found (sessionId : string) (s : VaultSession) (e : Env) :
  reliable 2 e -> sessions (db e) !! sessionId = Some s ->
  endSession sessionId e =
  (Ok tt,
   set_db (set_sessions (insert (session_id s) (deactivated s)))
          (after_request (after_request e))).
Proof.
  intros Hr Hs. unfold endSession, bind, get_state, modify.
  rewrite (request_ok 1 e Hr). rewrite db_after_request, Hs.
  rewrite (request_ok 0 _ (reliable_after_request 1 e Hr)). reflexivity.
Qed.

(** C10. While its requests succeed, [endSession] resolves without an
    error when no session has the given id, and leaves the store as it
    is.  When the session exists it is put back with [isActive] false
    and its id, start time and last activity as they were; no session
    record is deleted, and the other stores are untouched. *)
Theorem endSession_only_deactivates (sessionId : string) (e : Env) :
  reliable 2 e ->
  exists e',
    endSession sessionId e = (Ok tt, e') /\
    files (db e') = files (db e) /\
    pinConfig (db e') = pinConfig (db e) /\
    metadata (db e') = metadata (db e) /\
    (forall k, sessions (db e) !! k <> None -> sessions (db e') !! k <> None) /\
    match sessions (db e) !! sessionId with
    | None => sessions (db e') = sessions (db e)
    | Some s =>
        sessions (db e') =
          <[session_id s :=
              mkVaultSession (session_id s) (startTime s) (lastActivity s)
                             false]> (sessions (db e)) /\
        (keyed (sessions (db e)) ->
           sessions (db e') !! sessionId =
             Some (mkVaultSession sessionId (startTime s) (lastActivity s)
                                  false) /\
           forall k, k <> sessionId ->
                     sessions (db e') !! k = sessions (db e) !! k)
    end.
Proof.
  intros Hr. destruct (sessions (db e) !! sessionId) as [s|] eqn:Hs.
  - eexists. split; [apply (endSession_found _ s); assumption|].
    cbn [db set_db set_sessions files pinConfig metadata sessions].
    rewrite !db_after_request.
    split; [reflexivity|]. split; [reflexivity|]. split; [reflexivity|].
    split; [|split; [reflexivity|]].
    + intros k Hk. rewrite lookup_insert. case_decide; congruence.
    + intros Hkeyed. unfold deactivated. rewrite (Hkeyed _ _ Hs). split.
      * now rewrite lookup_insert_eq.
      * intros k Hne. now rewrite lookup_insert_ne.
  - eexists. split; [apply endSession_missing; [|assumption]|].
    + apply (reliable_le 2); [lia | assumption].
    + rewrite !db_after_request.
      split; [reflexivity|]. split; [reflexivity|]. split; [reflexivity|].
      split; [tauto | reflexivity].
Qed.

Lemma endSession_only_deactivates_witness :
  exists e',
    endSession (session_id open_session) world_with_session = (Ok tt, e') /\
    sessions (db e') !! session_id open_session =
      Some (mkVaultSession (session_id open_session) 1000 2000 false).
Proof.
  destruct (endSession_only_deactivates (session_id open_session)
              world_with_session)
    as (e' & Hrun & _ & _ & _ & _ & Hs); [constructor|].
  exists e'. split; [exact Hrun|].
  change (sessions (db world_with_session) !! session_id open_session)
    with (Some open_session) in Hs.
  destruct Hs as [Hs _]. rewrite Hs. apply lookup_insert_eq.
Defined.

End VaultStorageFacts.

(** ** The file manager *)

Module FileManagerFacts.
Import FileManager Samples.

Lemma handleDelete_ok (file : VaultFile) (a : App) :
  reliable 3 (env a) ->
  exists a',
    handleDelete file true a = (Ok tt, a') /\
    db (env a') = db_without file (db (env a)) /\
    faults (env a') = drop 3 (faults (env a)) /\
    console (env a') = console (env a) /\
    st_files (vault a') =
      VaultStorage.getAll (delete (file_id file) (files (db (env a)))) /\
    st_currentPin (vault a') = st_currentPin (vault a).
Proof.
  destruct a as [v [up sel err] [[fl pc ss md] c g fs co ca]]. intros H.
  unfold handleDelete.
  no_fault H fs; [|no_fault H fs; [|no_fault H fs]];
    (destruct sel as [sel|];
     [destruct (String.eqb (file_id sel) (file_id file)) eqn:Hsel|]);
    exec; try rewrite Hsel; eexists; (split; [reflexivity|]);
    repeat split; reflexivity.
Qed.

Lemma handleDownload_no_metadata (file : VaultFile) (a : App) :
  reliable 1 (env a) ->
  (metadata (db (env a)) !! meta_key file = None \/
   metadata (db (env a)) !! meta_key file = Some MetaNull) ->
  exists a',
    handleDownload file a = (Ok None, a') /\
    fm_error (manager a') = DOWNLOAD_FAILED /\
    console (env a') =
      console (env a) ++ [("Download failed:", JsError METADATA_NOT_FOUND)] /\
    db (env a') = db (env a).
Proof.
  destruct a as [v [up sel err] [[fl pc ss md] c g fs co ca]].
  intros H Hmeta. cbn [env db metadata] in Hmeta. unfold meta_key in Hmeta.
  unfold handleDownload.
  no_fault H fs; exec; destruct Hmeta as [-> | ->]; exec;
    eexists; (split; [reflexivity|]); repeat split; reflexivity.
Qed.

Lemma getMetadata_ok (key : string) (e : Env) :
  reliable 1 e ->
  fst (VaultStorage.getMetadata key e) =
  Ok (match metadata (db e) !! key with
      | Some value => value
      | None => MetaNull
      end).
Proof.
  destruct e as [[fl pc ss md] c g fs co ca]. intros H.
  no_fault H fs; exec; reflexivity.
Qed.

Lemma getFile_ok (fileId : string) (e : Env) :
  reliable 1 e ->
  fst (VaultStorage.getFile fileId e) = Ok (files (db e) !! fileId).
Proof.
  destruct e as [[fl pc ss md] c g fs co ca]. intros H.
  no_fault H fs; exec; reflexivity.
Qed.

Lemma reliable_drop (n k : nat) (e e' : Env) :
  faults e' = drop k (faults e) -> reliable (k + n) e -> reliable n e'.
Proof.
  unfold reliable. intros -> H. rewrite take_drop_commute.
  now apply Forall_drop.
Qed.

(** In the store itself the key of the metadata stays, with the value
    [null]: [VaultStorage] has no operation that removes a metadata
    record. *)
Lemma handleDelete_leaves_null_value :
  let a' := snd (handleDelete stored_file true vault_with_file) in
  metadata (db (env a')) !! "file_f1" = Some MetaNull.
Proof.
  destruct (handleDelete_ok stored_file vault_with_file)
    as (a' & -> & Hdb & _); [constructor|].
  cbn [snd]. rewrite Hdb. unfold db_without.
  cbn [metadata]. change (meta_key stored_file) with "file_f1".
  apply lookup_insert_eq.
Qed.

(** C9. While the requests succeed, a confirmed delete removes the file
    and its encryption metadata: afterwards the file store has no record
    under the id and [getFile] finds no file, the lookup of the metadata
    under the key "file_" + id yields nothing ([getMetadata] returns
    [null], which is also what it returns for a key that never had a
    record), the list shown is the list of the remaining files, and a
    download of the deleted file fails with "File metadata not found",
    which the handler logs and reports as a failed download. *)
Theorem handleDelete_then_nothing_is_found
    (file : VaultFile) (a : App) :
  reliable 4 (env a) ->
  exists a',
    handleDelete file true a = (Ok tt, a') /\
    files (db (env a')) !! file_id file = None /\
    fst (VaultStorage.getFile (file_id file) (env a')) = Ok None /\
    fst (VaultStorage.getMetadata ("file_" +:+ file_id file) (env a'))
      = Ok MetaNull /\
    (forall key e,
       reliable 1 e -> metadata (db e) !! key = None ->
       fst (VaultStorage.getMetadata key e) = Ok MetaNull) /\
    st_files (vault a') =
      VaultStorage.getAll (delete (file_id file) (files (db (env a)))) /\
    exists a'',
      handleDownload file a' = (Ok None, a'') /\
      fm_error (manager a'') = DOWNLOAD_FAILED /\
      console (env a'') =
        console (env a') ++ [("Download failed:", JsError METADATA_NOT_FOUND)].
Proof.
  intros H.
  destruct (handleDelete_ok file a)
    as (a' & Hrun & Hdb & Hf & Hco & Hfiles & _);
    [apply (VaultStorageFacts.reliable_le 4); [lia | exact H]|].
  assert (Hr : reliable 1 (env a'))
    by (apply (reliable_drop 1 3 (env a)); assumption).
  assert (Hfile : files (db (env a')) !! file_id file = None)
    by (rewrite Hdb; apply lookup_delete_eq).
  assert (Hmeta : metadata (db (env a')) !! meta_key file = Some MetaNull)
    by (rewrite Hdb; apply lookup_insert_eq).
  exists a'. split; [exact Hrun|]. split; [exact Hfile|].
  split; [rewrite getFile_ok by exact Hr; now rewrite Hfile|].
  split; [rewrite getMetadata_ok by exact Hr; unfold meta_key in Hmeta;
          now rewrite Hmeta|].
  split; [intros key e He Hkey; rewrite getMetadata_ok by exact He;
          now rewrite Hkey|].
  split; [exact Hfiles|].
  destruct (handleDownload_no_metadata file a' Hr (or_intror Hmeta))
    as (a'' & Hd & Herr & Hcons & _).
  exists a''. auto.
Qed.

Lemma handleDelete_then_nothing_is_found_witness :
  exists a',
    handleDelete stored_file true vault_with_file = (Ok tt, a') /\
    files (db (env a')) !! "f1" = None /\
    fst (VaultStorage.getMetadata "file_f1" (env a')) = Ok MetaNull /\
    exists a'',
      handleDownload stored_file a' = (Ok None, a'') /\
      fm_error (manager a'') = DOWNLOAD_FAILED.
Proof.
  destruct (handleDelete_then_nothing_is_found stored_file vault_with_file)
    as (a' & Hrun & Hfile & _ & Hmeta & _ & _ & a'' & Hd & Herr & _);
    [constructor|].
  exists a'. split; [exact Hrun|]. split; [exact Hfile|].
  split; [exact Hmeta|]. exists a''. split; [exact Hd | exact Herr].
Defined.

End FileManagerFacts.

Ltac exec_vault :=
  cbv beta iota zeta delta
      [SecretVault.call_hashPin SecretVault.call_verifyPin
       SecretVault.initial SecretVault.initializeVault
       SecretVault.handlePinSetup SecretVault.handlePinSubmit
       SecretVault.handleClose SecretVault.countdown
       PinValidator.falsy EncryptionManager.generateSecureId
       EncryptionManager.lift
       EncryptionManager.random_bytes getRandomValues];
  exec.

(** ** The vault component *)

Module SecretVaultFacts.
Import SecretVault.
Section Vault.
Variable hashPin : string -> SE Rng string.
Variable verifyPin : string -> string -> SE Rng bool.

Lemma or_zero_id (x : Z) : or_zero x = x.
Proof. unfold or_zero. destruct (Z.eqb_spec x 0); congruence. Qed.

(** What [handlePinSubmit] does with a PIN that does not verify. *)
Lemma handlePinSubmit_wrong_pin (a : App) (cfg : PinConfig) (g' : Rng) :
  st_pinConfig (vault a) = Some cfg ->
  st_currentPin (vault a) <> "" ->
  verifyPin (st_currentPin (vault a)) (hash cfg) (rng (env a))
    = (Ok false, g') ->
  reliable 1 (env a) ->
  let newAttempts := (attempts cfg + 1)%Z in
  let locks := (newAttempts >=? 5)%Z in
  exists a',
    handlePinSubmit verifyPin a = (Ok tt, a') /\
    db (env a') =
      set_pinConfig (insert "main" (after_failure cfg (clock (env a))))
                    (db (env a)) /\
    clock (env a') = clock (env a) /\
    faults (env a') = tail (faults (env a)) /\
    calls (env a') =
      calls (env a) ++ [CallVerifyPin (st_currentPin (vault a)) (hash cfg)] /\
    st_pinConfig (vault a') = Some (after_failure cfg (clock (env a))) /\
    st_attempts (vault a') = newAttempts /\
    st_error (vault a') = failure_message newAttempts /\
    st_currentPin (vault a') = "" /\
    st_isLockedOut (vault a') = (locks || st_isLockedOut (vault a)) /\
    st_lockoutTime (vault a') =
      (if locks then 15 * 60 else st_lockoutTime (vault a))%Z /\
    st_isUnlocked (vault a') = st_isUnlocked (vault a) /\
    st_isLoading (vault a') = st_isLoading (vault a) /\
    st_interval (vault a') = st_interval (vault a).
Proof.
  destruct a as [[pc un pin lo er at_ lk lt fl se iv] m
                 [[dfl dpc dss dmd] c g fs co ca]].
  cbn [vault env st_pinConfig st_currentPin rng hash].
  intros -> Hpin Hv H. cbv zeta.
  destruct pin as [|ch pin]; [congruence|]. clear Hpin.
  unfold after_failure, failure_message.
  exec_vault. rewrite Hv. exec_vault. rewrite !or_zero_id.
  destruct (attempts cfg + 1 >=? 5)%Z;
    no_fault H fs; exec_vault; eexists; (split; [reflexivity|]);
    repeat split; reflexivity.
Qed.

Lemma screen_PinForm (v : Vault) :
  screen v = PinForm <->
  st_isLoading v = false /\ st_isUnlocked v = false /\
  st_isLockedOut v = false /\ st_pinConfig v <> None.
Proof.
  unfold screen.
  destruct (st_isLoading v), (st_isUnlocked v), (st_pinConfig v),
    (st_isLockedOut v); split; try discriminate; try tauto;
    try (intros (? & ? & ? & ?); congruence);
    intros _; repeat split; congruence.
Qed.

(** *** One event *)

(** Unfold the invariant on an explicit state. *)
Ltac unfold_invariant :=
  unfold invariant, in_sync, timer_ok, lockout_covered, lockout_counted,
    attempts_step, resets, stored_config, screen in *;
  cbn [vault manager env db clock rng faults console calls
       files pinConfig sessions metadata
       st_pinConfig st_isUnlocked st_currentPin st_isLoading st_error
       st_attempts st_isLockedOut st_lockoutTime st_files st_currentSession
       st_interval set_pinConfig set_files set_sessions set_metadata] in *.

Ltac use_covered :=
  repeat match goal with
         | Hcov : forall c u,
                    Some ?c0 = Some c -> lockoutUntil c = Some u -> _,
           H2 : lockoutUntil ?c0 = Some ?u0 |- _ =>
             pose proof (Hcov _ _ eq_refl H2); clear Hcov
         end.

Ltac break_invariant :=
  repeat match goal with
         | H : _ /\ _ |- _ => destruct H
         | |- _ /\ _ => split
         | |- forall _, _ => intro
         | H : forall c, Some ?x = Some c -> Some _ = Some c |- _ =>
             specialize (H _ eq_refl)
         | H : forall c, Some ?x = Some c -> None = Some c |- _ =>
             specialize (H _ eq_refl)
         | H : forall armed, Some ?z = Some armed -> (_ <= _)%Z |- _ =>
             specialize (H _ eq_refl)
         | H : Some _ = Some _ |- _ => injection H as H; try subst
         | H1 : ?x = Some ?u, H2 : ?x = Some ?w |- _ =>
             rewrite H1 in H2
         | iv : option Z |- _ => destruct iv
         | |- context [(0 <? ?x)%Z] => destruct (Z.ltb_spec 0 x)
         | H : context [(0 <? ?x)%Z] |- _ => destruct (Z.ltb_spec 0 x)
         end;
  cbn [hash attempts lockoutUntil isFirstTime] in *.

Ltac close_step :=
  break_invariant; break_invariant; break_invariant;
  try use_covered; break_invariant;
  try discriminate; try congruence; try tauto; try lia;
  try (left; reflexivity); try (left; lia); try (right; lia);
  try (right; split; [reflexivity|]; left; eexists; reflexivity);
  try (right; split; [reflexivity|]; right; split; [reflexivity|];
       eexists _, _; split; [reflexivity | eassumption]);
  try (split; [reflexivity | eexists; reflexivity]);
  eauto.

Ltac split_ifs :=
  repeat match goal with
         | |- context [Bool.eqb ?b _] =>
             is_var b; destruct b; cbn [Bool.eqb andb]
         | |- context [(?x =? ?y)%Z] =>
             destruct (Z.eqb_spec x y); cbn [andb]
         | |- context [andb ?b _] => is_var b; destruct b; cbn [andb]
         | |- context [if ?b then _ else _] => is_var b; destruct b
         | |- context [match ?o with Some _ => _ | None => _ end] =>
             is_var o; destruct o
         end.

(** Finish a branch of a handler: the effect, then the invariant. *)
Ltac leaf Hst :=
  unfold lockout_effect; exec_vault;
  rewrite ?Z.eqb_refl, ?Bool.eqb_reflx; cbn [Bool.eqb andb];
  change (0 <? 15 * 60)%Z with true; cbv iota;
  split_ifs; unfold_invariant; split_ifs;
  rewrite ?lookup_insert_eq in *; try rewrite Hst in *;
  close_step.

Ltac start a Hst :=
  destruct a as [[pc un pin lo er at_ lk lt fl se iv] m
                 [[dfl dpc dss dmd] c g fs co ca]];
  destruct (dpc !! "main") as [c0|] eqn:Hst.

Lemma kept_disabled (a : App) (ev : Event) :
  invariant a -> enabled ev a = false -> kept hashPin verifyPin a ev.
Proof.
  intros Hinv Hen. unfold kept, step. rewrite Hen. split; [exact Hinv|].
  split; [|tauto].
  unfold attempts_step. destruct (stored_config a); [left; lia | exact I].
Qed.

Lemma ceil_div_1000_bounds (x : Z) :
  (0 < x)%Z -> (0 < ceil_div_1000 x)%Z /\ (x <= 1000 * ceil_div_1000 x)%Z.
Proof.
  intros Hx. unfold ceil_div_1000.
  pose proof (Z.div_mod (- x) 1000 ltac:(lia)).
  pose proof (Z.mod_pos_bound (- x) 1000 ltac:(lia)). lia.
Qed.

Lemma kept_Mount (a : App) : invariant a -> kept hashPin verifyPin a Mount.
Proof.
  intros Hinv. unfold kept, step. cbn [enabled handler].
  start a Hst.
  all: destruct fs as [|[|] fs]; exec_vault; rewrite ?Hst; exec_vault.
  all: try (destruct (lockoutUntil c0) as [until|] eqn:Hlu; exec_vault;
            [destruct (Z.ltb_spec c until) as [Hlt|Hge]; exec_vault;
             [pose proof (ceil_div_1000_bounds (until - c) ltac:(lia))|]|]).
  all: leaf Hst.
Qed.

(** Decide which controls are on the screen. *)
Ltac on_screen Hen :=
  cbv beta iota zeta delta
      [enabled screen screen_eqb vault env clock st_pinConfig st_isUnlocked
       st_isLoading st_isLockedOut st_interval st_files andb orb] in Hen;
  repeat match type of Hen with
         | context [match ?x with _ => _ end] =>
             is_var x; destruct x; try discriminate Hen
         end.

Lemma kept_TypePin (a : App) (p : string) :
  invariant a -> kept hashPin verifyPin a (TypePin p).
Proof.
  intros Hinv. destruct (enabled (TypePin p) a) eqn:Hen;
    [|now apply kept_disabled].
  unfold kept, step. rewrite Hen. cbn [handler].
  start a Hst; leaf Hst.
Qed.

Lemma kept_Wait (a : App) (ms : N) :
  invariant a -> kept hashPin verifyPin a (Wait ms).
Proof.
  intros Hinv. unfold kept, step. cbn [enabled handler].
  start a Hst; leaf Hst.
Qed.

Lemma kept_Tick (a : App) : invariant a -> kept hashPin verifyPin a Tick.
Proof.
  intros Hinv. destruct (enabled Tick a) eqn:Hen;
    [|now apply kept_disabled].
  unfold kept, step. rewrite Hen. cbn [handler].
  start a Hst; on_screen Hen; apply Z.leb_le in Hen;
    exec_vault; destruct (Z.leb_spec lt 1); leaf Hst.
Qed.

Lemma kept_Submit (a : App) :
  invariant a -> kept hashPin verifyPin a Submit.
Proof.
  intros Hinv. destruct (enabled Submit a) eqn:Hen;
    [|now apply kept_disabled].
  unfold kept, step. rewrite Hen. cbn [handler].
  start a Hst; on_screen Hen.
  all: destruct pin as [|ch pin]; [leaf Hst|].
  all: exec_vault;
    destruct (verifyPin (String ch pin) (hash p) g) as [[[|]|e] g1] eqn:Hv;
    exec_vault; rewrite ?or_zero_id.
  all: try (destruct (Z.geb_spec (attempts p + 1) 5) as [Hge|Hlt]).
  all: destruct fs as [|[|] fs]; exec_vault;
    try (destruct fs as [|[|] fs]; exec_vault);
    try (destruct fs as [|[|] fs]; exec_vault).
  all: leaf Hst.
Qed.

Lemma kept_Setup (a : App) (p : string) :
  invariant a -> kept hashPin verifyPin a (Setup p).
Proof.
  intros Hinv. destruct (enabled (Setup p) a) eqn:Hen;
    [|now apply kept_disabled].
  unfold kept, step. rewrite Hen. cbn [handler].
  start a Hst; on_screen Hen.
  all: exec_vault; destruct (hashPin p g) as [[h|e] g1] eqn:Hh; exec_vault.
  all: destruct fs as [|[|] fs]; exec_vault;
    try (destruct fs as [|[|] fs]; exec_vault);
    try (destruct fs as [|[|] fs]; exec_vault).
  all: leaf Hst.
Qed.

Lemma kept_Close (a : App) : invariant a -> kept hashPin verifyPin a Close.
Proof.
  intros Hinv. destruct (enabled Close a) eqn:Hen;
    [|now apply kept_disabled].
  unfold kept, step. rewrite Hen. cbn [handler].
  start a Hst; on_screen Hen.
  all: destruct se as [s|]; exec_vault.
  all: try (destruct fs as [|[|] fs]; exec_vault;
            destruct (dss !! session_id s) as [s'|]; exec_vault;
            try (destruct fs as [|[|] fs]; exec_vault)).
  all: leaf Hst.
Qed.

(** *** The file manager leaves the lockout alone *)

Ltac same_view :=
  unfold view, stored_config;
  cbn [vault manager env db clock pinConfig
       st_pinConfig st_isUnlocked st_isLoading st_isLockedOut st_lockoutTime
       st_interval];
  reflexivity.

Lemma upload_one_view (file : File) (a : App) :
  view (snd (FileManager.upload_one file a)) = view a.
Proof.
  destruct a as [[pc un pin lo er at_ lk lt fl se iv] [up sel err]
                 [[dfl dpc dss dmd] c g fs co ca]].
  unfold FileManager.upload_one. exec_vault.
  match goal with
  | |- context [EncryptionManager.encryptFile ?b ?p ?r] =>
      destruct (EncryptionManager.encryptFile b p r) as [[enc|e] g2]
  end; exec_vault; [|same_view].
  destruct fs as [|[|] fs]; exec_vault;
    try (destruct fs as [|[|] fs]; exec_vault);
    try (destruct fs as [|[|] fs]; exec_vault); same_view.
Qed.

Lemma handleFileUpload_view (fileList : list File) (a : App) :
  view (snd (FileManager.handleFileUpload fileList a)) = view a.
Proof.
  unfold FileManager.handleFileUpload.
  destruct fileList as [|file0 rest]; [reflexivity|].
  assert (Hfold : forall l b,
            view (snd (fold_right
                         (fun file rest => FileManager.upload_one file ;;; rest)
                         (ret tt) l b)) = view b).
  { induction l as [|file l IH]; intros b; [reflexivity|].
    cbn [fold_right]. unfold bind at 1.
    pose proof (upload_one_view file b) as Hone.
    destruct (FileManager.upload_one file b) as [[[]|e] b1]; cbn [snd] in *.
    - now rewrite IH.
    - exact Hone. }
  unfold bind at 1. unfold setManagerError, modify. cbv beta iota.
  rewrite (Hfold (file0 :: rest)). reflexivity.
Qed.

Lemma handleDownload_view (file : VaultFile) (a : App) :
  view (snd (FileManager.handleDownload file a)) = view a.
Proof.
  destruct a as [[pc un pin lo er at_ lk lt fl se iv] [up sel err]
                 [[dfl dpc dss dmd] c g fs co ca]].
  unfold FileManager.handleDownload.
  destruct fs as [|[|] fs]; exec_vault; try same_view.
  all: destruct (dmd !! ("file_" +:+ file_id file)) as [[|sa i]|];
    exec_vault; try same_view.
  all: unfold EncryptionManager.lift;
    destruct (EncryptionManager.base64ToArrayBuffer sa) as [sb|e1];
    exec_vault; try same_view;
    destruct (EncryptionManager.base64ToArrayBuffer i) as [ib|e2];
    exec_vault; try same_view;
    match goal with
    | |- context [EncryptionManager.decryptFile ?d ?p ?s ?n ?r] =>
        destruct (EncryptionManager.decryptFile d p s n r) as [[pt|e3] g3]
    end; exec_vault; same_view.
Qed.

Lemma handleDelete_view (file : VaultFile) (confirmed : bool) (a : App) :
  view (snd (FileManager.handleDelete file confirmed a)) = view a.
Proof.
  destruct a as [[pc un pin lo er at_ lk lt fl se iv] [up sel err]
                 [[dfl dpc dss dmd] c g fs co ca]].
  unfold FileManager.handleDelete. destruct confirmed; [|reflexivity].
  destruct fs as [|[|] fs]; exec_vault;
    try (destruct fs as [|[|] fs]; exec_vault);
    try (destruct fs as [|[|] fs]; exec_vault);
    try (destruct sel as [sel|];
         [destruct (String.eqb (file_id sel) (file_id file))|]);
    exec_vault; same_view.
Qed.

(** An event that leaves the view keeps everything. *)
Lemma kept_view (a : App) (ev : Event) :
  ev <> Mount ->
  view (snd (handler hashPin verifyPin ev a)) = view a ->
  invariant a -> kept hashPin verifyPin a ev.
Proof.
  intros Hev Hview Hinv. destruct (enabled ev a) eqn:Hen;
    [|now apply kept_disabled].
  unfold kept, step. rewrite Hen.
  replace (match ev with Mount => initial | _ => vault a end)
    with (vault a) by (destruct ev; congruence).
  set (a' := snd (handler hashPin verifyPin ev a)) in *.
  assert (Heff : lockout_effect (vault a) a' = a').
  { unfold lockout_effect. unfold view in Hview.
    injection Hview as _ _ _ _ _ Hlk Hlt _.
    rewrite Hlk, Hlt, Bool.eqb_reflx, Z.eqb_refl. reflexivity. }
  rewrite Heff. unfold view in Hview.
  injection Hview as Hst Hck Hpc Hlo Hun Hlk Hlt Hiv.
  unfold invariant, in_sync, timer_ok, lockout_covered, lockout_counted,
    attempts_step, screen in *.
  rewrite Hst, Hck, Hpc, Hlo, Hun, Hlk, Hlt, Hiv.
  split; [exact Hinv|]. split; [|tauto].
  destruct (stored_config a); [left; lia | exact I].
Qed.

(** Every event keeps the invariant and the attempts counter. *)
Lemma kept_all (a : App) (ev : Event) :
  invariant a -> kept hashPin verifyPin a ev.
Proof.
  intros Hinv. destruct ev.
  - now apply kept_Mount.
  - now apply kept_TypePin.
  - now apply kept_Submit.
  - now apply kept_Setup.
  - now apply kept_Close.
  - now apply kept_Tick.
  - now apply kept_Wait.
  - apply kept_view; [discriminate | apply handleFileUpload_view | exact Hinv].
  - apply kept_view; [discriminate | | exact Hinv]. cbn [handler].
    unfold bind.
    pose proof (handleDownload_view file a) as Hd.
    destruct (FileManager.handleDownload file a) as [[r|e] a1]; exact Hd.
  - apply kept_view; [discriminate | apply handleDelete_view | exact Hinv].
Qed.

Lemma invariant_initial (a : App) : vault a = initial -> invariant a.
Proof.
  intros Hv. unfold invariant, in_sync, timer_ok, lockout_covered.
  rewrite Hv. cbn. repeat split; try discriminate; auto.
Qed.

Lemma invariant_run (evs : list Event) (a : App) :
  invariant a -> invariant (run hashPin verifyPin evs a).
Proof.
  revert a. induction evs as [|ev evs IH]; intros a Hinv; [exact Hinv|].
  cbn [run fold_left]. apply IH. now apply kept_all.
Qed.


(** *** No PIN is held while a stored lockout is ahead *)

Ltac leaf_pin Hst :=
  unfold lockout_effect; exec_vault;
  rewrite ?Z.eqb_refl, ?Bool.eqb_reflx; cbn [Bool.eqb andb];
  change (0 <? 15 * 60)%Z with true; cbv iota;
  split_ifs; unfold pin_cleared in *; unfold_invariant; split_ifs;
  rewrite ?lookup_insert_eq in *; try rewrite Hst in *;
  intros;
  repeat match goal with
         | H : Some _ = Some _ |- _ => injection H as H; try subst
         | H : _ /\ _ |- _ => destruct H
         end;
  cbn [hash attempts lockoutUntil isFirstTime] in *;
  try discriminate; try reflexivity;
  try (match goal with
       | Hp : forall c u, Some ?c0 = Some c -> lockoutUntil c = Some u -> _ -> _ = "",
         H2 : lockoutUntil ?c0 = Some ?u0 |- _ =>
           apply (Hp _ _ eq_refl H2); lia
       end);
  try (exfalso;
       match goal with
       | Hcov : forall c u, Some ?c0 = Some c -> lockoutUntil c = Some u -> _,
         H2 : lockoutUntil ?c0 = Some ?u0 |- _ =>
           pose proof (Hcov _ _ eq_refl H2); lia
       end).

Lemma pin_cleared_disabled (a : App) (ev : Event) :
  enabled ev a = false -> pin_cleared a ->
  pin_cleared (step hashPin verifyPin a ev).
Proof. intros Hen H. unfold step. now rewrite Hen. Qed.

Lemma pin_cleared_Mount (a : App) :
  invariant a -> pin_cleared a -> pin_cleared (step hashPin verifyPin a Mount).
Proof.
  intros Hinv Hp. unfold step. cbn [enabled handler].
  start a Hst.
  all: destruct fs as [|[|] fs]; exec_vault; rewrite ?Hst; exec_vault.
  all: try (destruct (lockoutUntil c0) as [until|] eqn:Hlu; exec_vault;
            [destruct (Z.ltb_spec c until) as [Hlt|Hge]; exec_vault|]).
  all: leaf_pin Hst.
Qed.

Lemma pin_cleared_TypePin (a : App) (p : string) :
  invariant a -> pin_cleared a ->
  pin_cleared (step hashPin verifyPin a (TypePin p)).
Proof.
  intros Hinv Hp. destruct (enabled (TypePin p) a) eqn:Hen;
    [|now apply pin_cleared_disabled].
  unfold step. rewrite Hen. cbn [handler].
  start a Hst; on_screen Hen; leaf_pin Hst.
Qed.

Lemma pin_cleared_Wait (a : App) (ms : N) :
  invariant a -> pin_cleared a ->
  pin_cleared (step hashPin verifyPin a (Wait ms)).
Proof.
  intros Hinv Hp. unfold step. cbn [enabled handler].
  start a Hst; leaf_pin Hst.
Qed.

Lemma pin_cleared_Tick (a : App) :
  invariant a -> pin_cleared a ->
  pin_cleared (step hashPin verifyPin a Tick).
Proof.
  intros Hinv Hp. destruct (enabled Tick a) eqn:Hen;
    [|now apply pin_cleared_disabled].
  unfold step. rewrite Hen. cbn [handler].
  start a Hst; on_screen Hen; apply Z.leb_le in Hen;
    exec_vault; destruct (Z.leb_spec lt 1); leaf_pin Hst.
Qed.

Lemma pin_cleared_Submit (a : App) :
  invariant a -> pin_cleared a ->
  pin_cleared (step hashPin verifyPin a Submit).
Proof.
  intros Hinv Hp. destruct (enabled Submit a) eqn:Hen;
    [|now apply pin_cleared_disabled].
  unfold step. rewrite Hen. cbn [handler].
  start a Hst; on_screen Hen.
  all: destruct pin as [|ch pin]; [leaf_pin Hst|].
  all: exec_vault;
    destruct (verifyPin (String ch pin) (hash p) g) as [[[|]|e] g1] eqn:Hv;
    exec_vault; rewrite ?or_zero_id.
  all: try (destruct (Z.geb_spec (attempts p + 1) 5) as [Hge|Hlt]).
  all: destruct fs as [|[|] fs]; exec_vault;
    try (destruct fs as [|[|] fs]; exec_vault);
    try (destruct fs as [|[|] fs]; exec_vault).
  all: leaf_pin Hst.
Qed.

Lemma pin_cleared_Setup (a : App) (p : string) :
  invariant a -> pin_cleared a ->
  pin_cleared (step hashPin verifyPin a (Setup p)).
Proof.
  intros Hinv Hp. destruct (enabled (Setup p) a) eqn:Hen;
    [|now apply pin_cleared_disabled].
  unfold step. rewrite Hen. cbn [handler].
  start a Hst; on_screen Hen.
  all: exec_vault; destruct (hashPin p g) as [[h|e] g1] eqn:Hh; exec_vault.
  all: destruct fs as [|[|] fs]; exec_vault;
    try (destruct fs as [|[|] fs]; exec_vault);
    try (destruct fs as [|[|] fs]; exec_vault).
  all: leaf_pin Hst.
Qed.

Lemma pin_cleared_Close (a : App) :
  invariant a -> pin_cleared a ->
  pin_cleared (step hashPin verifyPin a Close).
Proof.
  intros Hinv Hp. destruct (enabled Close a) eqn:Hen;
    [|now apply pin_cleared_disabled].
  unfold step. rewrite Hen. cbn [handler].
  start a Hst; on_screen Hen.
  all: destruct se as [s|]; exec_vault.
  all: try (destruct fs as [|[|] fs]; exec_vault;
            destruct (dss !! session_id s) as [s'|]; exec_vault;
            try (destruct fs as [|[|] fs]; exec_vault)).
  all: leaf_pin Hst.
Qed.

(** *** The file manager leaves the typed PIN alone *)

Ltac same_pin :=
  cbn [vault st_currentPin]; reflexivity.

Lemma upload_one_pin (file : File) (a : App) :
  st_currentPin (vault (snd (FileManager.upload_one file a)))
  = st_currentPin (vault a).
Proof.
  destruct a as [[pc un pin lo er at_ lk lt fl se iv] [up sel err]
                 [[dfl dpc dss dmd] c g fs co ca]].
  unfold FileManager.upload_one. exec_vault.
  match goal with
  | |- context [EncryptionManager.encryptFile ?b ?p ?r] =>
      destruct (EncryptionManager.encryptFile b p r) as [[enc|e] g2]
  end; exec_vault; [|same_pin].
  destruct fs as [|[|] fs]; exec_vault;
    try (destruct fs as [|[|] fs]; exec_vault);
    try (destruct fs as [|[|] fs]; exec_vault); same_pin.
Qed.

Lemma handleFileUpload_pin (fileList : list File) (a : App) :
  st_currentPin (vault (snd (FileManager.handleFileUpload fileList a)))
  = st_currentPin (vault a).
Proof.
  unfold FileManager.handleFileUpload.
  destruct fileList as [|file0 rest]; [reflexivity|].
  assert (Hfold : forall l b,
            st_currentPin (vault (snd (fold_right
                         (fun file rest => FileManager.upload_one file ;;; rest)
                         (ret tt) l b))) = st_currentPin (vault b)).
  { induction l as [|file l IH]; intros b; [reflexivity|].
    cbn [fold_right]. unfold bind at 1.
    pose proof (upload_one_pin file b) as Hone.
    destruct (FileManager.upload_one file b) as [[[]|e] b1]; cbn [snd] in *.
    - now rewrite IH.
    - exact Hone. }
  unfold bind at 1. unfold setManagerError, modify. cbv beta iota.
  rewrite (Hfold (file0 :: rest)). reflexivity.
Qed.

Lemma handleDownload_pin (file : VaultFile) (a : App) :
  st_currentPin (vault (snd (FileManager.handleDownload file a)))
  = st_currentPin (vault a).
Proof.
  destruct a as [[pc un pin lo er at_ lk lt fl se iv] [up sel err]
                 [[dfl dpc dss dmd] c g fs co ca]].
  unfold FileManager.handleDownload.
  destruct fs as [|[|] fs]; exec_vault; try same_pin.
  all: destruct (dmd !! ("file_" +:+ file_id file)) as [[|sa i]|];
    exec_vault; try same_pin.
  all: unfold EncryptionManager.lift;
    destruct (EncryptionManager.base64ToArrayBuffer sa) as [sb|e1];
    exec_vault; try same_pin;
    destruct (EncryptionManager.base64ToArrayBuffer i) as [ib|e2];
    exec_vault; try same_pin;
    match goal with
    | |- context [EncryptionManager.decryptFile ?d ?p ?s ?n ?r] =>
        destruct (EncryptionManager.decryptFile d p s n r) as [[pt|e3] g3]
    end; exec_vault; same_pin.
Qed.

Lemma handleDelete_pin (file : VaultFile) (confirmed : bool) (a : App) :
  st_currentPin (vault (snd (FileManager.handleDelete file confirmed a)))
  = st_currentPin (vault a).
Proof.
  destruct a as [[pc un pin lo er at_ lk lt fl se iv] [up sel err]
                 [[dfl dpc dss dmd] c g fs co ca]].
  unfold FileManager.handleDelete. destruct confirmed; [|reflexivity].
  destruct fs as [|[|] fs]; exec_vault;
    try (destruct fs as [|[|] fs]; exec_vault);
    try (destruct fs as [|[|] fs]; exec_vault);
    try (destruct sel as [sel|];
         [destruct (String.eqb (file_id sel) (file_id file))|]);
    exec_vault; same_pin.
Qed.

(** An event that leaves the view and the typed PIN keeps the rule. *)
Lemma pin_cleared_view (a : App) (ev : Event) :
  ev <> Mount ->
  view (snd (handler hashPin verifyPin ev a)) = view a ->
  st_currentPin (vault (snd (handler hashPin verifyPin ev a)))
  = st_currentPin (vault a) ->
  pin_cleared a -> pin_cleared (step hashPin verifyPin a ev).
Proof.
  intros Hev Hview Hpin Hp. unfold step.
  destruct (enabled ev a); [|exact Hp].
  replace (match ev with Mount => initial | _ => vault a end)
    with (vault a) by (destruct ev; congruence).
  set (a' := snd (handler hashPin verifyPin ev a)) in *.
  assert (Heff : lockout_effect (vault a) a' = a').
  { unfold lockout_effect. unfold view in Hview.
    injection Hview as _ _ _ _ _ Hlk Hlt _.
    rewrite Hlk, Hlt, Bool.eqb_reflx, Z.eqb_refl. reflexivity. }
  rewrite Heff. unfold view in Hview.
  injection Hview as Hst Hck _ _ _ _ _ _.
  unfold pin_cleared in *. rewrite Hst, Hck, Hpin. exact Hp.
Qed.

(** Every event keeps the rule. *)
Lemma pin_cleared_all (a : App) (ev : Event) :
  invariant a -> pin_cleared a -> pin_cleared (step hashPin verifyPin a ev).
Proof.
  intros Hinv Hp. destruct ev.
  - now apply pin_cleared_Mount.
  - now apply pin_cleared_TypePin.
  - now apply pin_cleared_Submit.
  - now apply pin_cleared_Setup.
  - now apply pin_cleared_Close.
  - now apply pin_cleared_Tick.
  - now apply pin_cleared_Wait.
  - apply pin_cleared_view;
      [discriminate | apply handleFileUpload_view
       | apply handleFileUpload_pin | exact Hp].
  - apply pin_cleared_view; [discriminate | | | exact Hp]; cbn [handler];
      unfold bind.
    + pose proof (handleDownload_view file a) as Hd.
      destruct (FileManager.handleDownload file a) as [[r|e] a1]; exact Hd.
    + pose proof (handleDownload_pin file a) as Hd.
      destruct (FileManager.handleDownload file a) as [[r|e] a1]; exact Hd.
  - apply pin_cleared_view;
      [discriminate | apply handleDelete_view
       | apply handleDelete_pin | exact Hp].
Qed.

Lemma pin_cleared_run (evs : list Event) (a : App) :
  invariant a -> pin_cleared a ->
  pin_cleared (run hashPin verifyPin evs a).
Proof.
  revert a. induction evs as [|ev evs IH]; intros a Hinv Hp; [exact Hp|].
  cbn [run fold_left]. apply IH.
  - apply (kept_all a ev Hinv).
  - now apply pin_cleared_all.
Qed.

Lemma pin_cleared_initial (a : App) : vault a = initial -> pin_cleared a.
Proof. intros Hv c until _ _ _. rewrite Hv. reflexivity. Qed.

(** What [handlePinSubmit] does without a typed PIN: nothing. *)
Lemma handlePinSubmit_no_pin (a : App) :
  st_currentPin (vault a) = "" -> handlePinSubmit verifyPin a = (Ok tt, a).
Proof.
  destruct a as [[pc un pin lo er at_ lk lt fl se iv] m e].
  cbn [vault st_currentPin]. intros ->.
  unfold handlePinSubmit. exec. destruct pc; reflexivity.
Qed.


(** *** The component holds what is stored *)











(** *** The file manager and the requests that are left *)











End Vault.
End SecretVaultFacts.

Module SecretVaultTheorems.
Import SecretVault SecretVaultFacts Samples.
Section Vault.
Variable hashPin : string -> SE Rng string.
Variable verifyPin : string -> string -> SE Rng bool.



(** C2. When the PIN form is shown, the PIN does not verify and the
    store accepts the write, [handlePinSubmit] stores the configuration
    with the attempts counter raised by one and shows that count.  From
    five attempts on, the stored [lockoutUntil] is the current time plus
    fifteen minutes and the lockout alert with a fifteen-minute countdown
    replaces the form; below five, no lockout is stored, the form stays,
    and the message reports five minus the new count as the attempts
    remaining. *)
Theorem handlePinSubmit_failure_counts_and_locks
    (a : App) (cfg : PinConfig) (g' : Rng) :
  screen (vault a) = PinForm ->
  st_pinConfig (vault a) = Some cfg ->
  st_currentPin (vault a) <> "" ->
  verifyPin (st_currentPin (vault a)) (hash cfg) (rng (env a))
    = (Ok false, g') ->
  reliable 1 (env a) ->
  let newAttempts := (attempts cfg + 1)%Z in
  exists a',
    handlePinSubmit verifyPin a = (Ok tt, a') /\
    stored_config a' =
      Some (mkPinConfig (hash cfg) newAttempts
              (if (newAttempts >=? 5)%Z
               then Some (clock (env a) + 15 * 60 * 1000)%Z else None)
              (isFirstTime cfg)) /\
    st_attempts (vault a') = newAttempts /\
    ((5 <= newAttempts)%Z ->
       screen (vault a') = LockoutAlert /\
       st_lockoutTime (vault a') = (15 * 60)%Z) /\
    ((newAttempts < 5)%Z ->
       screen (vault a') = PinForm /\
       st_error (vault a') =
         "Invalid PIN. " +:+ show (5 - newAttempts)
         +:+ " attempts remaining.").
Proof.
  intros Hscr Hpc Hpin Hv Hr newAttempts.
  destruct (handlePinSubmit_wrong_pin verifyPin a cfg g' Hpc Hpin Hv Hr)
    as (a' & Hrun & Hdb & _ & _ & _ & Hpc' & Hat & Herr & _ & Hlk & Hlt
        & Hun & Hlo & _).
  apply screen_PinForm in Hscr as (Hlo0 & Hun0 & Hlk0 & _).
  exists a'. split; [exact Hrun|].
  split; [unfold stored_config; rewrite Hdb; apply lookup_insert_eq|].
  split; [exact Hat|].
  fold newAttempts in Hlk, Hlt.
  unfold screen. rewrite Hlo, Hun, Hpc', Hlk, Hlt, Hlo0, Hun0, Hlk0.
  split; intros Hn.
  - destruct (Z.geb_spec newAttempts 5); [split; reflexivity | lia].
  - destruct (Z.geb_spec newAttempts 5); [lia | split; [reflexivity|]].
    exact Herr.
Qed.

(** C1. In every state that the vault reaches from its mounting by the
    events of its interface, with the countdown ticking no faster than
    once a second, while the stored [lockoutUntil] is later than the
    current time a submission is rejected whatever the PIN and whatever
    the encryption manager would answer: [handlePinSubmit] returns at its
    first guard and leaves the vault and the world exactly as they were,
    so no PIN is verified and neither the attempts counter, nor
    [lockoutUntil], nor a session changes.  The PIN form is not on the
    screen either, so that the submit button and the PIN field do
    nothing. *)
Theorem no_submission_while_locked_out
    (a0 : App) (evs : list Event) (c : PinConfig) (until : Z) :
  vault a0 = initial ->
  let a := run hashPin verifyPin evs a0 in
  stored_config a = Some c ->
  lockoutUntil c = Some until ->
  (clock (env a) < until)%Z ->
  handlePinSubmit verifyPin a = (Ok tt, a) /\
  screen (vault a) <> PinForm /\
  step hashPin verifyPin a Submit = a /\
  forall pin, step hashPin verifyPin a (TypePin pin) = a.
Proof.
  intros Hinit a Hst Hlu Hnow.
  assert (Hinv : invariant a)
    by (apply invariant_run, invariant_initial, Hinit).
  assert (Hpin : pin_cleared a).
  { apply pin_cleared_run;
      [apply invariant_initial | apply pin_cleared_initial]; exact Hinit. }
  split; [apply handlePinSubmit_no_pin, (Hpin c until Hst Hlu Hnow)|].
  destruct Hinv as (_ & _ & Hcov). specialize (Hcov c until Hst Hlu).
  assert (Hscr : screen (vault a) <> PinForm).
  { intros Heq. rewrite Heq in Hcov. lia. }
  assert (Hen : screen_eqb (screen (vault a)) PinForm = false)
    by (destruct (screen (vault a)); try reflexivity; congruence).
  split; [exact Hscr|]. unfold step. cbn [enabled]. rewrite Hen.
  split; [reflexivity | intros pin; reflexivity].
Qed.


End Vault.

(** The sample of a component in lockout is a state that the vault
    reaches. *)
Example locked_out_vault_is_reached :
  run EncryptionManager.hashPin EncryptionManager.verifyPin
      [Mount; Wait 500]
      (mkApp initial (mkManager [] None "") (world_locked 2000))
  = locked_out_vault.
Proof. reflexivity. Qed.

Lemma no_submission_while_locked_out_witness :
  handlePinSubmit EncryptionManager.verifyPin
    (run EncryptionManager.hashPin EncryptionManager.verifyPin
         [Mount; Wait 5000] unmounted_locked)
  = (Ok tt,
     run EncryptionManager.hashPin EncryptionManager.verifyPin
         [Mount; Wait 5000] unmounted_locked) /\
  screen (vault (run EncryptionManager.hashPin EncryptionManager.verifyPin
                     [Mount; Wait 5000] unmounted_locked)) = LockoutAlert.
Proof.
  split.
  - apply (no_submission_while_locked_out EncryptionManager.hashPin
             EncryptionManager.verifyPin unmounted_locked [Mount; Wait 5000]
             locked_config 901000%Z);
      [reflexivity | reflexivity | reflexivity | reflexivity].
  - reflexivity.
Defined.

Lemma handlePinSubmit_failure_counts_and_locks_witness :
  exists a',
    handlePinSubmit EncryptionManager.verifyPin pin_form_vault = (Ok tt, a') /\
    stored_config a' =
      Some (mkPinConfig stored_hash 5 (Some 902500%Z) false) /\
    screen (vault a') = LockoutAlert.
Proof.
  destruct (handlePinSubmit_failure_counts_and_locks
              EncryptionManager.verifyPin pin_form_vault four_failures
              (rng (env pin_form_vault)))
    as (a' & Hrun & Hst & _ & Hlock & _);
    [reflexivity | reflexivity | discriminate
     | apply EncryptionManagerFacts.verifyPin_false | constructor |].
  exists a'. split; [exact Hrun|]. split; [exact Hst|].
  apply Hlock. discriminate.
Defined.


End SecretVaultTheorems.

(** ** Base64 *)

Module Base64Facts.
Import Base64 EncryptionManager.

Lemma list_ind3 {A} (P : list A -> Prop) :
  P [] -> (forall a, P [a]) -> (forall a b, P [a; b]) ->
  (forall a b c l, P l -> P (a :: b :: c :: l)) -> forall l, P l.
Proof.
  intros H0 H1 H2 H3. fix IH 1.
  intros [|a [|b [|c l]]]; [exact H0 | apply H1 | apply H2 |].
  apply H3, IH.
Qed.

Lemma in_range_spec (n : Z) (P : Z -> bool) :
  in_range n P = true -> forall x, (0 <= x < n)%Z -> P x = true.
Proof.
  unfold in_range. rewrite forallb_forall. intros H x Hx. apply H.
  apply in_map_iff. exists (Z.to_nat x). split; [lia|].
  apply in_seq. lia.
Qed.

Lemma encode_sextets (bs : list Z) :
  encode bs = map char_of (sextets bs) ++ padding bs.
Proof.
  induction bs as [|a|a b|a b c l IH] using list_ind3; try reflexivity.
  cbn [encode sextets padding map app]. now rewrite IH.
Qed.

Lemma is_sextet_spec (v : Z) : is_sextet v = true -> (0 <= v < 64)%Z.
Proof.
  unfold is_sextet. intros H. apply andb_true_iff in H as [H1 H2]. lia.
Qed.

(** The sextets of two neighbouring bytes and what they put together
    again, checked on all pairs of bytes. *)
Lemma sextets_of_pair (a b : Z) :
  is_byte a -> is_byte b ->
  let s1 := Z.shiftr a 2 in
  let s2 := Z.lor (Z.shiftl (Z.land a 3) 4) (Z.shiftr b 4) in
  let s3 := Z.lor (Z.shiftl (Z.land a 15) 2) (Z.shiftr b 6) in
  ((0 <= s1 < 64) /\ (0 <= s2 < 64) /\ (0 <= s3 < 64) /\
   (0 <= Z.land b 63 < 64) /\ (0 <= Z.shiftl (Z.land a 3) 4 < 64) /\
   (0 <= Z.shiftl (Z.land a 15) 2 < 64))%Z /\
  Z.lor (Z.shiftl s1 2) (Z.shiftr s2 4) = a /\
  Z.land s2 15 = Z.shiftr b 4 /\
  Z.shiftr s3 2 = Z.land a 15 /\
  Z.land s3 3 = Z.shiftr b 6 /\
  Z.lor (Z.shiftl s1 2) (Z.shiftr (Z.shiftl (Z.land a 3) 4) 4) = a /\
  Z.shiftr (Z.shiftl (Z.land a 15) 2) 2 = Z.land a 15 /\
  Z.lor (Z.shiftl (Z.shiftr a 4) 4) (Z.land a 15) = a /\
  Z.lor (Z.shiftl (Z.shiftr a 6) 6) (Z.land a 63) = a.
Proof.
  intros Ha Hb.
  assert (H : in_range 256 (fun a => in_range 256 (fun b =>
    let s1 := Z.shiftr a 2 in
    let s2 := Z.lor (Z.shiftl (Z.land a 3) 4) (Z.shiftr b 4) in
    let s3 := Z.lor (Z.shiftl (Z.land a 15) 2) (Z.shiftr b 6) in
    is_sextet s1 && is_sextet s2 && is_sextet s3 && is_sextet (Z.land b 63)
    && is_sextet (Z.shiftl (Z.land a 3) 4)
    && is_sextet (Z.shiftl (Z.land a 15) 2)
    && (Z.lor (Z.shiftl s1 2) (Z.shiftr s2 4) =? a)%Z
    && (Z.land s2 15 =? Z.shiftr b 4)%Z
    && (Z.shiftr s3 2 =? Z.land a 15)%Z
    && (Z.land s3 3 =? Z.shiftr b 6)%Z
    && (Z.lor (Z.shiftl s1 2) (Z.shiftr (Z.shiftl (Z.land a 3) 4) 4) =? a)%Z
    && (Z.shiftr (Z.shiftl (Z.land a 15) 2) 2 =? Z.land a 15)%Z
    && (Z.lor (Z.shiftl (Z.shiftr a 4) 4) (Z.land a 15) =? a)%Z
    && (Z.lor (Z.shiftl (Z.shiftr a 6) 6) (Z.land a 63) =? a)%Z)) = true)
    by (vm_compute; reflexivity).
  pose proof (in_range_spec _ _ (in_range_spec _ _ H a Ha) b Hb) as H'.
  clear H. cbv zeta in H'.
  repeat (apply andb_true_iff in H' as [H' ?]).
  repeat match goal with
         | H : (_ =? _)%Z = true |- _ => apply Z.eqb_eq in H
         | H : is_sextet _ = true |- _ => apply is_sextet_spec in H
         | H : (_ <=? _)%Z = true |- _ => apply Z.leb_le in H
         | H : (_ <? _)%Z = true |- _ => apply Z.ltb_lt in H
         end.
  cbv zeta. repeat split; first [assumption | lia].
Qed.

Lemma sextets_range (bs : list Z) :
  Forall is_byte bs -> Forall (fun v => 0 <= v < 64)%Z (sextets bs).
Proof.
  induction bs as [|a|a b|a b c l IH] using list_ind3; intros H.
  - constructor.
  - apply Forall_cons in H as [Ha _].
    destruct (sextets_of_pair a a Ha Ha) as ((? & ? & ? & ? & ? & ?) & _).
    cbn [sextets]. repeat constructor; lia.
  - apply Forall_cons in H as [Ha H]. apply Forall_cons in H as [Hb _].
    destruct (sextets_of_pair a b Ha Hb) as ((? & ? & ? & ? & ? & ?) & _).
    destruct (sextets_of_pair b b Hb Hb) as ((? & ? & ? & ? & ? & ?) & _).
    cbn [sextets]. repeat constructor; lia.
  - apply Forall_cons in H as [Ha H]. apply Forall_cons in H as [Hb H].
    apply Forall_cons in H as [Hc H].
    destruct (sextets_of_pair a b Ha Hb) as ((? & ? & ? & ? & ? & ?) & _).
    destruct (sextets_of_pair b c Hb Hc) as ((? & ? & ? & ? & ? & ?) & _).
    cbn [sextets]. repeat (constructor; [lia|]). now apply IH.
Qed.

(** Decoding the sextets of a byte string gives the bytes back. *)
Lemma decode_sextets (bs : list Z) :
  Forall is_byte bs -> decode (sextets bs) = bs.
Proof.
  induction bs as [|a|a b|a b c l IH] using list_ind3; intros H.
  - reflexivity.
  - apply Forall_cons in H as [Ha _].
    destruct (sextets_of_pair a a Ha Ha) as (_ & _ & _ & _ & _ & H1 & _).
    cbn [sextets decode]. now rewrite H1.
  - apply Forall_cons in H as [Ha H]. apply Forall_cons in H as [Hb _].
    destruct (sextets_of_pair a b Ha Hb) as (_ & H1 & H2 & _).
    destruct (sextets_of_pair b b Hb Hb)
      as (_ & _ & _ & _ & _ & _ & H3 & H4 & _).
    cbn [sextets decode]. now rewrite H1, H2, H3, H4.
  - apply Forall_cons in H as [Ha H]. apply Forall_cons in H as [Hb H].
    apply Forall_cons in H as [Hc H].
    destruct (sextets_of_pair a b Ha Hb) as (_ & H1 & H2 & _).
    destruct (sextets_of_pair b c Hb Hc)
      as (_ & _ & _ & H3 & H4 & _ & _ & H5 & _).
    destruct (sextets_of_pair c c Hc Hc)
      as (_ & _ & _ & _ & _ & _ & _ & _ & H6).
    cbn [sextets decode]. rewrite H1, H2, H3, H4, H5, H6. now rewrite IH.
Qed.

(** The 64 characters of the alphabet: each stands for its index, none
    is the padding character and none is white space. *)
Lemma value_of_char_of (v : Z) :
  (0 <= v < 64)%Z ->
  value_of (char_of v) = Some v /\ char_of v <> "="%char /\
  is_whitespace (char_of v) = false.
Proof.
  intros Hv.
  assert (H : in_range 64 (fun v =>
    match value_of (char_of v) with Some w => (w =? v)%Z | None => false end
    && negb (Ascii.eqb (char_of v) "=") && negb (is_whitespace (char_of v)))
    = true) by (vm_compute; reflexivity).
  pose proof (in_range_spec _ _ H v Hv) as H'. clear H. cbv beta in H'.
  apply andb_true_iff in H' as [H' H3]. apply andb_true_iff in H' as [H1 H2].
  apply negb_true_iff in H2, H3. apply Ascii.eqb_neq in H2.
  destruct (value_of (char_of v)) as [w|]; [|discriminate].
  apply Z.eqb_eq in H1. subst w. auto.
Qed.

Lemma values_char_of (vs : list Z) :
  Forall (fun v => 0 <= v < 64)%Z vs -> values (map char_of vs) = Some vs.
Proof.
  induction 1 as [|v vs Hv _ IH]; [reflexivity|].
  cbn [map values]. destruct (value_of_char_of v Hv) as (-> & _ & _).
  now rewrite IH.
Qed.

Lemma length_sextets (bs : list Z) :
  exists k, (length (map char_of (sextets bs) ++ padding bs) = 4 * k)%nat /\
            (length (sextets bs) = 4 * k - length (padding bs))%nat /\
            (length (padding bs) <= 2)%nat /\
            (length (padding bs) = 0 \/ 1 <= k)%nat.
Proof.
  induction bs as [|a|a b|a b c l IH] using list_ind3.
  - exists 0%nat. cbn. lia.
  - exists 1%nat. cbn. lia.
  - exists 1%nat. cbn. lia.
  - destruct IH as (k & H1 & H2 & H3 & H4). exists (S k).
    cbn [sextets padding map app length] in *. lia.
Qed.

Lemma filter_whitespace (cs : list ascii) :
  Forall (fun c => is_whitespace c = false) cs ->
  filter (fun c => negb (is_whitespace c)) cs = cs.
Proof.
  induction 1 as [|c cs Hc _ IH]; [reflexivity|].
  rewrite filter_cons_True by (rewrite Hc; exact I). now rewrite IH.
Qed.

Lemma strip_padding_none (cs : list ascii) :
  match rev cs with c :: _ => c <> "="%char | [] => True end ->
  strip_padding cs = cs.
Proof.
  unfold strip_padding. destruct (length cs mod 4 =? 0)%nat; [|reflexivity].
  destruct (rev cs) as [|c r]; [reflexivity|]. intros Hc.
  destruct c as [[] [] [] [] [] [] [] []]; try reflexivity.
  now contradiction Hc.
Qed.

Lemma strip_padding_one (cs : list ascii) (c : ascii) :
  (length (cs ++ [c; "="%char]) mod 4 = 0)%nat -> c <> "="%char ->
  strip_padding (cs ++ [c; "="%char]) = cs ++ [c].
Proof.
  intros Hlen Hc. unfold strip_padding. rewrite Hlen. cbn [Nat.eqb].
  rewrite rev_app_distr. cbn [rev app].
  replace (cs ++ [c]) with (rev (c :: rev cs))
    by (cbn [rev]; now rewrite rev_involutive).
  destruct c as [[] [] [] [] [] [] [] []]; try reflexivity.
  now contradiction Hc.
Qed.

Lemma strip_padding_two (cs : list ascii) :
  (length (cs ++ ["="%char; "="%char]) mod 4 = 0)%nat ->
  strip_padding (cs ++ ["="%char; "="%char]) = cs.
Proof.
  intros Hlen. unfold strip_padding. rewrite Hlen. cbn [Nat.eqb].
  rewrite rev_app_distr. cbn [rev app]. apply rev_involutive.
Qed.

Lemma padding_cases (bs : list Z) :
  padding bs = [] \/ padding bs = ["="%char] \/
  padding bs = ["="%char; "="%char].
Proof.
  induction bs as [|a|a b|a b c l IH] using list_ind3; cbn [padding]; auto.
Qed.

Lemma strip_padding_encode (bs : list Z) :
  Forall is_byte bs ->
  strip_padding (map char_of (sextets bs) ++ padding bs)
  = map char_of (sextets bs).
Proof.
  intros Hb. pose proof (sextets_range bs Hb) as Hr.
  destruct (length_sextets bs) as (k & Hlen & Hs & _ & Hk).
  assert (Hmod : (length (map char_of (sextets bs) ++ padding bs) mod 4
                  = 0)%nat)
    by (rewrite Hlen, Nat.mul_comm; apply Nat.Div0.mod_mul).
  destruct (padding_cases bs) as [Hp | [Hp | Hp]]; rewrite Hp in *.
  - rewrite app_nil_r. apply strip_padding_none.
    rewrite <- map_rev. apply Forall_rev in Hr.
    destruct (rev (sextets bs)) as [|v r]; [exact I|].
    apply Forall_cons in Hr as [Hv _]. apply (value_of_char_of v Hv).
  - destruct (sextets bs) as [|v0 vs0] eqn:Hvs using rev_ind;
      [cbn [length] in Hs; destruct Hk; [discriminate | lia]|].
    clear IHvs0. apply Forall_app in Hr as [_ Hv].
    apply Forall_cons in Hv as [Hv _].
    rewrite map_app in *. cbn [map] in *. rewrite <- app_assoc in *.
    cbn [app] in *. apply strip_padding_one; [exact Hmod|].
    apply (value_of_char_of _ Hv).
  - now apply strip_padding_two.
Qed.

(** [atob] undoes [btoa] on a string of bytes. *)
Lemma atob_encode (bs : list Z) :
  Forall is_byte bs ->
  atob (string_of_list_ascii (encode bs))
  = Ok (string_of_list_ascii (map fromCharCode bs)).
Proof.
  intros Hb. pose proof (sextets_range bs Hb) as Hr.
  unfold atob. rewrite list_ascii_of_string_of_list_ascii, encode_sextets.
  rewrite filter_whitespace.
  - rewrite strip_padding_encode by exact Hb.
    destruct (length_sextets bs) as (k & _ & Hs & Hp & Hk).
    rewrite length_map.
    assert (Hne : (length (sextets bs) mod 4 =? 1)%nat = false).
    { apply Nat.eqb_neq. intros Hmod.
      pose proof (Nat.div_mod_eq (length (sextets bs)) 4). lia. }
    rewrite Hne, values_char_of by exact Hr.
    now rewrite decode_sextets.
  - apply Forall_app. split.
    + apply Forall_map. eapply Forall_impl; [exact Hr|].
      intros v Hv. apply (value_of_char_of v Hv).
    + destruct (padding_cases bs) as [-> | [-> | ->]];
        repeat constructor.
Qed.

Lemma code_fromCharCode (b : Z) : is_byte b -> code (fromCharCode b) = b.
Proof.
  intros Hb. unfold code, fromCharCode, u8, is_byte in *.
  rewrite Z.mod_small by lia. rewrite nat_ascii_embedding by lia. lia.
Qed.

Lemma append_snoc (acc : string) (c : ascii) (s : string) :
  (acc +:+ String c "") +:+ s = acc +:+ String c s.
Proof.
  induction acc as [|a acc IH].
  - now rewrite !PinValidatorFacts.append_nil, PinValidatorFacts.append_cons,
      PinValidatorFacts.append_nil.
  - now rewrite !PinValidatorFacts.append_cons, IH.
Qed.

Lemma append_empty (s : string) : s +:+ "" = s.
Proof.
  induction s as [|a s IH]; [reflexivity|].
  now rewrite PinValidatorFacts.append_cons, IH.
Qed.

Lemma binary_fold (bs : list Z) (acc : string) :
  fold_left (fun binary b => binary +:+ String (fromCharCode b) "") bs acc
  = acc +:+ string_of_list_ascii (map fromCharCode bs).
Proof.
  revert acc. induction bs as [|b bs IH]; intros acc; cbn [fold_left map].
  - cbn [string_of_list_ascii]. now rewrite append_empty.
  - rewrite IH. cbn [string_of_list_ascii]. apply append_snoc.
Qed.

Lemma arrayBufferToBase64_eq (bs : list Z) :
  Forall is_byte bs ->
  arrayBufferToBase64 bs = string_of_list_ascii (encode bs).
Proof.
  intros Hb. unfold arrayBufferToBase64, btoa. rewrite binary_fold.
  change ("" +:+ ?s) with s.
  rewrite list_ascii_of_string_of_list_ascii, map_map.
  rewrite (map_ext_Forall _ (fun b => b)), map_id; [reflexivity|].
  eapply Forall_impl; [exact Hb|]. intros b. apply code_fromCharCode.
Qed.

Lemma base64_roundtrip (bs : list Z) :
  Forall is_byte bs -> base64ToArrayBuffer (arrayBufferToBase64 bs) = Ok bs.
Proof.
  intros Hb. rewrite arrayBufferToBase64_eq by exact Hb.
  unfold base64ToArrayBuffer. rewrite atob_encode by exact Hb.
  rewrite list_ascii_of_string_of_list_ascii, map_map.
  rewrite (map_ext_Forall _ (fun b => b)), map_id; [reflexivity|].
  eapply Forall_impl; [exact Hb|]. intros b. apply code_fromCharCode.
Qed.

(** X1. [base64ToArrayBuffer] undoes [arrayBufferToBase64]: a buffer of
    bytes that is written as base64 and read back is the same buffer,
    whatever its length, and reading it back does not throw. *)
Theorem base64ToArrayBuffer_arrayBufferToBase64 (bs : list Z) :
  Forall is_byte bs ->
  base64ToArrayBuffer (arrayBufferToBase64 bs) = Ok bs.
Proof. exact (base64_roundtrip bs). Qed.

Lemma base64ToArrayBuffer_arrayBufferToBase64_witness :
  base64ToArrayBuffer (arrayBufferToBase64 [0; 255; 16; 7]%Z)
  = Ok [0; 255; 16; 7]%Z.
Proof.
  apply base64ToArrayBuffer_arrayBufferToBase64.
  repeat constructor; unfold is_byte; lia.
Defined.

End Base64Facts.

(** ** Upload and download *)

Module FileTransferFacts.
Import Base64Facts EncryptionManager FileManager Samples.

Lemma getRandomValues_bytes (n : nat) (g : Rng) :
  Forall is_byte (fst (getRandomValues n g)).
Proof.
  unfold getRandomValues. cbn [fst]. apply Forall_map, Forall_forall.
  intros i _. unfold is_byte, u8. apply Z.mod_pos_bound. lia.
Qed.

(** [encryptFile] never fails; what it returns decrypts under the same
    PIN, and its salt and nonce are bytes. *)
Lemma encryptFile_ok (b : list Z) (pin : string) (g : Rng) :
  exists enc g',
    encryptFile b pin g = (Ok enc, g') /\
    Forall is_byte (salt enc) /\ Forall is_byte (iv enc) /\
    forall g'', decryptFile (encryptedData enc) pin (salt enc) (iv enc) g''
                = (Ok b, g'').
Proof.
  eexists _, _. split; [apply EncryptionManagerFacts.encryptFile_eq|].
  cbn [salt iv encryptedData].
  split; [apply getRandomValues_bytes|].
  split; [apply getRandomValues_bytes|].
  intros g''. rewrite EncryptionManagerFacts.decryptFile_eq.
  rewrite GcmFacts.decrypt_encrypt. reflexivity.
Qed.

(** X2. Upload, then download.  While the four requests succeed, the
    upload of a file stores a record under a fresh id with the file's
    name, type and size, and shows the stored files; a download of that
    record, in the same vault and so with the same PIN, reads the salt
    and the nonce back from the metadata store and returns the bytes of
    the file that was picked, without an error message. *)
Theorem upload_then_download (file : File) (a : App) :
  reliable 4 (env a) ->
  exists a1 vf,
    handleFileUpload [file] a = (Ok tt, a1) /\
    files (db (env a1)) !! file_id vf = Some vf /\
    file_name vf = name file /\ file_type vf = type file /\
    file_size vf = size file /\
    st_files (vault a1) = VaultStorage.getAll (files (db (env a1))) /\
    exists a2,
      handleDownload vf a1 = (Ok (Some (arrayBuffer file)), a2) /\
      fm_error (manager a2) = "".
Proof.
  destruct a as [[pc un pin lo er at_ lk lt fl se iv] [up sel err]
                 [[dfl dpc dss dmd] c g fs co ca]].
  intros H. unfold handleFileUpload, upload_one. cbn [fold_right].
  exec_vault.
  match goal with
  | |- context [encryptFile ?b ?p ?r] =>
      destruct (encryptFile_ok b p r) as (enc & g2 & -> & Hs & Hi & Hdec)
  end.
  no_fault H fs; [|no_fault H fs; [|no_fault H fs]]; exec_vault.
  all: eexists _, (mkVaultFile _ _ _ _ _ _ _ _); (split; [reflexivity|]).
  all: cbn [file_id file_name file_type file_size].
  all: (split; [apply lookup_insert_eq|]); do 4 (split; [reflexivity|]).
  all: unfold handleDownload; try (no_fault H fs); exec_vault.
  all: cbn [file_id file_encryptedData]; rewrite lookup_insert_eq; exec_vault.
  all: rewrite !base64_roundtrip by assumption.
  all: exec_vault; rewrite Hdec; exec_vault.
  all: eexists; split; reflexivity.
Qed.

Lemma upload_then_download_witness :
  exists a1 vf a2,
    handleFileUpload [picked_file] vault_with_file = (Ok tt, a1) /\
    handleDownload vf a1 = (Ok (Some [104; 105]%Z), a2).
Proof.
  destruct (upload_then_download picked_file vault_with_file)
    as (a1 & vf & Hup & _ & _ & _ & _ & _ & a2 & Hdown & _); [constructor|].
  exists a1, vf, a2. split; [exact Hup | exact Hdown].
Defined.

(** X3. The metadata is stored before the file.  When the first request
    of an upload succeeds and the second fails, the upload is logged and
    marked as failed at 70%, the file store and the list on the screen
    are as before, and the metadata record of the file that was not
    stored stays in the metadata store. *)
Theorem upload_failure_leaves_metadata (file : File) (a : App)
    (fs : list bool) :
  faults (env a) = false :: true :: fs ->
  exists a1 fileId salt iv others,
    handleFileUpload [file] a = (Ok tt, a1) /\
    files (db (env a1)) = files (db (env a)) /\
    st_files (vault a1) = st_files (vault a) /\
    metadata (db (env a1)) =
      <["file_" +:+ fileId := MetaKeys salt iv]> (metadata (db (env a))) /\
    console (env a1) =
      console (env a) ++ [("File upload failed:", RequestError)] /\
    fm_uploadProgress (manager a1) =
      others ++ [mkProgress fileId 70 upload_error (Some "Upload failed")].
Proof.
  destruct a as [[pc un pin lo er at_ lk lt fl se iv] [up sel err]
                 [[dfl dpc dss dmd] c g fs0 co ca]].
  cbn [env faults]. intros ->.
  unfold handleFileUpload, upload_one. cbn [fold_right].
  exec_vault.
  match goal with
  | |- context [encryptFile ?b ?p ?r] =>
      destruct (encryptFile_ok b p r) as (enc & g2 & -> & _)
  end.
  exec_vault. unfold update_progress. rewrite !map_app. cbn [map].
  cbn [progress_fileId progress status progress_error].
  rewrite !String.eqb_refl.
  cbn [progress_fileId progress status progress_error].
  eexists _, _, _, _, _. split; [reflexivity|].
  repeat split; reflexivity.
Qed.

Lemma upload_failure_leaves_metadata_witness :
  exists a1 fileId salt iv,
    handleFileUpload [picked_file] vault_on_failing_store = (Ok tt, a1) /\
    files (db (env a1)) = files (db (env vault_on_failing_store)) /\
    metadata (db (env a1)) !! ("file_" +:+ fileId) = Some (MetaKeys salt iv).
Proof.
  destruct (upload_failure_leaves_metadata picked_file
              vault_on_failing_store [])
    as (a1 & fileId & salt & iv & others & Hup & Hfiles & _ & Hmeta & _);
    [reflexivity|].
  exists a1, fileId, salt, iv. split; [exact Hup|]. split; [exact Hfiles|].
  rewrite Hmeta. apply lookup_insert_eq.
Defined.

(** A handler under a [try] whose [catch] does not throw never throws. *)
Lemma try_catch_ok {S} (body : SE S unit) (handler : Exn -> SE S unit)
    (s : S) :
  (forall e s', fst (handler e s') = Ok tt) ->
  fst (try_catch body handler s) = Ok tt.
Proof.
  intros Hh. unfold try_catch. destruct (body s) as [[[]|e] s'];
    [reflexivity | apply Hh].
Qed.

Lemma upload_one_never_throws (file : File) (a : App) :
  fst (upload_one file a) = Ok tt.
Proof.
  unfold upload_one. unfold bind at 1. unfold get_state.
  unfold bind at 1.
  destruct (io (crypto generateSecureId) a) as [[fileId|e] a1] eqn:Hid.
  - unfold bind at 1. unfold setUploadProgress at 1, modify at 1.
    apply try_catch_ok. intros e s'. reflexivity.
  - exfalso. revert Hid. unfold io, crypto, zoom, generateSecureId, bind,
      random_bytes, ret. destruct (getRandomValues 16 (rng (env a))).
    discriminate.
Qed.

Lemma handleFileUpload_never_throws (fileList : list File) (a : App) :
  fst (handleFileUpload fileList a) = Ok tt.
Proof.
  unfold handleFileUpload. destruct fileList as [|file0 rest]; [reflexivity|].
  unfold bind at 1. unfold setManagerError, modify.
  generalize (file0 :: rest). intros l.
  generalize (set_manager
       (fun m : Manager =>
        {| fm_uploadProgress := fm_uploadProgress m;
           fm_selectedFile := fm_selectedFile m; fm_error := "" |}) a).
  induction l as [|file l IH]; intros b; [reflexivity|].
  cbn [fold_right]. unfold bind at 1.
  pose proof (upload_one_never_throws file b) as H1.
  destruct (upload_one file b) as [[[]|e] b1]; [apply IH | discriminate H1].
Qed.

Lemma handleDownload_never_throws (file : VaultFile) (a : App) :
  exists r, fst (handleDownload file a) = Ok r.
Proof.
  unfold handleDownload, bind at 1, get_state. unfold try_catch.
  match goal with
  | |- context [match ?body a with _ => _ end] =>
      destruct (body a) as [[r|e] a1]
  end; [eauto|]. exists None. reflexivity.
Qed.

Lemma handleDelete_never_throws (file : VaultFile) (confirmed : bool)
    (a : App) :
  fst (handleDelete file confirmed a) = Ok tt.
Proof.
  unfold handleDelete. destruct confirmed; [|reflexivity].
  apply try_catch_ok. reflexivity.
Qed.

(** X4. The three handlers of the file manager catch every failure of
    the store and of the encryption: whatever the state, the files and
    the faults of the store, none of them throws; a failed download
    returns no data. *)
Theorem file_handlers_never_throw (fileList : list File) (file : VaultFile)
    (confirmed : bool) (a : App) :
  fst (handleFileUpload fileList a) = Ok tt /\
  (exists r, fst (handleDownload file a) = Ok r) /\
  fst (handleDelete file confirmed a) = Ok tt.
Proof.
  split; [apply handleFileUpload_never_throws|].
  split; [apply handleDownload_never_throws|].
  apply handleDelete_never_throws.
Qed.

End FileTransferFacts.

(** ** The vault's handlers *)

Module SecretVaultHandlers.
Import SecretVault Samples.
Section Vault.
Variable hashPin : string -> SE Rng string.
Variable verifyPin : string -> string -> SE Rng bool.

Lemma initializeVault_never_throws (a : App) :
  fst (initializeVault a) = Ok tt.
Proof.
  unfold initializeVault. unfold bind at 1.
  match goal with
  | |- context [try_catch ?b ?h a] =>
      pose proof (FileTransferFacts.try_catch_ok b h a) as H;
      destruct (try_catch b h a) as [[[]|e] a1]
  end; [reflexivity|]. apply H. reflexivity.
Qed.

Lemma handlePinSetup_never_throws (newPin : string) (a : App) :
  fst (handlePinSetup hashPin newPin a) = Ok tt.
Proof. apply FileTransferFacts.try_catch_ok. reflexivity. Qed.

Lemma handlePinSubmit_never_throws (a : App) :
  fst (handlePinSubmit verifyPin a) = Ok tt.
Proof.
  unfold handlePinSubmit, bind at 1, get_state.
  destruct (st_pinConfig (vault a)) as [cfg|]; [|reflexivity].
  destruct (PinValidator.falsy (st_currentPin (vault a))); [reflexivity|].
  unfold bind at 1. unfold setError at 1, modify at 1.
  apply FileTransferFacts.try_catch_ok. reflexivity.
Qed.

(** X5. [initializeVault], [handlePinSetup] and [handlePinSubmit] catch
    every failure of the store and of the encryption manager: whatever
    [hashPin] and [verifyPin] do and whichever requests fail, none of
    the three throws. *)
Theorem vault_handlers_never_throw (a : App) (newPin : string) :
  fst (initializeVault a) = Ok tt /\
  fst (handlePinSetup hashPin newPin a) = Ok tt /\
  fst (handlePinSubmit verifyPin a) = Ok tt.
Proof.
  split; [apply initializeVault_never_throws|].
  split; [apply handlePinSetup_never_throws|].
  apply handlePinSubmit_never_throws.
Qed.

(** X6. [handleClose] awaits [endSession] without a [try].  While the
    two requests succeed the session's record is put back inactive and
    the vault is closed.  When a request of [endSession] fails, the
    handler throws, [onClose] is not reached and the vault stays on the
    screen as it was, its session still in the store as before. *)
Theorem handleClose_ends_session_or_stays (a : App) (s : VaultSession) :
  st_currentSession (vault a) = Some s ->
  (reliable 2 (env a) ->
   exists a', handleClose a = (Ok tt, a') /\ vault a' = initial /\
     forall s0, sessions (db (env a)) !! session_id s = Some s0 ->
       sessions (db (env a')) !! session_id s0
       = Some (VaultStorage.deactivated s0)) /\
  (forall fs,
     faults (env a) = true :: fs \/
     (faults (env a) = false :: true :: fs /\
      sessions (db (env a)) !! session_id s <> None) ->
   exists a', handleClose a = (Throw RequestError, a') /\
     vault a' = vault a /\ db (env a') = db (env a)).
Proof.
  destruct a as [[pc un pin lo er at_ lk lt fl se iv] m
                 [[dfl dpc dss dmd] c g fs co ca]].
  cbn [vault env st_currentSession faults db sessions]. intros ->. split.
  - intros H. no_fault H fs; exec_vault;
      destruct (dss !! session_id s) as [s0|] eqn:Hs; exec_vault.
    2, 4: eexists; split; [reflexivity|]; split; [reflexivity|]; discriminate.
    all: try (no_fault H fs); exec_vault.
    all: eexists; (split; [reflexivity|]); (split; [reflexivity|]).
    all: intros s1 [= <-]; apply lookup_insert_eq.
  - intros fs' [-> | [-> Hs]]; exec_vault.
    + eexists. repeat split; reflexivity.
    + destruct (dss !! session_id s) as [s0|]; [|congruence]. exec_vault.
      eexists. repeat split; reflexivity.
Qed.

(** X7. A PIN that verifies unlocks the vault.  While the three
    requests succeed, [handlePinSubmit] stores the configuration with
    the attempts at zero and no lockout, keeping the hash; it creates a
    session that is active, starts now and is in the store under its
    id; it shows the files of the store; and it keeps the PIN that was
    typed, which the file manager encrypts and decrypts with.  The file
    and metadata stores are untouched. *)
Theorem handlePinSubmit_unlocks (a : App) (cfg : PinConfig) (g' : Rng) :
  st_pinConfig (vault a) = Some cfg ->
  st_currentPin (vault a) <> "" ->
  verifyPin (st_currentPin (vault a)) (hash cfg) (rng (env a))
    = (Ok true, g') ->
  reliable 3 (env a) ->
  let reset := mkPinConfig (hash cfg) 0 None (isFirstTime cfg) in
  exists a' session,
    handlePinSubmit verifyPin a = (Ok tt, a') /\
    screen (vault a') = (if st_isLoading (vault a) then Spinner else Files) /\
    st_isUnlocked (vault a') = true /\
    stored_config a' = Some reset /\
    st_pinConfig (vault a') = Some reset /\
    st_currentSession (vault a') = Some session /\
    sessions (db (env a')) !! session_id session = Some session /\
    isActive session = true /\
    startTime session = clock (env a) /\
    lastActivity session = clock (env a) /\
    st_files (vault a') = VaultStorage.getAll (files (db (env a))) /\
    st_currentPin (vault a') = st_currentPin (vault a) /\
    files (db (env a')) = files (db (env a)) /\
    metadata (db (env a')) = metadata (db (env a)).
Proof.
  destruct a as [[pc un pin lo er at_ lk lt fl se iv] m
                 [[dfl dpc dss dmd] c g fs co ca]].
  cbn [vault env st_pinConfig st_currentPin rng hash].
  intros -> Hpin Hv H. cbv zeta.
  destruct pin as [|ch pin]; [congruence|]. clear Hpin.
  exec_vault. rewrite Hv. exec_vault.
  no_fault H fs; [|no_fault H fs; [|no_fault H fs]]; exec_vault.
  all: eexists _, (mkVaultSession _ _ _ _); (split; [reflexivity|]).
  all: unfold screen, stored_config; exec_vault.
  all: cbn [session_id isActive startTime lastActivity].
  all: rewrite !lookup_insert_eq; destruct lo; repeat split; reflexivity.
Qed.

(** One second on the lockout alert. *)
Lemma second_eq (cfg : PinConfig) (pin er : string) (at_ t armed : Z)
    (fl : list VaultFile) (se : option VaultSession) (m : Manager)
    (e : Env) :
  (0 < t)%Z -> (armed <= clock e)%Z ->
  run hashPin verifyPin second
      (mkApp (mkVault (Some cfg) false pin false er at_ true t fl se
                      (Some armed)) m e)
  = mkApp (mkVault (Some cfg) false pin false er at_ (negb (t =? 1)%Z)
                   (t - 1) fl se
                   (if (t =? 1)%Z then None else Some (clock e + 1000)%Z))
          m (set_clock (clock e + 1000) e).
Proof.
  destruct e as [d c g fs co ca]. cbn [clock]. intros Ht Harmed.
  unfold second, run. cbn [fold_left].
  unfold step at 2. cbn [enabled handler]. unfold lockout_effect.
  exec_vault. rewrite Z.eqb_refl. cbn [Bool.eqb andb].
  change (Z.of_N 1000) with 1000%Z.
  unfold step. cbn [enabled vault st_interval env clock].
  destruct (Z.leb_spec (armed + 1000) (c + 1000)) as [_|Hlt]; [|lia].
  cbn [handler]. unfold lockout_effect. exec_vault.
  destruct (Z.leb_spec t 1) as [Hle|Hgt]; exec_vault;
    cbn [Bool.eqb andb].
  - assert (t = 1)%Z as -> by lia. reflexivity.
  - destruct (Z.eqb_spec t (t - 1)) as [Heq|_]; [lia|].
    destruct (Z.ltb_spec 0 (t - 1)) as [_|Hle]; [|lia].
    destruct (Z.eqb_spec t 1) as [Heq|_]; [lia|]. reflexivity.
Qed.

(** X8. The lockout alert counts down.  On the alert with [n] seconds
    to go and its interval armed, [k] seconds later ([k] rounds of one
    second passing and the interval firing) the time shown is [n - k];
    the alert stays up to the [n]-th second and the PIN form is back
    exactly then; nothing is stored and no PIN is verified meanwhile. *)
Theorem lockout_alert_counts_down (n k : nat) (a : App) (armed : Z) :
  screen (vault a) = LockoutAlert ->
  st_lockoutTime (vault a) = Z.of_nat n ->
  st_interval (vault a) = Some armed -> (armed <= clock (env a))%Z ->
  (k <= n)%nat -> (0 < n)%nat ->
  let a' := run hashPin verifyPin (concat (repeat second k)) a in
  st_lockoutTime (vault a') = (Z.of_nat n - Z.of_nat k)%Z /\
  clock (env a') = (clock (env a) + 1000 * Z.of_nat k)%Z /\
  screen (vault a') = (if (k <? n)%nat then LockoutAlert else PinForm) /\
  db (env a') = db (env a) /\ calls (env a') = calls (env a).
Proof.
  revert n a armed. induction k as [|k IH]; intros n a armed Hs Ht Hi Ha Hk Hn.
  - cbn [repeat concat run fold_left]. rewrite Hs, Ht.
    destruct (Nat.ltb_spec 0 n); [|lia]. repeat split; lia.
  - cbn [repeat concat]. unfold run. rewrite fold_left_app.
    fold (run hashPin verifyPin second a).
    fold (run hashPin verifyPin (concat (repeat second k))
              (run hashPin verifyPin second a)).
    destruct a as [[pc un pin lo er at_ lk lt fl se iv] m e].
    cbn [vault env st_lockoutTime st_interval] in *. subst lt iv.
    unfold screen in Hs. cbn [st_isLoading st_isUnlocked st_pinConfig
                              st_isLockedOut] in Hs.
    destruct lo; [discriminate|]. destruct un; [discriminate|].
    destruct pc as [cfg|]; [|discriminate]. destruct lk; [|discriminate].
    rewrite second_eq by lia.
    destruct (Z.eqb_spec (Z.of_nat n) 1) as [Hone|Hmore].
    + assert (k = 0)%nat as -> by lia. cbn [repeat concat run fold_left].
      cbn [negb]. unfold screen. exec.
      destruct (Nat.ltb_spec 1 n); [lia|]. repeat split; lia.
    + cbn [negb].
      destruct (IH (n - 1)%nat
                  (mkApp (mkVault (Some cfg) false pin false er at_ true
                                  (Z.of_nat n - 1) fl se
                                  (Some (clock e + 1000)%Z)) m
                         (set_clock (clock e + 1000) e))
                  (clock e + 1000)%Z)
        as (H1 & H2 & H3 & H4 & H5);
        [reflexivity | cbn [vault st_lockoutTime]; lia | reflexivity
        | destruct e; cbn; lia | lia | lia |].
      cbv zeta. rewrite H1, H2, H3, H4, H5.
      destruct e as [d c g fs co ca]. cbn [env clock set_clock db calls].
      destruct (Nat.ltb_spec k (n - 1)); destruct (Nat.ltb_spec (S k) n);
        try lia; repeat split; lia.
Qed.

End Vault.

Lemma handleClose_ends_session_or_stays_witness :
  exists a',
    handleClose vault_in_session = (Ok tt, a') /\ vault a' = initial.
Proof.
  destruct (proj1 (handleClose_ends_session_or_stays vault_in_session
                     open_session eq_refl))
    as (a' & Hrun & Hv & _); [constructor|].
  exists a'. split; [exact Hrun | exact Hv].
Defined.

Lemma handlePinSubmit_unlocks_witness :
  exists a', handlePinSubmit accept pin_form_vault = (Ok tt, a') /\
             screen (vault a') = Files.
Proof.
  destruct (handlePinSubmit_unlocks accept pin_form_vault four_failures
              (mkRng (fun _ => 0%Z) 0))
    as (a' & session & Hrun & Hscreen & _);
    [reflexivity | discriminate | reflexivity | constructor |].
  exists a'. split; [exact Hrun | exact Hscreen].
Defined.

Lemma lockout_alert_counts_down_witness :
  st_lockoutTime
    (vault (run EncryptionManager.hashPin EncryptionManager.verifyPin
                (concat (repeat second 2)) locked_out_vault)) = 897%Z.
Proof.
  apply (lockout_alert_counts_down EncryptionManager.hashPin
           EncryptionManager.verifyPin 899 2 locked_out_vault 2000);
    [reflexivity | reflexivity | reflexivity | cbn; lia | lia | lia].
Defined.

(** *** With the encryption manager as it is *)

Lemma lockout_effect_unlocked (before : Vault) (a : App) :
  st_isUnlocked (vault (lockout_effect before a)) = st_isUnlocked (vault a).
Proof.
  unfold lockout_effect.
  destruct (Bool.eqb _ _ && (_ =? _)%Z); reflexivity.
Qed.

Lemma step_stays_locked (a : App) (ev : Event) :
  st_isUnlocked (vault a) = false ->
  st_isUnlocked
    (vault (step EncryptionManager.hashPin EncryptionManager.verifyPin a ev))
  = false.
Proof.
  intros Hun. unfold step. destruct (enabled ev a) eqn:Hen; [|exact Hun].
  rewrite lockout_effect_unlocked.
  destruct a as [[pc un pin lo er at_ lk lt fl se iv] m
                 [[dfl dpc dss dmd] c g fs co ca]].
  cbn [vault st_isUnlocked] in Hun. subst un.
  destruct ev; cbn [handler].
  - (* Mount *)
    destruct fs as [|[|] fs]; exec_vault; try reflexivity;
      destruct (dpc !! "main") as [c0|]; exec_vault; try reflexivity;
      destruct (lockoutUntil c0) as [until|]; exec_vault; try reflexivity;
      destruct (c <? until)%Z; reflexivity.
  - reflexivity.
  - (* Submit *)
    exec_vault. destruct pc as [cfg|]; [|reflexivity].
    destruct pin as [|ch pin]; [reflexivity|]. exec_vault.
    rewrite EncryptionManagerFacts.verifyPin_false. exec_vault.
    destruct (or_zero (attempts cfg) + 1 >=? 5)%Z;
      destruct fs as [|[|] fs]; reflexivity.
  - (* Setup *)
    exec_vault. rewrite EncryptionManagerFacts.hashPin_throws. reflexivity.
  - (* Close *)
    exec_vault. destruct se as [s|]; [|reflexivity]. exec_vault.
    destruct fs as [|[|] fs]; exec_vault; try reflexivity;
      destruct (dss !! session_id s); exec_vault; try reflexivity;
      destruct fs as [|[|] fs]; reflexivity.
  - (* Tick *)
    exec_vault. destruct (lt <=? 1)%Z; reflexivity.
  - reflexivity.
  - exfalso. revert Hen. cbv [enabled screen vault st_isLoading st_isUnlocked
      st_pinConfig st_isLockedOut screen_eqb].
    destruct lo, pc, lk; discriminate.
  - exfalso. revert Hen. cbv [enabled screen vault st_isLoading st_isUnlocked
      st_pinConfig st_isLockedOut screen_eqb andb].
    destruct lo, pc, lk; discriminate.
  - exfalso. revert Hen. cbv [enabled screen vault st_isLoading st_isUnlocked
      st_pinConfig st_isLockedOut screen_eqb].
    destruct lo, pc, lk; discriminate.
Qed.

(** X9. With the encryption manager of lib/encryption.ts, whose
    [hashPin] throws and whose [verifyPin] answers false (C4), a vault
    that is not unlocked never gets unlocked: through every sequence of
    events, every setup fails and every submission counts as a failure,
    so the file screen is never shown. *)
Theorem vault_never_unlocks (evs : list Event) (a : App) :
  st_isUnlocked (vault a) = false ->
  let a' := run EncryptionManager.hashPin EncryptionManager.verifyPin evs a in
  st_isUnlocked (vault a') = false /\ screen (vault a') <> Files.
Proof.
  intros Hun. cbv zeta.
  assert (H : st_isUnlocked
                (vault (run EncryptionManager.hashPin
                            EncryptionManager.verifyPin evs a)) = false).
  { revert a Hun. induction evs as [|ev evs IH]; intros a Hun; [exact Hun|].
    cbn [run fold_left]. apply IH. now apply step_stays_locked. }
  split; [exact H|]. unfold screen. rewrite H.
  destruct (st_isLoading _); [discriminate|].
  destruct (st_pinConfig _); [destruct (st_isLockedOut _)|]; discriminate.
Qed.

Lemma vault_never_unlocks_witness :
  st_isUnlocked
    (vault (run EncryptionManager.hashPin EncryptionManager.verifyPin
                [Mount; TypePin "1357"; Submit] pin_form_vault)) = false.
Proof.
  apply (vault_never_unlocks [Mount; TypePin "1357"; Submit] pin_form_vault).
  reflexivity.
Defined.

End SecretVaultHandlers.

(** ** The setup form *)

Ltac exec_form :=
  cbv beta iota zeta delta
      [bind ret throw try_catch get_state modify zoom fst snd negb
       PinSetup.setStep PinSetup.setInitialPin PinSetup.setConfirmPin
       PinSetup.setErrors PinSetup.setIsLoading PinSetup.set_form
       PinSetup.set_parent PinSetup.call_onPinSetup
       PinSetup.validateAndProceed PinSetup.handleConfirmPin
       PinSetup.handleReset PinSetup.generateSecurePin
       PinSetup.form PinSetup.parent PinSetup.handed
       PinSetup.step PinSetup.initialPin PinSetup.confirmPin
       PinSetup.errors PinSetup.isLoading].

Module PinSetupFacts.
Import PinSetup.
Section Form.
Variable onPinSetup : string -> SE App unit.
Variable stack : nat.

Lemma only_digits_digits (value : string) :
  digits_or_empty (only_digits value).
Proof.
  unfold digits_or_empty, only_digits.
  apply PinValidatorFacts.all_chars_In. intros c.
  rewrite list_ascii_of_string_of_list_ascii. intros Hc.
  now apply List.filter_In in Hc.
Qed.

Lemma length_string_of_list_ascii (l : list ascii) :
  String.length (string_of_list_ascii l) = length l.
Proof. induction l as [|c l IH]; cbn; [reflexivity | now rewrite IH]. Qed.

Lemma length_list_ascii_of_string (s : string) :
  length (list_ascii_of_string s) = String.length s.
Proof. induction s as [|c s IH]; cbn; [reflexivity | now rewrite IH]. Qed.

Lemma length_only_digits (value : string) :
  (String.length (only_digits value) <= String.length value)%nat.
Proof.
  unfold only_digits. rewrite length_string_of_list_ascii.
  rewrite <- length_list_ascii_of_string. apply List.filter_length_le.
Qed.

(** The two messages that a string of digits within the field's length
    cannot draw. *)
Lemma validatePin_digits (pin : string) :
  pin <> "" -> digits_or_empty pin -> (String.length pin <= 20)%nat ->
  ~ In PinValidator.ERR_DIGITS
       (PinValidator.errors (PinValidator.validatePin pin)) /\
  ~ In PinValidator.ERR_LONG
       (PinValidator.errors (PinValidator.validatePin pin)).
Proof.
  intros Hne Hd Hlen. unfold PinValidator.validatePin.
  assert (Ht : PinValidator.test PinValidator.ReDigits pin = true)
    by (destruct pin; [congruence | exact Hd]).
  rewrite Ht. destruct (Nat.ltb_spec 20 (String.length pin)) as [?|_]; [lia|].
  cbn [PinValidator.errors negb]. unfold PinValidator.push_if.
  destruct (PinValidator.falsy pin || _), (PinValidator.isWeakPin pin);
    cbn; split; intros H; intuition discriminate.
Qed.

Lemma generated_pin (g g' : Rng) (pin : string) :
  PinValidator.generateSecurePin stack g = Some (pin, g') ->
  digits_or_empty pin /\ String.length pin = 6%nat.
Proof.
  intros H. apply PinValidatorFacts.generateSecurePin_some in H
    as (k & _ & -> & _ & _).
  set (bs := fst (getRandomValues 6 (Nat.iter k PinValidator.skip_draw g))).
  assert (Hlen : length bs = 6%nat)
    by apply EncryptionManagerFacts.length_getRandomValues.
  split; [|now rewrite PinValidatorFacts.length_pin_of_bytes].
  assert (Hne : bs <> []) by (intros Heq; rewrite Heq in Hlen; discriminate).
  pose proof (PinValidatorFacts.digits_pin_of_bytes bs Hne) as Hd.
  unfold digits_or_empty. destruct (PinValidator.pin_of_bytes bs);
    [reflexivity | exact Hd].
Qed.

(** Every event keeps the form well formed. *)
Lemma well_formed_fire (p : Page) (ev : Event) :
  well_formed p -> well_formed (fire onPinSetup stack p ev).
Proof.
  intros Hk. unfold fire. destruct (enabled ev p) eqn:Hen; [|exact Hk].
  apply andb_true_iff in Hen as [_ Hen].
  destruct p as [[st ip cp errs lo] a hd].
  destruct Hk as (Hd & Hlen & Hv & Hh & He1 & He2).
  cbn [form step initialPin confirmPin errors isLoading handed] in *.
  destruct ev, st; try discriminate Hen; cbn [handler]; unfold well_formed.
  - (* TypeInitial *)
    exec_form. apply Nat.leb_le in Hen.
    pose proof (length_only_digits value).
    repeat split; auto using only_digits_digits; try lia; try discriminate.
  - (* Generate *)
    exec_form.
    destruct (PinValidator.generateSecurePin stack (rng (env a)))
      as [[pin g']|] eqn:Hg; exec_form.
    + apply generated_pin in Hg as [Hg1 Hg2].
      repeat split; auto; try lia; try discriminate.
    + repeat split; auto.
  - (* Continue *)
    exec_form. apply negb_true_iff in Hen.
    assert (Hne : ip <> "") by (destruct ip; [discriminate | discriminate]).
    destruct (PinValidator.isValid (PinValidator.validatePin ip)) eqn:Hval;
      exec_form.
    + repeat split; auto.
    + destruct (validatePin_digits ip Hne Hd Hlen).
      repeat split; auto; discriminate.
  - (* TypeConfirm *)
    exec_form. repeat split; auto.
  - (* Back *)
    exec_form. repeat split; auto; try discriminate. cbn. lia.
  - (* Confirm *)
    exec_form. destruct (String.eqb ip cp); exec_form.
    + destruct (onPinSetup ip a) as [[[]|e] a1]; exec_form;
        (repeat split; auto;
         [apply Forall_app; split; [exact Hh | repeat constructor; auto]
         | intros [H|[]]; discriminate H
         | intros [H|[]]; discriminate H ]) ||
        (repeat split; auto;
         apply Forall_app; split; [exact Hh | repeat constructor; auto]).
    + repeat split; auto; intros [H|[]]; discriminate H.
Qed.

Lemma well_formed_run (evs : list Event) (p : Page) :
  well_formed p -> well_formed (run onPinSetup stack evs p).
Proof.
  revert p. induction evs as [|ev evs IH]; intros p Hk; [exact Hk|].
  cbn [run fold_left]. apply IH, well_formed_fire, Hk.
Qed.

Lemma well_formed_mounted (a : App) : well_formed (mkPage mounted a []).
Proof.
  unfold well_formed, mounted. cbn. repeat split; auto; try lia; discriminate.
Qed.

(** X10. The setup form hands to [onPinSetup] only a PIN that passed
    [validatePin]: from the form as it is mounted, through every
    sequence of inputs, generated PINs and clicks, and whatever the
    parent's handler does, every PIN handed over is valid. *)
Theorem onPinSetup_receives_valid_pins (evs : list Event) (a : App) :
  Forall (fun pin =>
            PinValidator.isValid (PinValidator.validatePin pin) = true)
         (handed (run onPinSetup stack evs (mkPage mounted a []))).
Proof. apply (well_formed_run evs _ (well_formed_mounted a)). Qed.

(** X11. The form filters its input to digits and its field holds no
    more than twenty characters, so its PIN is always a string of at
    most twenty digits, and two of the validator's four messages, "PIN
    must contain only numbers" and "PIN must be no more than 20
    characters long", are never among the errors it shows. *)
Theorem setup_form_never_shows (evs : list Event) (a : App) :
  let p := run onPinSetup stack evs (mkPage mounted a []) in
  ~ In PinValidator.ERR_DIGITS (errors (form p)) /\
  ~ In PinValidator.ERR_LONG (errors (form p)) /\
  PinValidator.all_chars PinValidator.is_digit (initialPin (form p)) = true /\
  (String.length (initialPin (form p)) <= 20)%nat.
Proof.
  destruct (well_formed_run evs _ (well_formed_mounted a))
    as (H1 & H2 & _ & _ & H3 & H4).
  cbv zeta. auto.
Qed.

End Form.

Section Parent.
Variable hashPin : string -> SE Rng string.
Variable stack : nat.

Lemma handed_once_fire (p : Page) (ev : Event) :
  handed_once p ->
  handed_once (fire (SecretVault.handlePinSetup hashPin) stack p ev).
Proof.
  unfold handed_once. intros Ho. unfold fire.
  destruct (enabled ev p) eqn:Hen; [|exact Ho].
  apply andb_true_iff in Hen as [_ Hen].
  destruct p as [[st ip cp errs lo] a hd].
  cbn [form step initialPin confirmPin errors isLoading handed] in *.
  destruct ev, st; try discriminate Hen; cbn [handler].
  - exec_form. destruct Ho as [Ho | (_ & _ & Ho)]; [auto | discriminate].
  - exec_form. destruct Ho as [Ho | (_ & _ & Ho)]; [|discriminate].
    destruct (PinValidator.generateSecurePin stack (rng (env a)))
      as [[pin g']|]; exec_form; auto.
  - exec_form. destruct Ho as [Ho | (_ & _ & Ho)]; [|discriminate].
    destruct (PinValidator.isValid (PinValidator.validatePin ip));
      exec_form; auto.
  - exec_form. exact Ho.
  - exec_form. apply negb_true_iff in Hen. subst lo.
    destruct Ho as [Ho | (_ & Ho & _)]; [auto | discriminate].
  - apply andb_true_iff in Hen as [_ Hen]. apply negb_true_iff in Hen.
    subst lo. destruct Ho as [-> | (_ & Ho & _)]; [|discriminate].
    exec_form. destruct (String.eqb ip cp); exec_form; [|auto].
    pose proof (SecretVaultHandlers.handlePinSetup_never_throws hashPin ip a)
      as Hok.
    destruct (SecretVault.handlePinSetup hashPin ip a) as [[[]|e] a1];
      [|discriminate Hok].
    exec_form. right. auto.
Qed.

(** X12. Under the vault, whose [handlePinSetup] never throws, the
    setup form hands a PIN over at most once; from then on it shows its
    spinner in the confirmation step with "Back" and "Setup Vault"
    disabled, also when the setup has failed. *)
Theorem setup_is_handed_over_once (evs : list Event) (a : App) :
  let p := run (SecretVault.handlePinSetup hashPin) stack evs
               (mkPage mounted a []) in
  (length (handed p) <= 1)%nat /\
  (handed p <> [] ->
   isLoading (form p) = true /\ step (form p) = confirm_step /\
   enabled Back p = false /\ enabled Confirm p = false).
Proof.
  cbv zeta.
  assert (H : forall p,
            handed_once p ->
            handed_once (run (SecretVault.handlePinSetup hashPin) stack
                             evs p)).
  { induction evs as [|ev evs IH]; intros p Hp; [exact Hp|].
    cbn [run fold_left]. apply IH, handed_once_fire, Hp. }
  destruct (H (mkPage mounted a []) (or_introl eq_refl))
    as [Hnil | (Hlen & Hlo & Hst)].
  - rewrite Hnil. cbn [length]. split; [lia | congruence].
  - split; [lia|]. intros _. split; [exact Hlo|]. split; [exact Hst|].
    unfold enabled. rewrite Hst, Hlo. cbn [negb].
    rewrite !andb_false_r. auto.
Qed.

End Parent.
End PinSetupFacts.

(** ** The stores *)

Ltac exec_store :=
  cbv beta iota zeta delta
      [VaultStorage.updateSessionActivity VaultStorage.cleanupExpiredSessions
       VaultStorage.clearAllData];
  exec.

Module VaultStorageRoundTrips.
Import VaultStorage VaultStorageFacts Samples.

(** X13. The file store.  While the requests succeed, a file that was
    stored is found under its id and is among the files listed, and the
    records under other ids are as before; after its deletion no file
    is found under its id, the other records are still as before, and
    the other three stores were never touched. *)
Theorem storeFile_getFile_deleteFile (file : VaultFile) (e : Env) :
  reliable 4 e ->
  exists e1 e2 e3 e4 listed,
    storeFile file e = (Ok tt, e1) /\
    getFile (file_id file) e1 = (Ok (Some file), e2) /\
    (forall id, id <> file_id file ->
                files (db e1) !! id = files (db e) !! id) /\
    getAllFiles e2 = (Ok listed, e3) /\ In file listed /\
    deleteFile (file_id file) e3 = (Ok tt, e4) /\
    files (db e4) !! file_id file = None /\
    (forall id, id <> file_id file ->
                files (db e4) !! id = files (db e) !! id) /\
    (pinConfig (db e4), sessions (db e4), metadata (db e4))
    = (pinConfig (db e), sessions (db e), metadata (db e)).
Proof.
  destruct e as [[fl pc ss md] c g fs co ca]. intros H.
  unfold storeFile, getFile, getAllFiles, deleteFile.
  no_fault H fs; [|no_fault H fs; [|no_fault H fs; [|no_fault H fs]]]; exec.
  all: eexists _, _, _, _, _; (split; [reflexivity|]); exec.
  all: rewrite lookup_insert_eq; (split; [reflexivity|]).
  all: split; [intros id Hid; now rewrite lookup_insert_ne|]; exec.
  all: split; [reflexivity|].
  all: split; [apply (VaultStorageFacts.getAll_In _ (file_id file)),
                 lookup_insert_eq|].
  all: exec; (split; [reflexivity|]); exec.
  all: rewrite lookup_delete_eq; split; [reflexivity|].
  all: split; [|reflexivity].
  all: intros id Hid; now rewrite lookup_delete_ne, lookup_insert_ne.
Qed.

Lemma storeFile_getFile_deleteFile_witness :
  exists e1 e2,
    storeFile stored_file world_with_session = (Ok tt, e1) /\
    getFile "f1" e1 = (Ok (Some stored_file), e2).
Proof.
  destruct (storeFile_getFile_deleteFile stored_file world_with_session)
    as (e1 & e2 & _ & _ & _ & H1 & H2 & _); [constructor|].
  exists e1, e2. split; [exact H1 | exact H2].
Defined.

(** X14. The store holds one PIN configuration, the one stored last:
    storing a second configuration replaces the first, [getPinConfig]
    returns the second, and the other three stores are untouched. *)
Theorem storePinConfig_getPinConfig (c1 c2 : PinConfig) (e : Env) :
  reliable 3 e ->
  exists e1 e2 e3,
    storePinConfig c1 e = (Ok tt, e1) /\
    storePinConfig c2 e1 = (Ok tt, e2) /\
    getPinConfig e2 = (Ok (Some c2), e3) /\
    (files (db e3), sessions (db e3), metadata (db e3))
    = (files (db e), sessions (db e), metadata (db e)).
Proof.
  destruct e as [[fl pc ss md] c g fs co ca]. intros H.
  unfold storePinConfig, getPinConfig.
  no_fault H fs; [|no_fault H fs; [|no_fault H fs]]; exec.
  all: eexists _, _, _; (split; [reflexivity|]); exec.
  all: (split; [reflexivity|]); exec.
  all: rewrite lookup_insert_eq; split; reflexivity.
Qed.

Lemma storePinConfig_getPinConfig_witness :
  exists e1 e2 e3,
    storePinConfig locked_config (world_locked 0) = (Ok tt, e1) /\
    storePinConfig four_failures e1 = (Ok tt, e2) /\
    getPinConfig e2 = (Ok (Some four_failures), e3).
Proof.
  destruct (storePinConfig_getPinConfig locked_config four_failures
              (world_locked 0))
    as (e1 & e2 & e3 & H1 & H2 & H3 & _); [constructor|].
  exists e1, e2, e3. auto.
Defined.

(** X15. [updateSessionActivity] rejects with "Session not found" for
    an id that has no session, where [endSession] resolves, and leaves
    the store as it is; for a session that is there it writes the
    current time to [lastActivity] and nothing else, so that an ended
    session stays ended. *)
Theorem updateSessionActivity_touches_or_rejects
    (sessionId : string) (e : Env) :
  reliable 2 e ->
  exists e',
    match sessions (db e) !! sessionId with
    | None =>
        updateSessionActivity sessionId e
        = (Throw (JsError "Session not found"), e') /\
        sessions (db e') = sessions (db e)
    | Some s =>
        updateSessionActivity sessionId e = (Ok tt, e') /\
        sessions (db e') =
          <[session_id s :=
              mkVaultSession (session_id s) (startTime s) (clock e)
                             (isActive s)]> (sessions (db e))
    end /\
    (files (db e'), pinConfig (db e'), metadata (db e'))
    = (files (db e), pinConfig (db e), metadata (db e)).
Proof.
  destruct e as [[fl pc ss md] c g fs co ca]. intros H.
  cbn [db sessions clock].
  destruct (ss !! sessionId) as [s|] eqn:Hs.
  all: no_fault H fs; [|no_fault H fs]; exec_store; rewrite Hs; exec_store.
  all: eexists; split; [split; reflexivity | reflexivity].
Qed.

Lemma updateSessionActivity_touches_or_rejects_witness :
  exists e',
    updateSessionActivity "no such session" world_with_session
    = (Throw (JsError "Session not found"), e').
Proof.
  destruct (updateSessionActivity_touches_or_rejects "no such session"
              world_with_session) as (e' & [H _] & _); [constructor|].
  exists e'. exact H.
Defined.

(** X16. [cleanupExpiredSessions] deactivates the sessions whose last
    activity lies before the cutoff, the current time less the timeout,
    and changes nothing else: no session is removed or added, none is
    activated, the times of every session stay, and the other stores
    are untouched.  A session that is active afterwards was active
    before and is not older than the cutoff. *)
Theorem cleanupExpiredSessions_only_deactivates
    (timeoutMinutes : Z) (e : Env) :
  reliable 1 e ->
  let cutoffTime := (clock e - timeoutMinutes * 60 * 1000)%Z in
  exists e',
    cleanupExpiredSessions timeoutMinutes e = (Ok tt, e') /\
    (files (db e'), pinConfig (db e'), metadata (db e'))
    = (files (db e), pinConfig (db e), metadata (db e)) /\
    (forall k, sessions (db e) !! k = None -> sessions (db e') !! k = None) /\
    (forall k s, sessions (db e) !! k = Some s ->
       sessions (db e') !! k =
         Some (if (lastActivity s <? cutoffTime)%Z
               then deactivated s else s)) /\
    (forall k s', sessions (db e') !! k = Some s' -> isActive s' = true ->
       (cutoffTime <= lastActivity s')%Z /\ sessions (db e) !! k = Some s').
Proof.
  destruct e as [[fl pc ss md] c g fs co ca]. intros H. cbv zeta.
  cbn [db sessions clock].
  assert (Hfound : forall k s, ss !! k = Some s ->
            (expire (c - timeoutMinutes * 60 * 1000) <$> ss) !! k =
            Some (if (lastActivity s <? c - timeoutMinutes * 60 * 1000)%Z
                  then deactivated s else s)).
  { intros k s Hk. rewrite lookup_fmap, Hk. reflexivity. }
  no_fault H fs; exec_store.
  all: eexists; (split; [reflexivity|]); (split; [reflexivity|]).
  all: split; [intros k Hk; now rewrite lookup_fmap, Hk|].
  all: split; [exact Hfound|].
  all: intros k s' Hk Hact; rewrite lookup_fmap in Hk.
  all: destruct (ss !! k) as [s|]; [|discriminate Hk].
  all: cbn in Hk; injection Hk as <-; unfold expire in *.
  all: destruct (Z.ltb_spec (lastActivity s) (c - timeoutMinutes * 60 * 1000));
    [discriminate Hact | split; [lia | reflexivity]].
Qed.

Lemma cleanupExpiredSessions_only_deactivates_witness :
  exists e',
    cleanupExpiredSessions 0 world_with_session = (Ok tt, e') /\
    sessions (db e') !! session_id open_session
    = Some (deactivated open_session).
Proof.
  destruct (cleanupExpiredSessions_only_deactivates 0 world_with_session)
    as (e' & Hrun & _ & _ & Hs & _); [constructor|].
  exists e'. split; [exact Hrun|].
  apply (Hs (session_id open_session) open_session). apply lookup_insert_eq.
Defined.

(** X17. A session that was created can be ended.  [createSession]
    returns an active session that starts now and puts it in the store
    under its id; [endSession] on that id leaves it in the store,
    inactive, with its times as they were, and the sessions under other
    ids as they were before the two calls. *)
Theorem createSession_endSession (e : Env) :
  reliable 3 e ->
  exists s e1 e2,
    createSession e = (Ok s, e1) /\
    isActive s = true /\ startTime s = clock e /\ lastActivity s = clock e /\
    sessions (db e1) !! session_id s = Some s /\
    endSession (session_id s) e1 = (Ok tt, e2) /\
    sessions (db e2) !! session_id s =
      Some (mkVaultSession (session_id s) (clock e) (clock e) false) /\
    (forall k, k <> session_id s ->
               sessions (db e2) !! k = sessions (db e) !! k).
Proof.
  destruct e as [[fl pc ss md] c g fs co ca]. intros H.
  unfold createSession, endSession.
  no_fault H fs; [|no_fault H fs; [|no_fault H fs]]; exec_vault.
  all: eexists (mkVaultSession _ _ _ _), _, _; (split; [reflexivity|]).
  all: cbn [isActive startTime lastActivity session_id].
  all: do 3 (split; [reflexivity|]); exec.
  all: (split; [apply lookup_insert_eq|]).
  all: rewrite lookup_insert_eq; exec_vault.
  all: cbn [isActive startTime lastActivity session_id].
  all: (split; [reflexivity|]); exec.
  all: rewrite lookup_insert_eq; (split; [reflexivity|]).
  all: intros k Hk; now rewrite !lookup_insert_ne.
Qed.

Lemma createSession_endSession_witness :
  exists s e1 e2,
    createSession world_with_session = (Ok s, e1) /\
    endSession (session_id s) e1 = (Ok tt, e2) /\
    sessions (db e2) !! session_id s
    = Some (mkVaultSession (session_id s) 3000 3000 false).
Proof.
  destruct (createSession_endSession world_with_session)
    as (s & e1 & e2 & H1 & _ & _ & _ & _ & H2 & H3 & _); [constructor|].
  exists s, e1, e2. auto.
Defined.

(** X18. [clearAllData] empties the four stores in one transaction.
    While its requests succeed, no PIN configuration and no file is
    found afterwards, and a vault that is opened then shows the setup
    form; when one of its requests fails, it throws and nothing is
    cleared. *)
Theorem clearAllData_empties_or_keeps
    (hashPin : string -> SE Rng string)
    (verifyPin : string -> string -> SE Rng bool)
    (v : Vault) (m : Manager) (e : Env) :
  (reliable 5 e ->
   exists e',
     clearAllData e = (Ok tt, e') /\
     db e' = mkDatabase ∅ ∅ ∅ ∅ /\
     fst (getPinConfig e') = Ok None /\
     fst (getAllFiles e') = Ok [] /\
     SecretVault.screen
       (vault (SecretVault.step hashPin verifyPin (mkApp v m e')
                                SecretVault.Mount))
     = SecretVault.SetupForm) /\
  (forall err e', clearAllData e = (Throw err, e') -> db e' = db e).
Proof.
  destruct e as [[fl pc ss md] c g fs co ca]. split.
  - intros H.
    no_fault H fs;
      [|no_fault H fs; [|no_fault H fs; [|no_fault H fs; [|no_fault H fs]]]].
    all: exec_store; eexists; (split; [reflexivity|]).
    all: (split; [reflexivity|]); exec.
    all: rewrite lookup_empty; unfold getAll; rewrite map_to_list_empty.
    all: do 2 (split; [reflexivity|]).
    all: unfold SecretVault.step; cbn [SecretVault.enabled SecretVault.handler].
    all: unfold SecretVault.lockout_effect; exec_vault.
    all: rewrite lookup_empty; reflexivity.
  - intros err e'. exec_store.
    destruct fs as [|[|] [|[|] [|[|] [|[|] fs]]]]; exec;
      intros [= <- <-] || intros [=]; reflexivity.
Qed.

End VaultStorageRoundTrips.

(** ** Identifiers *)

Module SecureIdFacts.
Import Base64Facts EncryptionManager.

Lemma concat_cons (x : string) (xs : list string) :
  String.concat "" (x :: xs) = x +:+ String.concat "" xs.
Proof.
  destruct xs as [|y ys]; cbn [String.concat].
  - now rewrite append_empty.
  - now rewrite PinValidatorFacts.append_nil.
Qed.

(** The two digits of a byte, and the byte they stand for, checked on
    all bytes. *)
Lemma hex_byte_spec (b : Z) :
  is_byte b ->
  exists c1 c2, hex_byte b = String c1 (String c2 "") /\
                is_hex c1 = true /\ is_hex c2 = true /\
                forall b', is_byte b' -> hex_byte b' = hex_byte b -> b' = b.
Proof.
  intros Hb.
  assert (H : in_range 256 (fun b =>
            match hex_byte b with
            | String c1 (String c2 "") =>
                is_hex c1 && is_hex c2
                && in_range 256 (fun b' =>
                     negb (String.eqb (hex_byte b') (hex_byte b))
                     || (b' =? b)%Z)
            | _ => false
            end) = true) by (vm_compute; reflexivity).
  pose proof (in_range_spec _ _ H b Hb) as H'. clear H. cbv beta in H'.
  destruct (hex_byte b) as [|c1 [|c2 [|]]]; try discriminate H'.
  apply andb_true_iff in H' as [H' H3]. apply andb_true_iff in H' as [H1 H2].
  exists c1, c2. repeat split; auto. intros b' Hb' Heq.
  pose proof (in_range_spec _ _ H3 b' Hb') as H4. cbv beta in H4.
  apply orb_true_iff in H4 as [H4|H4]; [|now apply Z.eqb_eq].
  apply negb_true_iff, String.eqb_neq in H4. congruence.
Qed.

Lemma hex_string (bs : list Z) :
  Forall is_byte bs ->
  String.length (String.concat "" (map hex_byte bs)) = (2 * length bs)%nat /\
  PinValidator.all_chars is_hex (String.concat "" (map hex_byte bs)) = true.
Proof.
  induction 1 as [|b bs Hb _ [IH1 IH2]]; [split; reflexivity|].
  cbn [map]. rewrite concat_cons.
  destruct (hex_byte_spec b Hb) as (c1 & c2 & -> & H1 & H2 & _).
  rewrite !PinValidatorFacts.append_cons, PinValidatorFacts.append_nil.
  cbn [String.length PinValidator.all_chars length].
  rewrite IH1, IH2, H1, H2. split; [lia | reflexivity].
Qed.

Lemma hex_string_inj (bs bs' : list Z) :
  Forall is_byte bs -> Forall is_byte bs' -> length bs = length bs' ->
  String.concat "" (map hex_byte bs) = String.concat "" (map hex_byte bs') ->
  bs = bs'.
Proof.
  intros Hb. revert bs'.
  induction Hb as [|b bs Hb _ IH]; intros [|b' bs'] Hb' Hlen Heq;
    try discriminate Hlen; [reflexivity|].
  apply Forall_cons in Hb' as [Hb' Hbs'].
  cbn [map] in Heq. rewrite !concat_cons in Heq.
  destruct (hex_byte_spec b Hb) as (c1 & c2 & Hh & _ & _ & Hinj).
  destruct (hex_byte_spec b' Hb') as (c1' & c2' & Hh' & _).
  rewrite Hh, Hh' in Heq.
  rewrite !PinValidatorFacts.append_cons, !PinValidatorFacts.append_nil in Heq.
  injection Heq as -> -> Hrest.
  f_equal; [symmetry; apply Hinj; [exact Hb' | congruence]|].
  apply IH; [exact Hbs' | cbn in Hlen; lia | exact Hrest].
Qed.

(** X19. [generateSecureId] draws 16 random bytes and returns the 32
    lowercase hexadecimal digits that write them, two for each byte, so
    that two ids are different whenever the bytes drawn for them are. *)
Theorem generateSecureId_hex (g : Rng) :
  exists id,
    generateSecureId g = (Ok id, snd (getRandomValues 16 g)) /\
    String.length id = 32%nat /\
    PinValidator.all_chars is_hex id = true /\
    forall g' id',
      generateSecureId g' = (Ok id', snd (getRandomValues 16 g')) ->
      fst (getRandomValues 16 g') <> fst (getRandomValues 16 g) -> id' <> id.
Proof.
  eexists. split; [reflexivity|].
  pose proof (FileTransferFacts.getRandomValues_bytes 16 g) as Hb.
  destruct (hex_string _ Hb) as [Hlen Hhex].
  rewrite EncryptionManagerFacts.length_getRandomValues in Hlen.
  split; [exact Hlen|]. split; [exact Hhex|].
  intros g' id' Hg' Hne Heq. apply Hne.
  assert (Hid : id' = String.concat ""
                        (map hex_byte (fst (getRandomValues 16 g'))))
    by (unfold generateSecureId, bind, random_bytes, ret in Hg';
        destruct (getRandomValues 16 g'); cbn [fst] in *; congruence).
  rewrite Hid in Heq.
  apply hex_string_inj;
    [apply FileTransferFacts.getRandomValues_bytes
    | apply FileTransferFacts.getRandomValues_bytes
    | now rewrite !EncryptionManagerFacts.length_getRandomValues
    | exact Heq].
Qed.

End SecureIdFacts.

(** ** The list of files and the countdown *)

Module FileListFacts.
Import FileManager SecretVault Base64Facts Samples.

Lemma startsWith_includes (needle s : string) :
  startsWith needle s = true -> includes needle s = true.
Proof.
  unfold startsWith. intros H. destruct s; cbn [includes]; now rewrite H.
Qed.

(** X20. A file is always listed under the category that
    [getCategoryFromType] recorded for it when it was uploaded, which is
    one of the selector's values, and under "all". *)
Theorem file_listed_under_its_category (file : VaultFile) :
  matchesCategory (getCategoryFromType (file_type file)) file = true /\
  matchesCategory "all" file = true /\
  In (getCategoryFromType (file_type file)) categories.
Proof.
  unfold matchesCategory, getCategoryFromType, categories.
  set (t := file_type file). cbv zeta.
  destruct (startsWith "image/" t) eqn:Hi;
    [cbn; rewrite ?Hi; cbn; auto 10|].
  destruct (startsWith "video/" t) eqn:Hv;
    [cbn; rewrite ?Hv; cbn; auto 10|].
  destruct (startsWith "audio/" t) eqn:Ha;
    [cbn; rewrite ?Ha; cbn; auto 10|].
  destruct (includes "pdf" t) eqn:Hp;
    [cbn; rewrite ?Hp; cbn; auto 10|].
  destruct (includes "doc" t) eqn:Hd;
    [cbn; rewrite ?Hd, ?Hp; cbn; auto 10|].
  destruct (startsWith "text/" t) eqn:Ht.
  - apply startsWith_includes in Ht. cbn. rewrite ?Hp, ?Hd, ?Ht. cbn. auto 10.
  - cbn. rewrite ?Hi, ?Hv, ?Ha, ?Hp, ?Hd. cbn. auto 10.
Qed.

Lemma prefix_first (c : ascii) (lit s : string) :
  String.prefix (String c lit) s = true ->
  exists rest, s = String c rest.
Proof.
  destruct s as [|d s]; cbn [String.prefix]; [discriminate|].
  destruct (Ascii.ascii_dec c d) as [->|]; [eauto | discriminate].
Qed.

(** X21. The categories of the list overlap.  A file whose type starts
    with "text/" and contains neither "pdf" nor "doc" is recorded as a
    document, and it is listed under "documents" and also under
    "other". *)
Theorem text_file_listed_twice (file : VaultFile) :
  startsWith "text/" (file_type file) = true ->
  includes "pdf" (file_type file) = false ->
  includes "doc" (file_type file) = false ->
  getCategoryFromType (file_type file) = "documents" /\
  matchesCategory "documents" file = true /\
  matchesCategory "other" file = true.
Proof.
  intros Ht Hp Hd. unfold matchesCategory, getCategoryFromType.
  pose proof (startsWith_includes _ _ Ht) as Hinc.
  destruct (prefix_first _ _ _ Ht) as (rest & Heq).
  set (t := file_type file) in *. cbv zeta.
  assert (Hi : startsWith "image/" t = false)
    by (rewrite Heq; reflexivity).
  assert (Hv : startsWith "video/" t = false)
    by (rewrite Heq; reflexivity).
  assert (Ha : startsWith "audio/" t = false)
    by (rewrite Heq; reflexivity).
  rewrite Hi, Hv, Ha, Hp, Hd, Ht. cbn [orb].
  change (String.eqb "documents" "all") with false.
  change (String.eqb "documents" "images") with false.
  change (String.eqb "documents" "documents") with true.
  change (String.eqb "other" "all") with false.
  change (String.eqb "other" "images") with false.
  change (String.eqb "other" "documents") with false.
  change (String.eqb "other" "videos") with false.
  change (String.eqb "other" "audio") with false.
  change (String.eqb "other" "other") with true.
  cbn [existsb andb orb negb]. rewrite Hi, Hv, Ha, Hinc. auto.
Qed.

Lemma text_file_listed_twice_witness :
  matchesCategory "documents" stored_file = true /\
  matchesCategory "other" stored_file = true.
Proof.
  apply (text_file_listed_twice stored_file); reflexivity.
Defined.

Lemma lower_char_idem (c : ascii) : lower_char (lower_char c) = lower_char c.
Proof. destruct c as [[] [] [] [] [] [] [] []]; reflexivity. Qed.

Lemma toLowerCase_idem (s : string) :
  toLowerCase (toLowerCase s) = toLowerCase s.
Proof.
  induction s as [|c s IH]; [reflexivity|].
  cbn [toLowerCase]. now rewrite lower_char_idem, IH.
Qed.

(** X22. The search of the list does not see the case of letters: a
    file matches a query exactly when the file with its name and type
    in lower case matches the query in lower case.  The empty query
    under "all" shows every file. *)
Theorem search_ignores_case (files : list VaultFile) (q : string)
    (file : VaultFile) :
  matchesSearch q file = matchesSearch (toLowerCase q) (lowercased file) /\
  filteredFiles files "" "all" = files.
Proof.
  split.
  - unfold matchesSearch, lowercased. cbn [file_name file_type].
    rewrite !toLowerCase_idem. destruct q; reflexivity.
  - unfold filteredFiles.
    induction files as [|f fl IH]; [reflexivity|].
    cbn [List.filter]. rewrite IH. reflexivity.
Qed.

(** X23. [formatTime] writes a time of [s] seconds, [s] not negative,
    as the minutes, a colon and two digits of seconds below sixty: the
    minutes are [s] divided by sixty, and sixty times the minutes plus
    the seconds shown is [s]. *)
Theorem formatTime_minutes_seconds (seconds : Z) :
  (0 <= seconds)%Z ->
  exists d1 d2,
    (0 <= d1 < 6)%Z /\ (0 <= d2 < 10)%Z /\
    seconds = (60 * (seconds / 60) + 10 * d1 + d2)%Z /\
    formatTime seconds =
      show (seconds / 60) +:+ ":" +:+
      String (PinValidator.digit_char d1)
             (String (PinValidator.digit_char d2) "").
Proof.
  intros Hs. unfold formatTime. rewrite Z.rem_mod_nonneg by lia.
  pose proof (Z.mod_pos_bound seconds 60 ltac:(lia)) as Hr.
  pose proof (Z.div_mod seconds 60 ltac:(lia)) as Hdm.
  set (r := (seconds mod 60)%Z) in *.
  exists (r / 10)%Z, (r mod 10)%Z.
  pose proof (Z.mod_pos_bound r 10 ltac:(lia)).
  pose proof (Z.div_mod r 10 ltac:(lia)).
  assert (0 <= r / 10 < 6)%Z
    by (split; [apply Z.div_pos; lia | apply Z.div_lt_upper_bound; lia]).
  split; [assumption|]. split; [assumption|]. split; [lia|].
  assert (H60 : in_range 60 (fun r =>
            String.eqb (padStart 2 "0" (show r))
              (String (PinValidator.digit_char (r / 10))
                      (String (PinValidator.digit_char (r mod 10)) "")))
          = true) by (vm_compute; reflexivity).
  pose proof (in_range_spec _ _ H60 r Hr) as Hpad. cbv beta in Hpad.
  apply String.eqb_eq in Hpad. now rewrite Hpad.
Qed.

Lemma formatTime_minutes_seconds_witness :
  exists d1 d2, formatTime 899 = "14:" +:+ String d1 (String d2 "").
Proof.
  destruct (formatTime_minutes_seconds 899) as (d1 & d2 & _ & _ & _ & H);
    [lia|].
  eexists _, _. exact H.
Defined.

End FileListFacts.

(** ** Encrypted text *)

Module TextFacts.
Import Base64Facts EncryptionManager.

(** A test vector of the decoder: the euro sign, a byte that is not
    UTF-8, a byte order mark at the start, and a sequence cut short. *)
Example TextDecoder_vectors :
  TextDecoder_decode [0xE2; 0x82; 0xAC]%Z = [0x20AC]%Z /\
  TextDecoder_decode [0x41; 0xFF; 0x42]%Z = [0x41; 0xFFFD; 0x42]%Z /\
  TextDecoder_decode [0xEF; 0xBB; 0xBF; 0x41]%Z = [0x41]%Z /\
  TextDecoder_decode [0xF0; 0x9F; 0x98; 0x80]%Z = [0xD83D; 0xDE00]%Z /\
  TextDecoder_decode [0xC3; 0x41]%Z = [0xFFFD; 0x41]%Z /\
  TextDecoder_decode [0x41; 0xE2; 0x82]%Z = [0x41; 0xFFFD]%Z.
Proof. repeat split; reflexivity. Qed.

Lemma utf8_decode_char (c : ascii) (rest : list Z) :
  utf8_decode utf8_start (utf8_char c ++ rest)
  = code c :: utf8_decode utf8_start rest.
Proof.
  destruct c as [[] [] [] [] [] [] [] []]; reflexivity.
Qed.

Lemma utf8_decode_encode (s : string) :
  utf8_decode utf8_start (TextEncoder_encode s) = code_units s.
Proof.
  unfold TextEncoder_encode, code_units.
  induction (list_ascii_of_string s) as [|c l IH]; [reflexivity|].
  cbn [map concat]. now rewrite utf8_decode_char, IH.
Qed.

Lemma code_byte (c : ascii) : is_byte (code c).
Proof.
  unfold is_byte, code. pose proof (nat_ascii_bounded c). lia.
Qed.

Lemma utf16_code_units (s : string) :
  concat (map utf16 (code_units s)) = code_units s.
Proof.
  unfold code_units.
  induction (list_ascii_of_string s) as [|c l IH]; [reflexivity|].
  cbn [map concat]. rewrite IH. unfold utf16.
  pose proof (code_byte c) as Hc. unfold is_byte in Hc.
  destruct (Z.ltb_spec (code c) 0x10000); [reflexivity | lia].
Qed.

Lemma TextDecoder_TextEncoder (s : string) :
  TextDecoder_decode (TextEncoder_encode s) = code_units s.
Proof.
  unfold TextDecoder_decode. rewrite utf8_decode_encode.
  assert (Hbom : match code_units s with
                 | cp :: rest => if (cp =? 0xFEFF)%Z then rest
                                 else code_units s
                 | [] => []
                 end = code_units s).
  { unfold code_units. destruct (list_ascii_of_string s) as [|c l];
      [reflexivity|]. cbn [map].
    pose proof (code_byte c) as Hc. unfold is_byte in Hc.
    destruct (Z.eqb_spec (code c) 0xFEFF); [lia | reflexivity]. }
  rewrite Hbom. apply utf16_code_units.
Qed.

Lemma utf8_char_bytes (c : ascii) : Forall is_byte (utf8_char c).
Proof.
  assert (H : forallb (fun b => (0 <=? b)%Z && (b <? 256)%Z) (utf8_char c)
              = true)
    by (destruct c as [[] [] [] [] [] [] [] []]; reflexivity).
  apply List.Forall_forall. intros b Hb.
  apply (proj1 (forallb_forall _ _) H) in Hb.
  apply andb_true_iff in Hb as [H1 H2]. unfold is_byte. lia.
Qed.

Lemma TextEncoder_bytes (s : string) : Forall is_byte (TextEncoder_encode s).
Proof.
  unfold TextEncoder_encode.
  induction (list_ascii_of_string s) as [|c l IH]; [constructor|].
  cbn [map concat]. apply Forall_app. split; [apply utf8_char_bytes | exact IH].
Qed.

Lemma lxor_byte (a b : Z) : is_byte a -> is_byte b -> is_byte (Z.lxor a b).
Proof.
  intros Ha Hb.
  assert (H : in_range 256 (fun a => in_range 256 (fun b =>
            (0 <=? Z.lxor a b)%Z && (Z.lxor a b <? 256)%Z)) = true)
    by (vm_compute; reflexivity).
  pose proof (in_range_spec _ _ (in_range_spec _ _ H a Ha) b Hb) as H'.
  cbv beta in H'. apply andb_true_iff in H' as [H1 H2]. unfold is_byte. lia.
Qed.

Lemma be_bytes_bytes (n : nat) (x : Z) : Forall is_byte (be_bytes n x).
Proof.
  unfold be_bytes. apply Forall_map, Forall_forall. intros i _.
  unfold is_byte. change 255%Z with (Z.ones 8).
  rewrite Z.land_ones by lia. apply Z.mod_pos_bound. lia.
Qed.

Lemma xor_bytes_bytes (xs ks : list Z) :
  Forall is_byte xs -> Forall is_byte ks -> Forall is_byte (xor_bytes xs ks).
Proof.
  unfold xor_bytes. intros Hx. revert ks.
  induction Hx as [|x xs Hx _ IH]; intros ks Hk; [constructor|].
  destruct Hk as [|k ks Hk Hks]; [constructor|].
  cbn [zip_with]. constructor; [now apply lxor_byte | now apply IH].
Qed.

Section Mode.
Variable E : Z -> Z.

Lemma keystream_bytes (icb : Z) (n : nat) :
  Forall is_byte (Gcm.keystream E icb n).
Proof.
  unfold Gcm.keystream. apply Forall_take, Forall_concat, Forall_map.
  apply Forall_forall. intros i _. apply be_bytes_bytes.
Qed.

Lemma gctr_bytes (icb : Z) (xs : list Z) :
  Forall is_byte xs -> Forall is_byte (Gcm.gctr E icb xs).
Proof.
  intros Hx. unfold Gcm.gctr.
  apply xor_bytes_bytes; [exact Hx | apply keystream_bytes].
Qed.

Lemma encrypt_bytes (iv aad pt : list Z) :
  Forall is_byte pt -> Forall is_byte (Gcm.encrypt E iv aad pt).
Proof.
  intros Hp. with_strategy transparent [Gcm.encrypt] unfold Gcm.encrypt.
  apply Forall_app. split.
  - now apply gctr_bytes.
  - unfold Gcm.tag. apply gctr_bytes, be_bytes_bytes.
Qed.

End Mode.

(** X24. Text round trip.  [encryptText] does not throw, and [decryptText]
    on the three base64 texts that it returns, with the same PIN, gives
    the text back (for a text of code units below 256): base64, AES-GCM
    under the key derived from the PIN and the salt, and UTF-8 all
    invert. *)
Theorem encryptText_decryptText (text pin : string) (g : Rng) :
  exists enc g',
    encryptText text pin g = (Ok enc, g') /\
    forall g'',
      decryptText (encryptedText enc) pin (text_salt enc) (text_iv enc) g''
      = (Ok (code_units text), g'').
Proof.
  unfold encryptText, bind.
  rewrite EncryptionManagerFacts.encryptFile_eq. cbv zeta.
  eexists _, _. split; [reflexivity|].
  cbn [encryptedText text_salt text_iv encryptedData salt iv].
  intros g''. unfold decryptText, bind, lift.
  rewrite !base64_roundtrip;
    [| apply FileTransferFacts.getRandomValues_bytes
     | apply FileTransferFacts.getRandomValues_bytes
     | apply encrypt_bytes, TextEncoder_bytes ].
  rewrite EncryptionManagerFacts.decryptFile_eq.
  rewrite GcmFacts.decrypt_encrypt. unfold ret.
  now rewrite TextDecoder_TextEncoder.
Qed.

End TextFacts.

(** ** The calculator *)

Ltac exec_engine :=
  cbv beta iota zeta delta
      [bind ret throw try_catch get_state modify fst snd negb
       CalculatorEngine.call CalculatorEngine.calls fold_left
       CalculatorEngine.set_state CalculatorEngine.set_display
       CalculatorEngine.set_previousValue CalculatorEngine.set_operation
       CalculatorEngine.set_waitingForNewValue CalculatorEngine.set_memory
       CalculatorEngine.set_history CalculatorEngine.getState
       CalculatorEngine.getInitialState CalculatorEngine.new_engine
       CalculatorEngine.clear CalculatorEngine.clearEntry
       CalculatorEngine.inputDigit CalculatorEngine.inputDecimal
       CalculatorEngine.performOperation
       CalculatorEngine.performScientificOperation
       CalculatorEngine.performMemoryOperation
       CalculatorEngine.addToHistory CalculatorEngine.clearHistory
       CalculatorEngine.state CalculatorEngine.now
       CalculatorEngine.display CalculatorEngine.previousValue
       CalculatorEngine.operation CalculatorEngine.waitingForNewValue
       CalculatorEngine.memory CalculatorEngine.history].

Module CalculatorFacts.
Import CalculatorEngine.

Section Engine.
Context {Num : Numbers}.

(** X25. A division by zero.  When a division is pending, a second
    operand has been typed and it reads as a number equal to 0, then
    whatever operation is asked next, the equals key included,
    [performOperation] throws 'Division by zero' to its caller and
    leaves the engine as it was: the display, the pending division and
    the history are unchanged, so that asking again throws again. *)
Theorem division_by_zero_is_thrown
    (e : Engine) (op : CalculatorOperation) (previous : number) :
  previousValue (state e) = Some previous ->
  operation (state e) = Some op_divide ->
  waitingForNewValue (state e) = false ->
  strict_eq (parseFloat (display (state e))) (literal "0") = true ->
  performOperation op e = (Throw (JsError DIVISION_BY_ZERO), e) /\
  calls [PerformOperation op; PerformOperation op] e = e.
Proof.
  destruct e as [[d pv o w m h] t]. cbn [state previousValue operation
    waitingForNewValue display].
  intros -> -> -> H0.
  assert (H : performOperation op (mkEngine (mkCalculatorState d
              (Some previous) (Some op_divide) false m h) t)
              = (Throw (JsError DIVISION_BY_ZERO),
                 mkEngine (mkCalculatorState d (Some previous)
                   (Some op_divide) false m h) t)).
  { exec_engine. unfold calculate. rewrite H0. reflexivity. }
  split; [exact H|].
  unfold calls, fold_left, call, bind. rewrite H. cbn [snd].
  rewrite H. reflexivity.
Qed.

Lemma call_history (c : Call) (e : Engine) :
  (now e <= now (snd (call c e)))%Z /\
  (history (state (snd (call c e))) = history (state e) \/
   history (state (snd (call c e))) = [] \/
   exists item,
     history_timestamp item = now e /\ now (snd (call c e)) = now e /\
     history (state (snd (call c e))) = unshifted item (history (state e))).
Proof.
  destruct e as [[d pv o w m h] t].
  destruct c as [| |digit| |op|op|op| |ms].
  - exec_engine. split; [lia|]. right. left. reflexivity.
  - exec_engine. split; [lia|]. left. reflexivity.
  - exec_engine. destruct w; exec_engine; (split; [lia|]); left; reflexivity.
  - exec_engine. destruct w; [|destruct (has_point d)]; exec_engine;
      (split; [lia|]); left; reflexivity.
  - exec_engine. destruct pv as [previous|].
    + destruct o as [pending|]; [destruct w|].
      * destruct op; exec_engine; (split; [lia|]); left; reflexivity.
      * exec_engine.
        destruct (calculate previous (parseFloat d) pending) as [r|err].
        -- destruct op; exec_engine; (split; [lia|]); right; right;
             eexists; (split; [|split; [|reflexivity]]); reflexivity.
        -- split; [lia|]. left. reflexivity.
      * destruct op; exec_engine; (split; [lia|]); left; reflexivity.
    + destruct op; exec_engine; (split; [lia|]); left; reflexivity.
  - destruct op; exec_engine; (split; [lia|]);
      first [ left; reflexivity
            | right; right; eexists;
              (split; [|split; [|reflexivity]]); reflexivity ].
  - destruct op; exec_engine; (split; [lia|]); left; reflexivity.
  - exec_engine. split; [lia|]. right. left. reflexivity.
  - exec_engine. split; [lia|]. left. reflexivity.
Qed.

Lemma In_firstn {A} (n : nat) (l : list A) (a : A) :
  In a (firstn n l) -> In a l.
Proof.
  revert n. induction l as [|b l IH]; intros [|n]; cbn [firstn In];
    try tauto.
  intros [H|H]; [left; exact H|right; exact (IH n H)].
Qed.

Lemma newest_first_firstn (n : nat) (h : list CalculationHistory) :
  newest_first h -> newest_first (firstn n h).
Proof.
  unfold newest_first. intros H. revert n.
  induction H as [|a l Hl IH Ha]; intros [|n]; cbn [firstn];
    try constructor.
  - apply IH.
  - rewrite List.Forall_forall in *. intros b Hb. apply Ha.
    revert Hb. apply In_firstn.
Qed.

Lemma history_kept_call (c : Call) (e : Engine) :
  history_kept e -> history_kept (snd (call c e)).
Proof.
  intros (Hlen & Hsorted & Hpast).
  destruct (call_history c e) as (Hnow & [Heq | [Heq | (item & Hi & Ht & Heq)]]);
    unfold history_kept; rewrite Heq.
  - split; [exact Hlen|]. split; [exact Hsorted|].
    rewrite List.Forall_forall in *. intros i Hin.
    specialize (Hpast i Hin). lia.
  - split; [cbn; lia|]. split; constructor.
  - assert (Hall : newest_first (item :: history (state e)) /\
              List.Forall (fun i => (history_timestamp i <= now (snd (call c e)))%Z)
                     (item :: history (state e))).
    { split.
      - constructor; [exact Hsorted|]. rewrite Hi. exact Hpast.
      - constructor; [lia|]. rewrite Ht. exact Hpast. }
    destruct Hall as [Hs Hp]. unfold unshifted.
    destruct (50 <? length (item :: history (state e)))%nat eqn:Hlt.
    + split; [rewrite length_firstn; lia|].
      split; [apply newest_first_firstn; exact Hs|].
      rewrite List.Forall_forall in *. intros i Hin. apply Hp.
      revert Hin. apply In_firstn.
    + apply Nat.ltb_ge in Hlt. split; [exact Hlt|]. split; assumption.
Qed.

(** X26. The history.  Whatever is done with a calculator, at every
    moment its history has at most 50 entries and they are in the order
    of their times, the newest first. *)
Theorem history_is_bounded_and_newest_first (cs : list Call) (time : Z) :
  (length (history (state (calls cs (new_engine time)))) <= 50)%nat /\
  newest_first (history (state (calls cs (new_engine time)))).
Proof.
  assert (H : history_kept (calls cs (new_engine time))).
  { assert (H0 : history_kept (new_engine time)).
    { unfold history_kept. cbn. split; [lia|]. split; constructor. }
    revert H0. generalize (new_engine time).
    induction cs as [|c cs IH]; intros e He; [exact He|].
    change (calls (c :: cs) e) with (calls cs (snd (call c e))).
    apply IH, history_kept_call, He. }
  destruct H as (H1 & H2 & _). split; assumption.
Qed.


(** X27. A calculation.  On a new calculator, a first entry, an
    operation other than equals, a second entry and the equals key show
    the text of the result of [calculate] on the two entries read as
    numbers, leave nothing pending and make the calculation the one
    entry of the history, written with the symbol of the operation; the
    result is shown as [toString] gives it, not through [formatResult]. *)
Theorem calculation_is_shown_and_recorded
    (a b : string) (op : CalculatorOperation) (r : number) (time : Z) :
  op <> op_equals ->
  calculate (parseFloat a) (parseFloat b) op = Ok r ->
  calls [InputDigit a; PerformOperation op; InputDigit b;
         PerformOperation op_equals] (new_engine time)
  = mkEngine
      (mkCalculatorState (toString r) None None true (literal "0")
         [mkCalculationHistory (show time)
            (code_units (toString (parseFloat a)) ++ [32]%Z
             ++ getOperationSymbol op ++ [32]%Z
             ++ code_units (toString (parseFloat b)))
            (toString r) time])
      time.
Proof.
  intros Hop Hr.
  destruct op; try congruence; exec_engine;
    change (String.eqb "0" "0") with true; exec_engine;
    rewrite Hr; reflexivity.
Qed.

(** X28. An operation asked right after another.  Whatever the state
    of the engine, an operation other than equals that is followed at
    once by a second operation leaves the engine as the second
    operation alone does: the second replaces the first. *)
Theorem second_operation_replaces_first
    (e : Engine) (first second : CalculatorOperation) :
  first <> op_equals ->
  calls [PerformOperation first; PerformOperation second] e
  = calls [PerformOperation second] e.
Proof.
  intros Hop. destruct e as [[d pv o w m h] t].
  destruct pv as [previous|]; [destruct o as [pending|]; [destruct w|]|].
  - destruct first; try congruence; destruct second; reflexivity.
  - destruct (calculate previous (parseFloat d) pending) as [r|err] eqn:Hr.
    + destruct first; try congruence; destruct second;
        exec_engine; rewrite Hr; reflexivity.
    + destruct first; try congruence; destruct second;
        exec_engine; rewrite Hr; cbv iota; rewrite Hr; reflexivity.
  - destruct first; try congruence; destruct second; reflexivity.
  - destruct first; try congruence; destruct second; reflexivity.
Qed.

Lemma inputDigit_display (digit : string) (e : Engine) :
  waitingForNewValue (state e) = false ->
  snd (call (InputDigit digit) e)
  = mkEngine
      (mkCalculatorState
         (if String.eqb (display (state e)) "0" then digit
          else display (state e) +:+ digit)
         (previousValue (state e)) (operation (state e)) false
         (memory (state e)) (history (state e)))
      (now e).
Proof.
  destruct e as [[d pv o w m h] t]. cbn [state waitingForNewValue].
  intros ->. reflexivity.
Qed.


Lemma without_leading_zeros_snoc (s : string) (c : ascii) :
  s <> "" ->
  without_leading_zeros (s +:+ String c "")
  = if String.eqb (without_leading_zeros s) "0" then String c ""
    else without_leading_zeros s +:+ String c "".
Proof.
  induction s as [|a rest IH]; [congruence|]. intros _.
  rewrite PinValidatorFacts.append_cons.
  destruct (Ascii.eqb_spec a "0") as [->|Ha].
  - destruct rest as [|b rest'].
    + rewrite PinValidatorFacts.append_nil.
      change (without_leading_zeros "0") with "0".
      change (String.eqb "0" "0") with true. cbv iota.
      destruct (Ascii.eqb_spec c "0") as [->|Hc]; [reflexivity|].
      cbn [without_leading_zeros].
      destruct c as [[] [] [] [] [] [] [] []]; first [reflexivity|congruence].
    + change (without_leading_zeros (String "0" (String b rest')))
        with (without_leading_zeros (String b rest')).
      rewrite <- IH by congruence.
      rewrite PinValidatorFacts.append_cons. reflexivity.
  - assert (Hs : forall t, without_leading_zeros (String a t) = String a t).
    { intros t. cbn [without_leading_zeros].
      destruct a as [[] [] [] [] [] [] [] []]; first [reflexivity|congruence]. }
    rewrite !Hs. rewrite PinValidatorFacts.append_cons.
    replace (String.eqb (String a rest) "0") with false; [reflexivity|].
    symmetry. apply String.eqb_neq. congruence.
Qed.

Lemma calls_app (cs cs' : list Call) (e : Engine) :
  calls (cs ++ cs') e = calls cs' (calls cs e).
Proof. apply fold_left_app. Qed.

(** Typing.  After [clear], the characters that are typed one by one
    are shown without the zeros that they start with; nothing else in
    the state changes. *)
Lemma typed_digits_lose_leading_zeros (typed : list ascii) (e : Engine) :
  state (calls (Clear :: map (fun c => InputDigit (String c "")) typed) e)
  = mkCalculatorState
      (without_leading_zeros (String "0" (string_of_list_ascii typed)))
      None None false (literal "0") [].
Proof.
  change (calls (Clear :: ?cs) e) with (calls cs (snd (call Clear e))).
  assert (H0 : snd (call Clear e) = mkEngine getInitialState (now e)).
  { destruct e as [[d pv o w m h] t]. reflexivity. }
  rewrite H0. clear H0. generalize (now e) as t. intros t.
  enough (H : calls (map (fun c => InputDigit (String c "")) typed)
                (mkEngine getInitialState t)
              = mkEngine
                  (mkCalculatorState
                     (without_leading_zeros
                        (String "0" (string_of_list_ascii typed)))
                     None None false (literal "0") []) t)
    by (rewrite H; reflexivity).
  induction typed as [|c typed IH] using rev_ind; [reflexivity|].
  rewrite map_app, calls_app, IH. cbn [map calls fold_left].
  rewrite inputDigit_display by reflexivity.
  cbn [state display previousValue operation memory history now].
  replace (String "0" (string_of_list_ascii (typed ++ [c])))
    with (String "0" (string_of_list_ascii typed) +:+ String c "").
  - rewrite without_leading_zeros_snoc by congruence. reflexivity.
  - rewrite PinValidatorFacts.append_cons. f_equal.
    clear IH. induction typed as [|b typed IH]; cbn [app string_of_list_ascii].
    + apply PinValidatorFacts.append_nil.
    + rewrite PinValidatorFacts.append_cons, IH. reflexivity.
Qed.


End Engine.
Import WholeNumbers.

Lemma division_by_zero_is_thrown_witness :
  performOperation op_equals
    (calls [InputDigit "8"; PerformOperation op_divide; InputDigit "0"]
           (new_engine 0))
  = (Throw (JsError DIVISION_BY_ZERO),
     calls [InputDigit "8"; PerformOperation op_divide; InputDigit "0"]
           (new_engine 0)) /\
  calls [PerformOperation op_equals; PerformOperation op_equals]
    (calls [InputDigit "8"; PerformOperation op_divide; InputDigit "0"]
           (new_engine 0))
  = calls [InputDigit "8"; PerformOperation op_divide; InputDigit "0"]
          (new_engine 0).
Proof.
  apply (division_by_zero_is_thrown (Num := numbers)
           (calls [InputDigit "8"; PerformOperation op_divide; InputDigit "0"]
                  (new_engine 0)) op_equals 8%Z); reflexivity.
Defined.

Lemma calculation_is_shown_and_recorded_witness :
  calls [InputDigit "6"; PerformOperation op_multiply; InputDigit "7";
         PerformOperation op_equals] (new_engine 0)
  = mkEngine
      (mkCalculatorState "42" None None true 0%Z
         [mkCalculationHistory "0" [54; 32; 0xD7; 32; 55]%Z "42" 0])
      0.
Proof.
  apply (calculation_is_shown_and_recorded (Num := numbers) "6" "7" op_multiply 42%Z 0);
    [discriminate | reflexivity].
Defined.

Lemma second_operation_replaces_first_witness :
  calls [PerformOperation op_add; PerformOperation op_multiply]
        (calls [InputDigit "6"] (new_engine 0))
  = calls [PerformOperation op_multiply]
          (calls [InputDigit "6"] (new_engine 0)).
Proof.
  apply (second_operation_replaces_first (Num := numbers)
           (calls [InputDigit "6"] (new_engine 0)) op_add op_multiply).
  discriminate.
Defined.

End CalculatorFacts.

(** ** The gesture detector *)

Module GestureFacts.
Import VGestureDetector.

Section Detector.
Context {Num : Numbers}.

Lemma last_snoc_skipn {A} (k : nat) (l : list A) (a : A) :
  (k <= length l)%nat -> skipn k (l ++ [a]) = skipn k l ++ [a].
Proof.
  intros Hk. rewrite List.skipn_app.
  replace (k - length l)%nat with 0%nat by lia. reflexivity.
Qed.

Lemma In_skipn {A} (k : nat) (l : list A) (a : A) :
  In a (skipn k l) -> In a l.
Proof.
  revert k. induction l as [|b l IH]; intros [|k]; cbn [skipn In]; try tauto.
  intros H. right. exact (IH k H).
Qed.

Lemma addPoint_points (px py : number) (d : Detector) :
  isTracking d = true ->
  exists kept,
    points (addPoint px py d) = kept ++ [mkGesturePoint px py (now d)] /\
    (length kept < 50)%nat /\
    forall p, In p kept ->
      In p (points d) /\ (now d - timestamp p < 2000)%Z.
Proof.
  intros Ht. unfold addPoint. rewrite Ht. cbn [negb points].
  rewrite List.filter_app. cbn [List.filter timestamp].
  replace (now d - now d <? timeoutMs)%Z with true
    by (symmetry; apply Z.ltb_lt; unfold timeoutMs; lia).
  set (recent := List.filter _ (points d)).
  assert (Hrecent : forall p, In p recent ->
            In p (points d) /\ (now d - timestamp p < 2000)%Z).
  { intros p Hp. apply List.filter_In in Hp. destruct Hp as [Hin Hlt].
    split; [exact Hin|]. apply Z.ltb_lt in Hlt. exact Hlt. }
  destruct (maxPoints <? length (recent ++ [_]))%nat eqn:Hlen.
  - apply Nat.ltb_lt in Hlen. rewrite length_app in Hlen.
    cbn [length] in Hlen. unfold maxPoints in Hlen.
    unfold slice_last. rewrite length_app. cbn [length].
    rewrite last_snoc_skipn by (unfold maxPoints; lia).
    eexists. split; [reflexivity|]. split.
    + rewrite length_skipn. unfold maxPoints. lia.
    + intros p Hp. apply Hrecent. revert Hp. apply In_skipn.
  - apply Nat.ltb_ge in Hlen. rewrite length_app in Hlen.
    cbn [length] in Hlen. unfold maxPoints in Hlen.
    exists recent. split; [reflexivity|]. split; [lia|exact Hrecent].
Qed.

Lemma points_kept_call (c : Call) (d : Detector) :
  points_kept d -> points_kept (call c d).
Proof.
  intros (Hlen & Hpast & Hwin).
  destruct c as [| |px py| |ms]; cbn [call].
  - split; [cbn; lia|]. split; [intros p []|]. intros end_ p _ [].
  - split; [exact Hlen|]. split; [exact Hpast|exact Hwin].
  - destruct (isTracking d) eqn:Ht.
    + destruct (addPoint_points px py d Ht) as (kept & Heq & Hk & Hin).
      assert (Hnow : now (addPoint px py d) = now d).
      { unfold addPoint. rewrite Ht. reflexivity. }
      unfold points_kept. rewrite Heq, Hnow.
      split; [rewrite length_app; cbn [length]; lia|].
      split.
      * intros p Hp. apply in_app_or in Hp. destruct Hp as [Hp|[<-|[]]].
        -- apply Hpast, Hin, Hp.
        -- cbn [timestamp]. lia.
      * intros end_ p Hlast Hp. rewrite last_snoc in Hlast.
        injection Hlast as <-. cbn [timestamp].
        apply in_app_or in Hp. destruct Hp as [Hp|[<-|[]]].
        -- destruct (Hin p Hp) as [Hp' Hlt]. specialize (Hpast p Hp'). lia.
        -- cbn [timestamp]. lia.
    + unfold addPoint. rewrite Ht. cbn [negb].
      split; [exact Hlen|]. split; [exact Hpast|exact Hwin].
  - split; [cbn; lia|]. split; [intros p []|]. intros end_ p _ [].
  - split; [exact Hlen|]. split; [|exact Hwin].
    cbn [points now]. intros p Hp. specialize (Hpast p Hp). lia.
Qed.

(** X29. The points of a gesture.  Whatever the component does with the
    detector, it never holds more than 50 points, and every point that
    it holds was added less than 2000 ms before the last one. *)
Theorem gesture_points_are_recent (cs : list Call) (time : Z) :
  (length (points (calls cs (new_detector time))) <= 50)%nat /\
  forall end_ p,
    last (points (calls cs (new_detector time))) = Some end_ ->
    In p (points (calls cs (new_detector time))) ->
    (0 <= timestamp end_ - timestamp p < 2000)%Z.
Proof.
  assert (H : points_kept (calls cs (new_detector time))).
  { assert (H0 : points_kept (new_detector time)).
    { split; [cbn; lia|]. split; [intros p []|]. intros end_ p _ []. }
    revert H0. generalize (new_detector time).
    induction cs as [|c cs IH]; intros d Hd; [exact Hd|].
    change (calls (c :: cs) d) with (calls cs (call c d)).
    apply IH, points_kept_call, Hd. }
  destruct H as (H1 & _ & H2). split; assumption.
Qed.


Lemma higher_index (ps : list GesturePoint) (l : list nat)
    (found : number * option nat) (i : nat) :
  snd (fold_left (higher ps) l found) = Some i ->
  In i l \/ snd found = Some i.
Proof.
  revert found. induction l as [|j l IH]; intros found; cbn [fold_left].
  - intros H. right. exact H.
  - intros H. destruct (IH _ H) as [Hin|Hj]; [left; right; exact Hin|].
    unfold higher in Hj. destruct (nth_error ps j) as [p|]; [|right; exact Hj].
    destruct (gt (y p) (fst found)); [|right; exact Hj].
    cbn [snd] in Hj. injection Hj as Hj. left. left. exact Hj.
Qed.

Lemma findTurningPoint_inside (ps : list GesturePoint) (i : nat)
    (t : GesturePoint) :
  findTurningPoint ps = Some (i, t) ->
  nth_error ps i = Some t /\ (1 <= i)%nat /\ (i + 1 < length ps)%nat.
Proof.
  unfold findTurningPoint. destruct (length ps <? 3)%nat; [discriminate|].
  destruct (snd (fold_left _ _ _)) as [j|] eqn:Hfound; [|discriminate].
  destruct (nth_error ps j) as [p|] eqn:Hp; [|discriminate].
  intros H. injection H as <- <-. split; [exact Hp|].
  apply higher_index in Hfound. destruct Hfound as [Hin|H]; [|discriminate].
  apply in_seq in Hin. lia.
Qed.

Lemma last_firstn {A} (l : list A) (i : nat) (a d : A) :
  nth_error l i = Some a -> List.last (firstn (i + 1) l) d = a.
Proof.
  revert l. induction i as [|i IH]; intros [|b l]; cbn [nth_error];
    try discriminate.
  - intros H. injection H as ->. reflexivity.
  - intros H. change (firstn (S i + 1) (b :: l)) with (b :: firstn (i + 1) l).
    specialize (IH l H).
    destruct (firstn (i + 1) l) as [|c r] eqn:Hf.
    + destruct l; [destruct i; discriminate|].
      replace (i + 1)%nat with (S i) in Hf by lia. discriminate.
    + exact IH.
Qed.

Lemma last_default {A} (l : list A) (d d' : A) :
  l <> [] -> List.last l d = List.last l d'.
Proof.
  induction l as [|b l IH]; [congruence|]. intros _.
  destruct l as [|c l]; [reflexivity|].
  change (List.last (b :: c :: l) d) with (List.last (c :: l) d).
  change (List.last (b :: c :: l) d') with (List.last (c :: l) d').
  apply IH. discriminate.
Qed.

Lemma last_skipn {A} (l : list A) (i : nat) (d d' : A) :
  (i < length l)%nat -> List.last (skipn i l) d = List.last l d'.
Proof.
  revert l. induction i as [|i IH]; intros [|b l]; cbn [length];
    try lia; intros Hi.
  - apply last_default. discriminate.
  - cbn [skipn]. rewrite (IH l) by lia.
    destruct l; [cbn in Hi; lia|]. reflexivity.
Qed.

Lemma hd_skipn {A} (l : list A) (i : nat) :
  hd_error (skipn i l) = nth_error l i.
Proof.
  revert l. induction i as [|i IH]; intros [|b l]; try reflexivity.
  apply IH.
Qed.

Lemma smoothPoints_ends (ps : list GesturePoint) (first : GesturePoint) :
  hd_error ps = Some first ->
  hd_error (smoothPoints ps) = Some first /\
  List.last (smoothPoints ps) first = List.last ps first.
Proof.
  intros H. unfold smoothPoints.
  destruct (length ps <? 3)%nat; [split; [exact H|reflexivity]|].
  destruct ps as [|p ps]; [discriminate|]. injection H as ->.
  split; [reflexivity|].
  rewrite app_assoc. apply List.last_last.
Qed.

Lemma analyzeSegment_valid (ps : list GesturePoint) (type : SegmentType) :
  isValidLine (analyzeSegment ps type) = true ->
  exists start,
    hd_error ps = Some start /\
    gt (y start) (y (List.last ps start)) = true /\
    lt (x start) (x (List.last ps start)) = true.
Proof.
  unfold analyzeSegment. destruct (length ps <? 2)%nat; [discriminate|].
  destruct ps as [|start ps]; [discriminate|].
  destruct (lt _ minDistance); [discriminate|].
  cbn [isValidLine]. intros H. exists start. split; [reflexivity|].
  apply andb_true_iff in H. destruct H as [H _].
  destruct type; apply andb_true_iff in H; exact H.
Qed.

(** X30. What is accepted.  The detector accepts a gesture only if the
    gesture has a turning point such that the first point is below it on
    the screen (a greater y) and to its left, and the last point is
    above it and to its right: the stroke rises to the right before the
    turning point and after it.  A stroke that goes down to its turning
    point, as the first stroke of a V does, is not accepted. *)
Theorem accepted_gesture_rises_to_the_right (d : Detector) :
  isValid (detectVGesture d) = false \/
  exists first turning end_ index,
    hd_error (points d) = Some first /\
    List.last (points d) first = end_ /\
    (minPoints <= length (points d))%nat /\
    findTurningPoint (smoothPoints (points d)) = Some (index, turning) /\
    gt (y first) (y turning) = true /\ lt (x first) (x turning) = true /\
    gt (y turning) (y end_) = true /\ lt (x turning) (x end_) = true.
Proof.
  unfold detectVGesture.
  destruct (length (points d) <? minPoints)%nat eqn:Hmin;
    [left; reflexivity|].
  apply Nat.ltb_ge in Hmin. cbn [isValid]. unfold analyzeVPattern.
  destruct (length (smoothPoints (points d)) <? minPoints)%nat;
    [left; reflexivity|].
  destruct (findTurningPoint (smoothPoints (points d)))
    as [[index turning]|] eqn:Hturn; [|left; reflexivity].
  destruct (isValidLine (analyzeSegment
              (firstn (index + 1) (smoothPoints (points d))) left_segment))
    eqn:Hleft; [|left; reflexivity].
  destruct (isValidLine (analyzeSegment
              (skipn index (smoothPoints (points d))) right_segment))
    eqn:Hright; [|left; reflexivity].
  cbn [negb orb].
  match goal with |- context [if negb ?b then _ else _] => destruct b end;
    [|left; reflexivity].
  cbn [negb fst].
  match goal with |- ?b = false \/ _ => destruct b end;
    [|left; reflexivity].
  right.
  destruct (findTurningPoint_inside _ _ _ Hturn) as (Hnth & H1 & Hlen).
  destruct (points d) as [|first ps] eqn:Hps; [cbn in Hmin; unfold minPoints in Hmin; lia|].
  destruct (smoothPoints_ends (first :: ps) first eq_refl) as [Hhd Hlast].
  apply analyzeSegment_valid in Hleft, Hright.
  destruct Hleft as (start & Hstart & Hgt & Hlt).
  destruct Hright as (start' & Hstart' & Hgt' & Hlt').
  rewrite hd_skipn, Hnth in Hstart'. injection Hstart' as <-.
  assert (Hs : start = first).
  { destruct (smoothPoints (first :: ps)) as [|q qs]; [discriminate|].
    replace (index + 1)%nat with (S index) in Hstart by lia.
    cbn [firstn hd_error] in Hstart, Hhd. congruence. }
  subst start.
  rewrite (last_firstn _ _ _ _ Hnth) in Hgt, Hlt.
  rewrite (last_skipn _ _ _ first) in Hgt', Hlt' by lia.
  rewrite Hlast in Hgt', Hlt'.
  exists first, turning, (List.last (first :: ps) first), index.
  repeat split; try assumption.
Qed.


End Detector.
End GestureFacts.
